(** * Self-play chess trainer: position keys, value store, search and orchestrator

    A shallow embedding of the move-decision and self-play training engine:
    - [hashPosition] / [simplifyFen]  (lib/ai/neural-net.ts, lib/ai/openings.ts)
    - the Q-table of [NeuralNetwork]  (getQValue, setQValue, pruneQTable, learn,
      updateStats, exportState, importState, decideMove, decideMoveWithMCTS)
    - [mcts]                          (lib/ai/mcts.ts)
    - [GameManager]                   (lib/game/game-manager.ts)

    Conventions.  JavaScript numbers that carry fractions (ratings, learned
    values, rewards, exploration rates, random draws) are modelled by exact
    rationals [Q]; counters (games, visits, streaks, sizes) by [Z].  Rounding of
    IEEE doubles is outside the model.  A JavaScript [Map] and a plain object
    used as a dictionary are insertion-ordered association lists with distinct
    keys; position keys are FEN prefixes and move keys are SAN strings, so no key
    is an array index.  [Math.random()] and [Date.now()] read from streams
    carried in a [World].  The rules library chess.js is an interface
    ([ChessOracle]). *)

From Stdlib Require Import List String Ascii ZArith QArith Qround Qminmax.
From Stdlib Require Import Lia Bool Sorted Permutation.
Import ListNotations.

Set Implicit Arguments.

(* ================================================================== *)
(** ** JavaScript prelude *)
(* ================================================================== *)

Module Js.

(** [a < b] and [a > b] on numbers. *)
Definition ltb (a b : Q) : bool := negb (Qle_bool b a).
Definition gtb (a b : Q) : bool := ltb b a.
Definition leb (a b : Q) : bool := Qle_bool a b.

(** [Math.floor], [Math.max], [Math.min], [Math.pow] with an integer exponent. *)
Definition Math_floor (x : Q) : Z := Qfloor x.
Definition Math_max (a b : Q) : Q := Qmax a b.
Definition Math_min (a b : Q) : Q := Qmin a b.
Definition Math_pow (x : Q) (n : Z) : Q := Qpower x n.

(** [x || d] for an integer-valued number: [0] is falsy. *)
Definition or_default (x d : Z) : Z := if (x =? 0)%Z then d else x.

(** [s.split(sep)] for a one-character separator. *)
Fixpoint split (sep : ascii) (s : string) : list string :=
  match s with
  | EmptyString => [EmptyString]
  | String c r =>
      if Ascii.eqb c sep then EmptyString :: split sep r
      else match split sep r with
           | [] => [String c EmptyString]
           | w :: ws => String c w :: ws
           end
  end.

(** [parts.join(sep)]. *)
Definition join (sep : string) (parts : list string) : string :=
  String.concat sep parts.

(** [parts.slice(0, n)]. *)
Definition slice0 {A} (n : nat) (parts : list A) : list A := firstn n parts.

(** [s.includes(c)] for a one-character needle. *)
Fixpoint includes (c : ascii) (s : string) : bool :=
  match s with
  | EmptyString => false
  | String d r => Ascii.eqb d c || includes c r
  end.

(** [arr.sort(cmp)]: the sort is stable, [cmp a b <= 0] keeps [a] before [b].
    Elements are inserted from the right, so an element that came first stays
    in front of the elements it ties with. *)
Fixpoint insert_sorted {A} (cmp : A -> A -> Z) (x : A) (l : list A) : list A :=
  match l with
  | [] => [x]
  | y :: r => if (cmp x y <=? 0)%Z then x :: y :: r
              else y :: insert_sorted cmp x r
  end.

Definition sort {A} (cmp : A -> A -> Z) (l : list A) : list A :=
  fold_right (insert_sorted cmp) [] l.

End Js.

(** An insertion-ordered dictionary with string keys: [Map<string, V>] and
    [Record<string, V>]. *)
Module JsMap.

Section Ops.
Context {V : Type}.

Definition t := list (string * V).

Fixpoint get (k : string) (m : list (string * V)) : option V :=
  match m with
  | [] => None
  | (k', v) :: r => if String.eqb k k' then Some v else get k r
  end.

Definition has (k : string) (m : list (string * V)) : bool :=
  match get k m with Some _ => true | None => false end.

(** [m.set(k, v)]: an existing key keeps its place, a new key goes last. *)
Fixpoint set (k : string) (v : V) (m : list (string * V)) : list (string * V) :=
  match m with
  | [] => [(k, v)]
  | (k', v') :: r =>
      if String.eqb k k' then (k', v) :: r else (k', v') :: set k v r
  end.

Fixpoint delete (k : string) (m : list (string * V)) : list (string * V) :=
  match m with
  | [] => []
  | (k', v') :: r =>
      if String.eqb k k' then r else (k', v') :: delete k r
  end.

Definition size (m : list (string * V)) : Z := Z.of_nat (List.length m).

Definition keys (m : list (string * V)) : list string := map fst m.

(** The representation invariant of a dictionary: keys are distinct. *)
Definition wf (m : list (string * V)) : Prop := NoDup (keys m).

End Ops.

End JsMap.

(* ================================================================== *)
(** ** Canonical position key *)
(* ================================================================== *)

(** The six space-separated fields of the FEN string returned by
    [chess.fen()]. *)
Record Fen := mkFen {
  placement : string;
  activeColor : string;
  castling : string;
  enPassant : string;
  halfmoveClock : string;
  fullmoveNumber : string
}.

Definition fen_string (f : Fen) : string :=
  Js.join " "%string [placement f; activeColor f; castling f; enPassant f;
               halfmoveClock f; fullmoveNumber f].

Definition no_space (s : string) : Prop := Js.includes " "%char s = false.

Definition fen_wf (f : Fen) : Prop :=
  no_space (placement f) /\ no_space (activeColor f) /\
  no_space (castling f) /\ no_space (enPassant f) /\
  no_space (halfmoveClock f) /\ no_space (fullmoveNumber f).

(** [simplifyFen] of the opening book. *)
Definition simplifyFen (fen : string) : string :=
  let parts := Js.split " "%char fen in
  Js.join " "%string (Js.slice0 4 parts).

(** [NeuralNetwork.hashPosition], applied to [chess.fen()]. *)
Definition hashPosition (fen : string) : string :=
  Js.join " "%string (Js.slice0 4 (Js.split " "%char fen)).


(* ================================================================== *)
(** ** The world: [Math.random()] and [Date.now()] *)
(* ================================================================== *)

Record World := mkWorld {
  randoms : nat -> Q;      (* the successive values of Math.random() *)
  randPos : nat;
  clock : nat -> Z;        (* the successive values of Date.now() *)
  clockPos : nat
}.

Definition Math_random (w : World) : Q * World :=
  (randoms w (randPos w),
   mkWorld (randoms w) (S (randPos w)) (clock w) (clockPos w)).

Definition Date_now (w : World) : Z * World :=
  (clock w (clockPos w),
   mkWorld (randoms w) (randPos w) (clock w) (S (clockPos w))).

(* ================================================================== *)
(** ** Value store: the Q-table of [NeuralNetwork] *)
(* ================================================================== *)

Record QTableEntry := mkEntry {
  value : Q;
  visits : Z
}.

(** [Map<string, Map<string, QTableEntry>>]: position key -> move -> entry. *)
Definition MoveTable := list (string * QTableEntry).
Definition QTable := list (string * MoveTable).

Definition MAX_POSITIONS : Z := 10000.
Definition INITIAL_EXPLORATION : Q := 0.3.
Definition MIN_EXPLORATION : Q := 0.05.
Definition EXPLORATION_DECAY : Q := 0.995.
Definition LEARNING_RATE : Q := 0.1.
Definition DISCOUNT_FACTOR : Q := 0.9.

Definition getQValue (qTable : QTable) (posHash move : string) : Q :=
  match JsMap.get posHash qTable with
  | None => 0
  | Some posEntry =>
      match JsMap.get move posEntry with
      | Some moveEntry => value moveEntry
      | None => 0
      end
  end.

(** The visit count stored for a position-move pair ([0] when absent), as
    [getMoveAnalysis] reads it. *)
Definition getVisits (qTable : QTable) (posHash move : string) : Z :=
  match JsMap.get posHash qTable with
  | None => 0
  | Some posEntry =>
      match JsMap.get move posEntry with
      | Some moveEntry => visits moveEntry
      | None => 0
      end
  end.

(** [moves.forEach(entry => totalVisits += entry.visits)]. *)
Definition totalVisits (moves : MoveTable) : Z :=
  fold_left (fun acc me => (acc + visits (snd me))%Z) moves 0%Z.

(** The [entries] array of [pruneQTable]: one [pos, totalVisits] pair per
    position, in table order. *)
Definition pruneEntries (qTable : QTable) : list (string * Z) :=
  map (fun pm => (fst pm, totalVisits (snd pm))) qTable.

Definition byVisits (a b : string * Z) : Z := (snd a - snd b)%Z.

Definition toRemove (entries : list (string * Z)) : nat :=
  Z.to_nat (Js.Math_floor (inject_Z (Z.of_nat (List.length entries)) * 0.2)).

Definition pruneQTable (qTable : QTable) : QTable :=
  let entries := Js.sort byVisits (pruneEntries qTable) in
  fold_left (fun t e => JsMap.delete (fst e) t)
            (firstn (toRemove entries) entries) qTable.

Definition setQValue (qTable : QTable) (posHash move : string) (v : Q)
  : QTable :=
  let qTable1 :=
    if JsMap.has posHash qTable then qTable
    else
      let pruned :=
        if (MAX_POSITIONS <=? JsMap.size qTable)%Z then pruneQTable qTable
        else qTable in
      JsMap.set posHash [] pruned in
  let posEntry :=
    match JsMap.get posHash qTable1 with Some e => e | None => [] end in
  let existing := JsMap.get move posEntry in
  let entry :=
    mkEntry v (match existing with
               | Some e => (visits e + 1)%Z
               | None => 1%Z
               end) in
  JsMap.set posHash (JsMap.set move entry posEntry) qTable1.


(** The keys [pruneQTable] deletes. *)
Definition removedKeys (qt : QTable) : list string :=
  let entries := Js.sort byVisits (pruneEntries qt) in
  map fst (firstn (toRemove entries) entries).

(** The table the new position is added to: pruned first when full. *)
Definition evictIfFull (qt : QTable) : QTable :=
  if (MAX_POSITIONS <=? JsMap.size qt)%Z then pruneQTable qt else qt.

(** Distinct keys at both levels. *)
Definition qTable_wf (qTable : QTable) : Prop :=
  JsMap.wf qTable /\ Forall (fun pm => JsMap.wf (snd pm)) qTable.

(** A run of value-store updates. *)
Definition Update := (string * string * Q)%type.



(* ================================================================== *)
(** ** The agent *)
(* ================================================================== *)

Inductive Color := white | black.
Inductive AIMode := q_learning | mcts_mode | hybrid.
Inductive GameResult := win | loss | draw.

Record HistoryEntry := mkHistory {
  positionHash : string;
  hmove : string;
  reward : Q
}.

Record NeuralNetwork := mkNN {
  elo : Q;
  gamesPlayed : Z;
  wins : Z;
  losses : Z;
  draws : Z;
  explorationRate : Q;
  currentStreak : Z;
  bestWinStreak : Z;
  bestLossStreak : Z;
  qTable : QTable;
  gameHistory : list HistoryEntry;
  color : Color;
  mode : AIMode;
  mctsSimulations : Z
}.

(** [new NeuralNetwork(color, initialElo)]. *)
Definition newNeuralNetwork (c : Color) (initialElo : Q) : NeuralNetwork :=
  mkNN initialElo 0 0 0 0 INITIAL_EXPLORATION 0 0 0 [] [] c hybrid 30.

Definition finalReward (result : GameResult) : Q :=
  match result with
  | win => 1.0
  | loss => - 1.0
  | draw => 0.1
  end.

(** The loop of [learn]: [i] runs from [gameHistory.length - 1] down to [0];
    [n] is [i + 1]. *)
Fixpoint learnLoop (history : list HistoryEntry) (n : nat)
         (cumulativeReward : Q) (qt : QTable) : QTable :=
  match n with
  | O => qt
  | S i =>
      match nth_error history i with
      | None => qt
      | Some h =>
          let oldQ := getQValue qt (positionHash h) (hmove h) in
          let newQ := oldQ + LEARNING_RATE * (cumulativeReward - oldQ) in
          let qt' := setQValue qt (positionHash h) (hmove h) newQ in
          learnLoop history i (reward h + DISCOUNT_FACTOR * cumulativeReward)
                    qt'
      end
  end.

Definition learn (result : GameResult) (nn : NeuralNetwork) : NeuralNetwork :=
  mkNN (elo nn) (gamesPlayed nn) (wins nn) (losses nn) (draws nn)
       (Js.Math_max MIN_EXPLORATION (explorationRate nn * EXPLORATION_DECAY))
       (currentStreak nn) (bestWinStreak nn) (bestLossStreak nn)
       (learnLoop (gameHistory nn) (List.length (gameHistory nn))
                  (finalReward result) (qTable nn))
       []
       (color nn) (mode nn) (mctsSimulations nn).

Definition updateStats (result : GameResult) (nn : NeuralNetwork) (w : World)
  : NeuralNetwork * World :=
  match result with
  | win =>
      let (r, w') := Math_random w in
      let streak :=
        if (0 <? currentStreak nn)%Z then (currentStreak nn + 1)%Z else 1%Z in
      (mkNN (elo nn + (15 + r * 5)) (gamesPlayed nn + 1) (wins nn + 1)
            (losses nn) (draws nn) (explorationRate nn)
            streak (Z.max (bestWinStreak nn) streak) (bestLossStreak nn)
            (qTable nn) (gameHistory nn) (color nn) (mode nn)
            (mctsSimulations nn), w')
  | loss =>
      let streak :=
        if (currentStreak nn <? 0)%Z then (currentStreak nn - 1)%Z
        else (-1)%Z in
      (mkNN (Js.Math_max 100 (elo nn - 10)) (gamesPlayed nn + 1) (wins nn)
            (losses nn + 1) (draws nn) (explorationRate nn)
            streak (bestWinStreak nn)
            (Z.max (bestLossStreak nn) (Z.abs streak))
            (qTable nn) (gameHistory nn) (color nn) (mode nn)
            (mctsSimulations nn), w)
  | draw =>
      (mkNN (elo nn + 2) (gamesPlayed nn + 1) (wins nn)
            (losses nn) (draws nn + 1) (explorationRate nn)
            0 (bestWinStreak nn) (bestLossStreak nn)
            (qTable nn) (gameHistory nn) (color nn) (mode nn)
            (mctsSimulations nn), w)
  end.

Record NetworkStats := mkStats {
  stats_elo : Z;
  stats_gamesPlayed : Z;
  stats_wins : Z;
  stats_losses : Z;
  stats_draws : Z;
  stats_positionsLearned : Z;
  stats_explorationRate : Q;
  stats_currentStreak : Z;
  stats_bestWinStreak : Z;
  stats_bestLossStreak : Z
}.

(** [Math.round(x)]: the nearest integer, halves upward. *)
Definition Math_round (x : Q) : Z := Qfloor (x + (1 # 2)).

Definition getStats (nn : NeuralNetwork) : NetworkStats :=
  mkStats (Js.Math_floor (elo nn)) (gamesPlayed nn) (wins nn) (losses nn)
          (draws nn) (JsMap.size (qTable nn))
          (inject_Z (Math_round (explorationRate nn * 100)))
          (currentStreak nn) (bestWinStreak nn) (bestLossStreak nn).

(** The snapshot handed to the persistence store. *)
Record AIState := mkAIState {
  st_elo : Q;
  st_gamesPlayed : Z;
  st_wins : Z;
  st_losses : Z;
  st_draws : Z;
  st_qTable : list (string * list (string * QTableEntry));
  st_currentStreak : Z;
  st_bestWinStreak : Z;
  st_bestLossStreak : Z
}.

(** The copy loops of [exportState] and [importState]: every key of the
    source dictionary is written, in iteration order, to a fresh one. *)
Definition copyMoves (moves : MoveTable) : MoveTable :=
  fold_left (fun acc me => JsMap.set (fst me) (snd me) acc) moves [].

Definition copyTable (t : QTable) : QTable :=
  fold_left (fun acc pm => JsMap.set (fst pm) (copyMoves (snd pm)) acc) t [].

Definition exportState (nn : NeuralNetwork) : AIState :=
  mkAIState (inject_Z (Js.Math_floor (elo nn))) (gamesPlayed nn) (wins nn)
            (losses nn) (draws nn) (copyTable (qTable nn))
            (currentStreak nn) (bestWinStreak nn) (bestLossStreak nn).

Definition importState (state : AIState) (nn : NeuralNetwork)
  : NeuralNetwork :=
  mkNN (st_elo state) (st_gamesPlayed state) (st_wins state)
       (st_losses state) (st_draws state)
       (Js.Math_max MIN_EXPLORATION
          (INITIAL_EXPLORATION
           * Js.Math_pow EXPLORATION_DECAY (st_gamesPlayed state)))
       (Js.or_default (st_currentStreak state) 0)
       (Js.or_default (st_bestWinStreak state) 0)
       (Js.or_default (st_bestLossStreak state) 0)
       (copyTable (st_qTable state))
       (gameHistory nn) (color nn) (mode nn) (mctsSimulations nn).

(** The learning step as the specification words it: the trace is walked
    backward; each recorded triple gets
    [newValue = oldValue + learningRate * (cumulativeReward - oldValue)]
    written to the value store, then
    [cumulativeReward = immediateReward + discountFactor * cumulativeReward]
    for the next (earlier) step. *)
Fixpoint backwardPropagation (learningRate discountFactor : Q)
         (traceBackward : list HistoryEntry) (cumulativeReward : Q)
         (store : QTable) : QTable :=
  match traceBackward with
  | [] => store
  | h :: earlier =>
      let oldValue := getQValue store (positionHash h) (hmove h) in
      let newValue :=
        oldValue + learningRate * (cumulativeReward - oldValue) in
      backwardPropagation learningRate discountFactor earlier
        (reward h + discountFactor * cumulativeReward)
        (setQValue store (positionHash h) (hmove h) newValue)
  end.

(** The terminal reward constants of the specification. *)
Definition terminalReward (result : GameResult) : Q :=
  match result with
  | win => 1.0
  | loss => - 1.0
  | draw => 0.1
  end.

(* ================================================================== *)
(** ** Opening book (lib/ai/openings.ts) *)
(* ================================================================== *)

Record BookMove := mkBookMove {
  book_move : string;
  weight : Z
}.

Definition bm (m : string) (w : Z) : BookMove := mkBookMove m w.

(** [OPENING_BOOK]: simplified FEN -> weighted candidate moves. *)
Definition OPENING_BOOK : list (string * list BookMove) :=
  [
   ("rnbqkbnr/pppppppp/8/8/8/8/PPPPPPPP/RNBQKBNR w KQkq -"%string,
    [bm "e4" 35; bm "d4" 35; bm "Nf3" 15; bm "c4" 15]);
   ("rnbqkbnr/pppppppp/8/8/4P3/8/PPPP1PPP/RNBQKBNR b KQkq -"%string,
    [bm "e5" 30; bm "c5" 30; bm "e6" 15; bm "c6" 15; bm "d5" 10]);
   ("rnbqkbnr/pp1ppppp/8/2p5/4P3/8/PPPP1PPP/RNBQKBNR w KQkq -"%string,
    [bm "Nf3" 60; bm "Nc3" 20; bm "c3" 20]);
   ("rnbqkbnr/pp1ppppp/8/2p5/4P3/5N2/PPPP1PPP/RNBQKB1R b KQkq -"%string,
    [bm "d6" 35; bm "Nc6" 35; bm "e6" 30]);
   ("rnbqkbnr/pp2pppp/3p4/2p5/4P3/5N2/PPPP1PPP/RNBQKB1R w KQkq -"%string,
    [bm "d4" 70; bm "Bb5+" 30]);
   ("rnbqkbnr/pppp1ppp/8/4p3/4P3/8/PPPP1PPP/RNBQKBNR w KQkq -"%string,
    [bm "Nf3" 70; bm "Nc3" 15; bm "Bc4" 15]);
   ("rnbqkbnr/pppp1ppp/8/4p3/4P3/5N2/PPPP1PPP/RNBQKB1R b KQkq -"%string,
    [bm "Nc6" 70; bm "Nf6" 20; bm "d6" 10]);
   ("r1bqkbnr/pppp1ppp/2n5/4p3/4P3/5N2/PPPP1PPP/RNBQKB1R w KQkq -"%string,
    [bm "Bc4" 40; bm "Bb5" 40; bm "d4" 20]);
   ("r1bqkbnr/pppp1ppp/2n5/4p3/2B1P3/5N2/PPPP1PPP/RNBQK2R b KQkq -"%string,
    [bm "Bc5" 50; bm "Nf6" 50]);
   ("r1bqk1nr/pppp1ppp/2n5/2b1p3/2B1P3/5N2/PPPP1PPP/RNBQK2R w KQkq -"%string,
    [bm "c3" 50; bm "O-O" 30; bm "d3" 20]);
   ("r1bqkbnr/pppp1ppp/2n5/1B2p3/4P3/5N2/PPPP1PPP/RNBQK2R b KQkq -"%string,
    [bm "a6" 60; bm "Nf6" 25; bm "Bc5" 15]);
   ("rnbqkbnr/pppp1ppp/4p3/8/4P3/8/PPPP1PPP/RNBQKBNR w KQkq -"%string,
    [bm "d4" 80; bm "Nf3" 20]);
   ("rnbqkbnr/pppp1ppp/4p3/8/3PP3/8/PPP2PPP/RNBQKBNR b KQkq -"%string,
    [bm "d5" 100]);
   ("rnbqkbnr/pp1ppppp/2p5/8/4P3/8/PPPP1PPP/RNBQKBNR w KQkq -"%string,
    [bm "d4" 70; bm "Nc3" 30]);
   ("rnbqkbnr/pppppppp/8/8/3P4/8/PPP1PPPP/RNBQKBNR b KQkq -"%string,
    [bm "d5" 35; bm "Nf6" 40; bm "e6" 15; bm "f5" 10]);
   ("rnbqkbnr/ppp1pppp/8/3p4/3P4/8/PPP1PPPP/RNBQKBNR w KQkq -"%string,
    [bm "c4" 70; bm "Nf3" 20; bm "Bf4" 10]);
   ("rnbqkbnr/ppp1pppp/8/3p4/2PP4/8/PP2PPPP/RNBQKBNR b KQkq -"%string,
    [bm "e6" 40; bm "c6" 35; bm "dxc4" 25]);
   ("rnbqkb1r/pppppppp/5n2/8/3P4/8/PPP1PPPP/RNBQKBNR w KQkq -"%string,
    [bm "c4" 50; bm "Nf3" 30; bm "Bf4" 20]);
   ("rnbqkb1r/pppppppp/5n2/8/2PP4/8/PP2PPPP/RNBQKBNR b KQkq -"%string,
    [bm "g6" 35; bm "e6" 35; bm "c5" 20; bm "d5" 10]);
   ("rnbqkb1r/pppppp1p/5np1/8/2PP4/8/PP2PPPP/RNBQKBNR w KQkq -"%string,
    [bm "Nc3" 60; bm "Nf3" 30; bm "g3" 10]);
   ("rnbqkb1r/pppp1ppp/4pn2/8/2PP4/8/PP2PPPP/RNBQKBNR w KQkq -"%string,
    [bm "Nc3" 50; bm "Nf3" 40; bm "g3" 10]);
   ("rnbqkbnr/pppppppp/8/8/2P5/8/PP1PPPPP/RNBQKBNR b KQkq -"%string,
    [bm "e5" 30; bm "Nf6" 30; bm "c5" 25; bm "e6" 15]);
   ("rnbqkbnr/pppppppp/8/8/8/5N2/PPPPPPPP/RNBQKB1R b KQkq -"%string,
    [bm "d5" 40; bm "Nf6" 35; bm "c5" 25])
  ].

(** [getBookMove]: weighted random selection among the book moves of the
    position; the fallback after the loop is the first move. *)
Fixpoint pickWeighted (bookMoves : list BookMove) (random : Q)
  : option string :=
  match bookMoves with
  | [] => None
  | b :: rest =>
      let random' := random - inject_Z (weight b) in
      if Js.leb random' 0 then Some (book_move b)
      else pickWeighted rest random'
  end.

Definition getBookMove (fen : string) (w : World) : option string * World :=
  let simplified := simplifyFen fen in
  match JsMap.get simplified OPENING_BOOK with
  | None => (None, w)
  | Some [] => (None, w)
  | Some (first :: others) =>
      let bookMoves := first :: others in
      let totalWeight :=
        fold_left (fun sum m => (sum + weight m)%Z) bookMoves 0%Z in
      let (r, w') := Math_random w in
      let random := r * inject_Z totalWeight in
      match pickWeighted bookMoves random with
      | Some m => (Some m, w')
      | None => (Some (book_move first), w')
      end
  end.

Definition isInBook (fen : string) : bool :=
  JsMap.has (simplifyFen fen) OPENING_BOOK.

(* ================================================================== *)
(** ** The rules oracle (chess.js) *)
(* ================================================================== *)

Inductive PieceSymbol := Pawn | Knight | Bishop | Rook | Queen | King.

(** A verbose move of [chess.moves({ verbose: true })]. *)
Record Move := mkMove {
  from : string;
  to : string;
  piece : PieceSymbol;
  captured : option PieceSymbol;
  promotion : option PieceSymbol;
  san : string
}.

Record Piece := mkPiece {
  piece_type : PieceSymbol;
  piece_color : Color
}.

(** What the engine asks of chess.js.  [chess_move] is [None] when
    [chess.move] throws. *)
Class ChessOracle (Chess : Type) := {
  chess_reset : Chess;                         (* new Chess(), chess.reset() *)
  chess_load : string -> Chess;                (* new Chess(fen) *)
  chess_fen : Chess -> string;
  chess_turn : Chess -> Color;
  chess_moves : Chess -> list Move;
  chess_move : Chess -> string -> option Chess;
  chess_isGameOver : Chess -> bool;
  chess_isCheckmate : Chess -> bool;
  chess_isDraw : Chess -> bool;
  chess_isStalemate : Chess -> bool;
  chess_isThreefoldRepetition : Chess -> bool;
  chess_isInsufficientMaterial : Chess -> bool;
  chess_board : Chess -> list (list (option Piece));
  chess_history : Chess -> list string;
  chess_pgn : Chess -> string
}.

(** [Math.sqrt] and [Math.log], and the rollout [simulate] of mcts.ts, which
    plays a position forward with chess.js and random draws and returns a
    score in [0, 1]; the search uses the rollout only through its result and
    the draws it consumes. *)
Class SearchOracle := {
  Math_sqrt : Q -> Q;
  Math_log : Q -> Q;
  simulate : string -> Color -> World -> Q * World
}.

(** The result of a call that may throw; [OutOfFuel] marks a loop of the
    model that was cut off. *)
Inductive Outcome (A : Type) : Type :=
| Ok (a : A)
| Throw
| OutOfFuel.

Arguments Ok {A} a.
Arguments Throw {A}.
Arguments OutOfFuel {A}.

Definition bind {A B} (o : Outcome A) (k : A -> Outcome B) : Outcome B :=
  match o with
  | Ok a => k a
  | Throw => Throw
  | OutOfFuel => OutOfFuel
  end.

Notation "x <- e ;; k" := (bind e (fun x => k))
  (at level 61, e at next level, right associativity).

(* ================================================================== *)
(** ** Tree search (lib/ai/mcts.ts) *)
(* ================================================================== *)

Module MCTS.

Definition EXPLORATION_CONSTANT : Q := 1.41.
Definition DEFAULT_SIMULATIONS : Z := 50.

(** A node of the search tree.  Nodes live in an arena (a list); [parent]
    and [children] hold arena indices, the root is index [0]. *)
Record MCTSNode := mkNode {
  move : option string;
  parent : option nat;
  children : list nat;
  visits : Z;
  wins : Q;
  untriedMoves : list string;
  fen : string
}.

Definition Tree := list MCTSNode.

(** A score that may be [Infinity] or [-Infinity]. *)
Inductive Score := NegInfinity | Finite (q : Q) | Infinity.

Definition score_gtb (a b : Score) : bool :=
  match a, b with
  | NegInfinity, _ => false
  | Finite _, NegInfinity => true
  | Finite x, Finite y => Js.gtb x y
  | Finite _, Infinity => false
  | Infinity, Infinity => false
  | Infinity, _ => true
  end.

(** [arr[i] = x]. *)
Fixpoint update {A} (i : nat) (x : A) (l : list A) : list A :=
  match l, i with
  | [], _ => []
  | _ :: r, O => x :: r
  | y :: r, S j => y :: update j x r
  end.

(** [arr.splice(i, 1)]. *)
Fixpoint removeAt {A} (i : nat) (l : list A) : list A :=
  match l, i with
  | [], _ => []
  | _ :: r, O => r
  | y :: r, S j => y :: removeAt j r
  end.

Section Search.
Context {Chess : Type} {CO : ChessOracle Chess} {SO : SearchOracle}.

Definition createNode (fen : string) (move : option string)
           (parent : option nat) : MCTSNode :=
  let chess := chess_load fen in
  let legalMoves := map san (chess_moves chess) in
  mkNode move parent [] 0 0 legalMoves fen.

Definition ucb1 (tree : Tree) (node : MCTSNode) (explorationConstant : Q)
  : Score :=
  if (visits node =? 0)%Z then Infinity
  else
    let exploitation := wins node / inject_Z (visits node) in
    let parentVisits :=
      match parent node with
      | None => 1%Z
      | Some p =>
          match nth_error tree p with
          | Some pn => Js.or_default (visits pn) 1
          | None => 1%Z
          end
      end in
    let exploration :=
      Math_sqrt (Math_log (inject_Z parentVisits) / inject_Z (visits node)) in
    Finite (exploitation + explorationConstant * exploration).

(** The loop of [selectChild] over [node.children.slice(1)]. *)
Fixpoint selectChildLoop (tree : Tree) (rest : list nat)
         (bestChild : nat) (bestUcb : Score) : Outcome nat :=
  match rest with
  | [] => Ok bestChild
  | child :: rest' =>
      match nth_error tree child with
      | None => Throw
      | Some c =>
          let childUcb := ucb1 tree c EXPLORATION_CONSTANT in
          if score_gtb childUcb bestUcb
          then selectChildLoop tree rest' child childUcb
          else selectChildLoop tree rest' bestChild bestUcb
      end
  end.

Definition selectChild (tree : Tree) (node : MCTSNode) : Outcome nat :=
  match children node with
  | [] => Throw
  | first :: rest =>
      match nth_error tree first with
      | None => Throw
      | Some c =>
          selectChildLoop tree rest first (ucb1 tree c EXPLORATION_CONSTANT)
      end
  end.

(** [expand]: returns the tree with the new child and the child's index. *)
Definition expand (tree : Tree) (i : nat) (w : World)
  : Outcome (Tree * nat * World) :=
  match nth_error tree i with
  | None => Throw
  | Some node =>
      match untriedMoves node with
      | [] => Throw
      | _ :: _ =>
          let (r, w1) := Math_random w in
          let moveIndex :=
            Z.to_nat (Js.Math_floor
                        (r * inject_Z (Z.of_nat
                                         (List.length (untriedMoves node))))) in
          match nth_error (untriedMoves node) moveIndex with
          | None => Throw
          | Some m =>
              let untried' := removeAt moveIndex (untriedMoves node) in
              match chess_move (chess_load (fen node)) m with
              | None => Throw
              | Some chess' =>
                  let child := createNode (chess_fen chess') (Some m) (Some i) in
                  let childIdx := List.length tree in
                  let node' :=
                    mkNode (move node) (parent node)
                           (children node ++ [childIdx])
                           (visits node) (wins node) untried' (fen node) in
                  Ok (update i node' tree ++ [child], childIdx, w1)
              end
          end
      end
  end.

(** The selection loop of one simulation:
    [while (node.untriedMoves.length === 0 && node.children.length > 0)]. *)
Fixpoint selection (fuel : nat) (tree : Tree) (i : nat) : Outcome nat :=
  match nth_error tree i with
  | None => Throw
  | Some node =>
      match untriedMoves node, children node with
      | [], _ :: _ =>
          match fuel with
          | O => OutOfFuel
          | S fuel' =>
              c <- selectChild tree node ;;
              selection fuel' tree c
          end
      | _, _ => Ok i
      end
  end.

Fixpoint backpropagate (fuel : nat) (tree : Tree) (node : option nat)
         (result : Q) : Outcome Tree :=
  match node with
  | None => Ok tree
  | Some i =>
      match fuel with
      | O => OutOfFuel
      | S fuel' =>
          match nth_error tree i with
          | None => Throw
          | Some n =>
              let n' :=
                mkNode (move n) (parent n) (children n)
                       (visits n + 1) (wins n + result)
                       (untriedMoves n) (fen n) in
              backpropagate fuel' (update i n' tree) (parent n) (1 - result)
          end
      end
  end.

(** One pass of the simulation loop of [mcts]. *)
Definition simulation (originalTurn : Color) (tree : Tree) (w : World)
  : Outcome (Tree * World) :=
  node <- selection (List.length tree) tree 0 ;;
  match nth_error tree node with
  | None => Throw
  | Some n =>
      sel <- (match untriedMoves n with
              | [] => Ok (tree, node, w)
              | _ :: _ => expand tree node w
              end) ;;
      let '(tree1, node1, w1) := sel in
      match nth_error tree1 node1 with
      | None => Throw
      | Some n1 =>
          let (result, w2) := simulate (fen n1) originalTurn w1 in
          tree2 <- backpropagate (S (List.length tree1)) tree1 (Some node1)
                                 result ;;
          Ok (tree2, w2)
      end
  end.

Fixpoint simulations (n : nat) (originalTurn : Color) (tree : Tree)
         (w : World) : Outcome (Tree * World) :=
  match n with
  | O => Ok (tree, w)
  | S n' =>
      tw <- simulation originalTurn tree w ;;
      simulations n' originalTurn (fst tw) (snd tw)
  end.

(** [if (qValueBias && child.move)]: a move string is truthy unless empty. *)
Definition truthy (m : option string) : option string :=
  match m with
  | Some EmptyString => None
  | other => other
  end.

(** The final loop over [root.children]: [bestChild] is [None] while it is
    [undefined]. *)
Fixpoint bestChildLoop (tree : Tree) (rest : list nat) (numSimulations : Z)
         (qValueBias : option (string -> Q))
         (bestChild : option MCTSNode) (bestScore : Score)
  : Outcome (option MCTSNode) :=
  match rest with
  | [] => Ok bestChild
  | child :: rest' =>
      match nth_error tree child with
      | None => Throw
      | Some c =>
          let score :=
            match qValueBias, truthy (move c) with
            | Some bias, Some m =>
                inject_Z (visits c) + bias m * inject_Z numSimulations * 0.1
            | _, _ => inject_Z (visits c)
            end in
          if score_gtb (Finite score) bestScore
          then bestChildLoop tree rest' numSimulations qValueBias
                             (Some c) (Finite score)
          else bestChildLoop tree rest' numSimulations qValueBias
                             bestChild bestScore
      end
  end.

Definition selectBest (tree : Tree) (numSimulations : Z)
           (qValueBias : option (string -> Q)) : Outcome (option string) :=
  match nth_error tree 0 with
  | None => Throw
  | Some root =>
      let first :=
        match children root with
        | [] => None
        | c :: _ => nth_error tree c
        end in
      best <- bestChildLoop tree (children root) numSimulations qValueBias
                            first NegInfinity ;;
      match best with
      | None => Throw            (* bestChild.move of undefined *)
      | Some c => Ok (move c)
      end
  end.

(** What [mcts] leaves behind: its result, the tree it built (empty when no
    tree was built) and the world after its random draws. *)
Record Run := mkRun {
  result : Outcome (option string);
  built : Tree;
  world : World
}.

Definition mcts (fen : string) (numSimulations : Z)
           (qValueBias : option (string -> Q)) (w : World) : Run :=
  let chess := chess_load fen in
  let originalTurn := chess_turn chess in
  let legalMoves := map san (chess_moves chess) in
  match legalMoves with
  | [] => mkRun (Ok None) [] w
  | [only] => mkRun (Ok (Some only)) [] w
  | _ :: _ :: _ =>
      let root := createNode fen None None in
      match simulations (Z.to_nat numSimulations) originalTurn [root] w with
      | Ok (tree, w') => mkRun (selectBest tree numSimulations qValueBias) tree w'
      | Throw => mkRun Throw [root] w
      | OutOfFuel => mkRun OutOfFuel [root] w
      end
  end.

(** What backpropagation leaves alone in a node. *)
Definition links (n : MCTSNode)
  : option string * option nat * list nat * list string * string :=
  (move n, parent n, children n, untriedMoves n, fen n).

(** Shape of a search tree in the arena: children come after their parent
    and exist, the parent comes before, only the root has no move. *)
Definition node_shape (tree : Tree) (i : nat) (n : MCTSNode) : Prop :=
  Forall (fun c => (i < c < List.length tree)%nat) (children n) /\
  match parent n with
  | None => i = 0%nat
  | Some p => (p < i)%nat
  end /\
  ((0 < i)%nat -> exists m, move n = Some m).

Definition tree_shape (tree : Tree) : Prop :=
  forall i n, nth_error tree i = Some n -> node_shape tree i n.

(** Every untried move of every node can be played at the node's position. *)
Definition untried_legal (tree : Tree) : Prop :=
  forall i n, nth_error tree i = Some n ->
    Forall (fun m => chess_move (chess_load (fen n)) m <> None)
           (untriedMoves n).

(** The root can still be expanded or already has a child. *)
Definition root_ready (tree : Tree) : Prop :=
  exists r, nth_error tree 0 = Some r /\
            (untriedMoves r <> [] \/ children r <> []).

Definition root_has_child (tree : Tree) : Prop :=
  exists r, nth_error tree 0 = Some r /\ children r <> [].

End Search.

End MCTS.

(** What the engine relies on from chess.js: a move listed by
    [chess.moves()] is accepted by [chess.move()], and every game ends
    (each accepted move brings the end closer). *)
Class RulesOk {Chess : Type} (CO : ChessOracle Chess) := {
  legal_moves_apply :
    forall c m, In m (chess_moves c) -> chess_move c (san m) <> None;
  gameLength : Chess -> nat;
  game_progress :
    forall c m c',
      chess_isGameOver c = false -> chess_move c m = Some c' ->
      (gameLength c' < gameLength c)%nat
}.

(** A rollout draws from [Math.random()] and does nothing else to the
    world. *)
Class SearchOk (SO : SearchOracle) := {
  simulate_randoms :
    forall f t w, randoms (snd (simulate f t w)) = randoms w
}.

(** [Math.random()] returns a number in [0, 1). *)
Definition World_ok (w : World) : Prop :=
  forall n, 0 <= randoms w n /\ randoms w n < 1.

(* ================================================================== *)
(** ** Decision policy of [NeuralNetwork] *)
(* ================================================================== *)

(** The capture table [{ p: 1, n: 3, b: 3, r: 5, q: 9 }]; a king is not in
    it and counts [0]. *)
Definition captureValue (p : PieceSymbol) : Q :=
  match p with
  | Pawn => 1
  | Knight => 3
  | Bishop => 3
  | Rook => 5
  | Queen => 9
  | King => 0
  end.

Definition evaluateMove (m : Move) : Q :=
  let score := 0 in
  let score :=
    match captured m with
    | Some c => score + captureValue c * 0.1
    | None => score
    end in
  let score :=
    match promotion m with
    | Some _ => score + 0.9
    | None => score
    end in
  let score := if Js.includes "+"%char (san m) then score + 0.1 else score in
  let score := if Js.includes "#"%char (san m) then score + 1.0 else score in
  score.

(** The probability gate in front of the opening book in [decideMove]:
    [Math.random() > this.explorationRate * 0.5]. *)
Definition bookGate (explorationRate random : Q) : bool :=
  Js.gtb random (explorationRate * 0.5).

(** [bookMove && moves.some(m => m.san === bookMove)]. *)
Definition legalBookMove (bookMove : option string) (moves : list Move)
  : option string :=
  match bookMove with
  | Some EmptyString => None
  | Some b => if existsb (fun m => String.eqb (san m) b) moves
              then Some b else None
  | None => None
  end.

Definition pushHistory (nn : NeuralNetwork) (h : HistoryEntry)
  : NeuralNetwork :=
  mkNN (elo nn) (gamesPlayed nn) (wins nn) (losses nn) (draws nn)
       (explorationRate nn) (currentStreak nn) (bestWinStreak nn)
       (bestLossStreak nn) (qTable nn) (gameHistory nn ++ [h])
       (color nn) (mode nn) (mctsSimulations nn).

(** The exploring loop of [decideMove]: [r -= weights[i]; if (r <= 0)]. *)
Fixpoint exploreLoop (moves : list Move) (r : Q) : option Move :=
  match moves with
  | [] => None
  | m :: rest =>
      let r' := r - (1 + evaluateMove m) in
      if Js.leb r' 0 then Some m else exploreLoop rest r'
  end.

(** The exploiting loop of [decideMove]; [bestValue] starts at
    [-Infinity]. *)
Fixpoint exploitLoop (qt : QTable) (posHash : string) (moves : list Move)
         (bestMove : Move) (bestValue : option Q) : Move :=
  match moves with
  | [] => bestMove
  | m :: rest =>
      let qValue := getQValue qt posHash (san m) + evaluateMove m in
      let better :=
        match bestValue with
        | None => true
        | Some b => Js.gtb qValue b
        end in
      if better then exploitLoop qt posHash rest m (Some qValue)
      else exploitLoop qt posHash rest bestMove bestValue
  end.

Definition setMode (m : AIMode) (nn : NeuralNetwork) : NeuralNetwork :=
  mkNN (elo nn) (gamesPlayed nn) (wins nn) (losses nn) (draws nn)
       (explorationRate nn) (currentStreak nn) (bestWinStreak nn)
       (bestLossStreak nn) (qTable nn) (gameHistory nn)
       (color nn) m (mctsSimulations nn).

Definition setMCTSSimulations (count : Z) (nn : NeuralNetwork)
  : NeuralNetwork :=
  mkNN (elo nn) (gamesPlayed nn) (wins nn) (losses nn) (draws nn)
       (explorationRate nn) (currentStreak nn) (bestWinStreak nn)
       (bestLossStreak nn) (qTable nn) (gameHistory nn)
       (color nn) (mode nn) (Z.max 10 (Z.min 200 count)).

Section Decide.
Context {Chess : Type} {CO : ChessOracle Chess} {SO : SearchOracle}.

(** The part of [decideMove] after the opening book: epsilon-greedy. *)
Definition epsilonGreedy (nn : NeuralNetwork) (moves : list Move)
           (first : Move) (posHash : string) (w : World)
  : option string * NeuralNetwork * World :=
  let exploit w' :=
    let bestMove := exploitLoop (qTable nn) posHash moves first None in
    (Some (san bestMove),
     pushHistory nn (mkHistory posHash (san bestMove) (evaluateMove bestMove)),
     w') in
  let (r1, w1) := Math_random w in
  if Js.ltb r1 (explorationRate nn) then
    let weights := map (fun m => 1 + evaluateMove m) moves in
    let totalWeight := fold_left Qplus weights 0 in
    let (r2, w2) := Math_random w1 in
    match exploreLoop moves (r2 * totalWeight) with
    | Some m =>
        (Some (san m),
         pushHistory nn (mkHistory posHash (san m) (evaluateMove m)), w2)
    | None => exploit w2
    end
  else exploit w1.

Definition decideMove (nn : NeuralNetwork) (chess : Chess) (w : World)
  : option string * NeuralNetwork * World :=
  match chess_moves chess with
  | [] => (None, nn, w)
  | first :: others =>
      let moves := first :: others in
      let fen := chess_fen chess in
      let posHash := hashPosition fen in
      if isInBook fen then
        let (r, w1) := Math_random w in
        if bookGate (explorationRate nn) r then
          let (bookMove, w2) := getBookMove fen w1 in
          match legalBookMove bookMove moves with
          | Some b => (Some b, nn, w2)
          | None => epsilonGreedy nn moves first posHash w2
          end
        else epsilonGreedy nn moves first posHash w1
      else epsilonGreedy nn moves first posHash w
  end.

(** The opening-book branch of [decideMove] on its own: the book move it
    returns and the world after its draws, or [None] when [decideMove] goes on
    to the epsilon-greedy choice. *)
Definition bookBranch (explorationRate : Q) (chess : Chess) (w : World)
  : option (string * World) :=
  match chess_moves chess with
  | [] => None
  | first :: others =>
      if isInBook (chess_fen chess) then
        let (r, w1) := Math_random w in
        if bookGate explorationRate r then
          let (bookMove, w2) := getBookMove (chess_fen chess) w1 in
          match legalBookMove bookMove (first :: others) with
          | Some b => Some (b, w2)
          | None => None
          end
        else None
      else None
  end.

Definition decideMoveWithMCTS (nn : NeuralNetwork) (chess : Chess) (w : World)
  : Outcome (option string * NeuralNetwork * World) :=
  match chess_moves chess with
  | [] => Ok (None, nn, w)
  | first :: others =>
      let moves := first :: others in
      let fen := chess_fen chess in
      let posHash := hashPosition fen in
      let search w0 :=
        let qBias :=
          match mode nn with
          | hybrid => Some (fun m => getQValue (qTable nn) posHash m)
          | _ => None
          end in
        let run := MCTS.mcts fen (mctsSimulations nn) qBias w0 in
        mctsMove <- MCTS.result run ;;
        match MCTS.truthy mctsMove with
        | Some m =>
            let reward :=
              match find (fun mo => String.eqb (san mo) m) moves with
              | Some moveObj => evaluateMove moveObj
              | None => 0
              end in
            Ok (Some m, pushHistory nn (mkHistory posHash m reward),
                MCTS.world run)
        | None => Ok (decideMove nn chess (MCTS.world run))
        end in
      if isInBook fen then
        let (bookMove, w1) := getBookMove fen w in
        match legalBookMove bookMove moves with
        | Some b => Ok (Some b, nn, w1)
        | None => search w1
        end
      else search w
  end.

Definition decideMoveAuto (nn : NeuralNetwork) (chess : Chess) (w : World)
  : Outcome (option string * NeuralNetwork * World) :=
  match mode nn with
  | mcts_mode | hybrid => decideMoveWithMCTS nn chess w
  | q_learning => Ok (decideMove nn chess w)
  end.

(** [evaluatePosition]: material balance for the evaluation bar. *)
Definition pieceValue (p : PieceSymbol) : Q :=
  match p with
  | Pawn => 1
  | Knight => 3
  | Bishop => 3
  | Rook => 5
  | Queen => 9
  | King => 0
  end.

Definition evaluatePosition (chess : Chess) : Q :=
  let score :=
    fold_left
      (fun score row =>
         fold_left
           (fun score square =>
              match square with
              | Some p =>
                  match piece_color p with
                  | white => score + pieceValue (piece_type p)
                  | black => score + - pieceValue (piece_type p)
                  end
              | None => score
              end) row score)
      (chess_board chess) 0 in
  Js.Math_max (- (1)) (Js.Math_min 1 (score / 30)).

End Decide.

(* ================================================================== *)
(** ** Move-quality tracking (lib/ai/blunder-detector.ts) *)
(* ================================================================== *)

Module BlunderDetector.

Inductive MoveQuality :=
| normal | good | excellent | brilliant | inaccuracy | mistake | blunder.

Record MoveEvaluation := mkMoveEvaluation {
  moveNumber : Z;
  move : string;
  evalBefore : Q;
  evalAfter : Q;
  evalChange : Q;
  quality : MoveQuality;
  player : Color
}.

Definition classifyMove (evalChange : Q) : MoveQuality :=
  if Js.leb evalChange (- 0.15) then blunder
  else if Js.leb evalChange (- 0.08) then mistake
  else if Js.leb evalChange (- 0.04) then inaccuracy
  else if Js.leb 0.10 evalChange then brilliant
  else if Js.leb 0.05 evalChange then excellent
  else if Js.leb 0.02 evalChange then good
  else normal.

Record t := mk {
  evalHistory : list Q;
  moveHistory : list MoveEvaluation;
  lastMoveNumber : Z
}.

Definition create : t := mk [] [] 0.

Definition evaluateMove (d : t) (m : string) (evalBefore evalAfter : Q)
           (didWhiteMove : bool) : MoveEvaluation * t :=
  let lastMoveNumber' := (lastMoveNumber d + 1)%Z in
  let evalChange := evalAfter - evalBefore in
  let evalChange := if didWhiteMove then evalChange else - evalChange in
  let moveEval :=
    mkMoveEvaluation lastMoveNumber' m evalBefore evalAfter evalChange
                     (classifyMove evalChange)
                     (if didWhiteMove then white else black) in
  (moveEval, mk (evalHistory d) (moveHistory d ++ [moveEval]) lastMoveNumber').

Definition reset (d : t) : t := mk [] [] 0.

End BlunderDetector.

(* ================================================================== *)
(** ** The orchestrator (lib/game/game-manager.ts) *)
(* ================================================================== *)

(** What a pending [setTimeout] will run: the next move cycle, or the restart
    that follows a finished game. *)
Inductive TimerTask := NextCycle | RestartGame.

Inductive AiStatus := status_idle | status_thinking | status_waiting.

Inductive Winner := winner_white | winner_black | winner_draw.

Record QuickTrainResult := mkQuickTrainResult {
  res_gamesPlayed : Q;
  res_whiteWins : Z;
  res_blackWins : Z;
  res_draws : Z;
  res_whiteStats : NetworkStats;
  res_blackStats : NetworkStats
}.

(** Events sent on the live channel and writes handed to the persistence
    store, in the order they happen.  Payloads keep the fields the engine
    computes itself. *)
Inductive Event :=
| ai_status (status : AiStatus) (turn : Color)
| game_state (fen : string) (moveTimesMs : list Z)
             (lastMoveEval : option BlunderDetector.MoveEvaluation)
| game_over (winner : Winner) (whiteStats blackStats : NetworkStats)
| training_status (running : bool)
| quick_train_started (games : Q)
| quick_train_progress (current : Z) (total : Q)
                       (whiteWins blackWins draws : Z)
| quick_train_complete (results : QuickTrainResult)
| benchmark_started
| benchmark_error (message : string)
| benchmark_complete
| saveDualAIState (whiteState blackState : AIState)
| saveGameToHistory (moves : list string) (moveTimesMs : list Z)
                    (result : Winner)
| saveLearningSnapshot (game positionsLearned : Z).

Section Manager.
Context {Chess : Type} {CO : ChessOracle Chess} {SO : SearchOracle}.

Record GameManager := mkGM {
  chess : Chess;
  whiteAI : NeuralNetwork;
  blackAI : NeuralNetwork;
  timer : option TimerTask;
  moveIntervalMs : Z;
  isRunning : bool;
  moveTimesMs : list Z;
  lastMoveTime : Z;
  stockfish : bool;                  (* an engine object exists *)
  isBenchmarking : bool;
  blunderDetector : BlunderDetector.t;
  lastEval : Q;
  lastMoveEval : option BlunderDetector.MoveEvaluation;
  opponentBot : option NeuralNetwork
}.

(** The process: the manager, the world it reads and what it has emitted. *)
Record Sys := mkSys {
  gm : GameManager;
  world : World;
  emitted : list Event
}.

Definition emit (e : Event) (s : Sys) : Sys :=
  mkSys (gm s) (world s) (emitted s ++ [e]).

Definition withGM (g : GameManager) (s : Sys) : Sys :=
  mkSys g (world s) (emitted s).

Definition withWorld (w : World) (s : Sys) : Sys :=
  mkSys (gm s) w (emitted s).

(** Field updates of [this]. *)
Definition set_chess (c : Chess) (g : GameManager) : GameManager :=
  mkGM c (whiteAI g) (blackAI g) (timer g) (moveIntervalMs g) (isRunning g)
       (moveTimesMs g) (lastMoveTime g) (stockfish g) (isBenchmarking g)
       (blunderDetector g) (lastEval g) (lastMoveEval g) (opponentBot g).

Definition set_whiteAI (a : NeuralNetwork) (g : GameManager) : GameManager :=
  mkGM (chess g) a (blackAI g) (timer g) (moveIntervalMs g) (isRunning g)
       (moveTimesMs g) (lastMoveTime g) (stockfish g) (isBenchmarking g)
       (blunderDetector g) (lastEval g) (lastMoveEval g) (opponentBot g).

Definition set_blackAI (a : NeuralNetwork) (g : GameManager) : GameManager :=
  mkGM (chess g) (whiteAI g) a (timer g) (moveIntervalMs g) (isRunning g)
       (moveTimesMs g) (lastMoveTime g) (stockfish g) (isBenchmarking g)
       (blunderDetector g) (lastEval g) (lastMoveEval g) (opponentBot g).

Definition set_timer (t : option TimerTask) (g : GameManager) : GameManager :=
  mkGM (chess g) (whiteAI g) (blackAI g) t (moveIntervalMs g) (isRunning g)
       (moveTimesMs g) (lastMoveTime g) (stockfish g) (isBenchmarking g)
       (blunderDetector g) (lastEval g) (lastMoveEval g) (opponentBot g).

Definition set_moveIntervalMs (ms : Z) (g : GameManager) : GameManager :=
  mkGM (chess g) (whiteAI g) (blackAI g) (timer g) ms (isRunning g)
       (moveTimesMs g) (lastMoveTime g) (stockfish g) (isBenchmarking g)
       (blunderDetector g) (lastEval g) (lastMoveEval g) (opponentBot g).

Definition set_isRunning (b : bool) (g : GameManager) : GameManager :=
  mkGM (chess g) (whiteAI g) (blackAI g) (timer g) (moveIntervalMs g) b
       (moveTimesMs g) (lastMoveTime g) (stockfish g) (isBenchmarking g)
       (blunderDetector g) (lastEval g) (lastMoveEval g) (opponentBot g).

Definition set_moveTimesMs (l : list Z) (g : GameManager) : GameManager :=
  mkGM (chess g) (whiteAI g) (blackAI g) (timer g) (moveIntervalMs g)
       (isRunning g) l (lastMoveTime g) (stockfish g) (isBenchmarking g)
       (blunderDetector g) (lastEval g) (lastMoveEval g) (opponentBot g).

Definition set_lastMoveTime (t : Z) (g : GameManager) : GameManager :=
  mkGM (chess g) (whiteAI g) (blackAI g) (timer g) (moveIntervalMs g)
       (isRunning g) (moveTimesMs g) t (stockfish g) (isBenchmarking g)
       (blunderDetector g) (lastEval g) (lastMoveEval g) (opponentBot g).

Definition set_stockfish (b : bool) (g : GameManager) : GameManager :=
  mkGM (chess g) (whiteAI g) (blackAI g) (timer g) (moveIntervalMs g)
       (isRunning g) (moveTimesMs g) (lastMoveTime g) b (isBenchmarking g)
       (blunderDetector g) (lastEval g) (lastMoveEval g) (opponentBot g).

Definition set_isBenchmarking (b : bool) (g : GameManager) : GameManager :=
  mkGM (chess g) (whiteAI g) (blackAI g) (timer g) (moveIntervalMs g)
       (isRunning g) (moveTimesMs g) (lastMoveTime g) (stockfish g) b
       (blunderDetector g) (lastEval g) (lastMoveEval g) (opponentBot g).

Definition set_blunderDetector (d : BlunderDetector.t) (g : GameManager)
  : GameManager :=
  mkGM (chess g) (whiteAI g) (blackAI g) (timer g) (moveIntervalMs g)
       (isRunning g) (moveTimesMs g) (lastMoveTime g) (stockfish g)
       (isBenchmarking g) d (lastEval g) (lastMoveEval g) (opponentBot g).

Definition set_lastEval (e : Q) (g : GameManager) : GameManager :=
  mkGM (chess g) (whiteAI g) (blackAI g) (timer g) (moveIntervalMs g)
       (isRunning g) (moveTimesMs g) (lastMoveTime g) (stockfish g)
       (isBenchmarking g) (blunderDetector g) e (lastMoveEval g)
       (opponentBot g).

Definition set_lastMoveEval (e : option BlunderDetector.MoveEvaluation)
           (g : GameManager) : GameManager :=
  mkGM (chess g) (whiteAI g) (blackAI g) (timer g) (moveIntervalMs g)
       (isRunning g) (moveTimesMs g) (lastMoveTime g) (stockfish g)
       (isBenchmarking g) (blunderDetector g) (lastEval g) e (opponentBot g).

Definition set_opponentBot (b : option NeuralNetwork) (g : GameManager)
  : GameManager :=
  mkGM (chess g) (whiteAI g) (blackAI g) (timer g) (moveIntervalMs g)
       (isRunning g) (moveTimesMs g) (lastMoveTime g) (stockfish g)
       (isBenchmarking g) (blunderDetector g) (lastEval g) (lastMoveEval g) b.

(** The constructor, without a saved state on disk. *)
Definition newGameManager : GameManager :=
  mkGM chess_reset (newNeuralNetwork white 800) (newNeuralNetwork black 800)
       None 800 false [] 0 false false BlunderDetector.create 0 None None.

Definition setSpeed (ms : Z) (g : GameManager) : GameManager :=
  set_moveIntervalMs (Z.max 50 (Z.min 2000 ms)) g.

Definition broadcastState (s : Sys) : Sys :=
  emit (game_state (chess_fen (chess (gm s))) (moveTimesMs (gm s))
                   (lastMoveEval (gm s))) s.

Definition pause (s : Sys) : Sys :=
  let g := set_isRunning false (gm s) in
  let g := match timer g with
           | Some _ => set_timer None g       (* clearTimeout(this.timer) *)
           | None => g
           end in
  emit (ai_status status_idle (chess_turn (chess g))) (withGM g s).

Definition stop (s : Sys) : Sys :=
  let s := pause s in
  let g := gm s in
  let g := set_chess chess_reset g in
  let g := set_moveTimesMs [] g in
  let g := set_blunderDetector (BlunderDetector.reset (blunderDetector g)) g in
  let g := set_lastMoveEval None g in
  broadcastState (withGM g s).

(** Which agent [getCurrentAI] returns. *)
Inductive Seat := seat_white | seat_opponent | seat_black.

Definition currentSeat (g : GameManager) : Seat :=
  match chess_turn (chess g) with
  | white => seat_white
  | black => match opponentBot g with
             | Some _ => seat_opponent
             | None => seat_black
             end
  end.

Definition getCurrentAI (g : GameManager) : NeuralNetwork :=
  match chess_turn (chess g) with
  | white => whiteAI g
  | black => match opponentBot g with
             | Some bot => bot
             | None => blackAI g
             end
  end.

(** A method call on the current agent mutates that agent in place. *)
Definition putCurrentAI (seat : Seat) (a : NeuralNetwork) (g : GameManager)
  : GameManager :=
  match seat with
  | seat_white => set_whiteAI a g
  | seat_opponent => set_opponentBot (Some a) g
  | seat_black => set_blackAI a g
  end.

Definition winnerOf (c : Chess) : Winner :=
  if chess_isCheckmate c then
    match chess_turn c with
    | white => winner_black
    | black => winner_white
    end
  else winner_draw.

(** [updateStats] then [learn] on each agent, the winner first. *)
Definition settle (winner : Winner) (g : GameManager) (w : World)
  : GameManager * World :=
  let finish (r : GameResult) (a : NeuralNetwork) (w0 : World) :=
    let (a1, w1) := updateStats r a w0 in (learn r a1, w1) in
  match winner with
  | winner_white =>
      let (wa, w1) := finish win (whiteAI g) w in
      let (ba, w2) := finish loss (blackAI g) w1 in
      (set_blackAI ba (set_whiteAI wa g), w2)
  | winner_black =>
      let (ba, w1) := finish win (blackAI g) w in
      let (wa, w2) := finish loss (whiteAI g) w1 in
      (set_whiteAI wa (set_blackAI ba g), w2)
  | winner_draw =>
      let (wa, w1) := finish draw (whiteAI g) w in
      let (ba, w2) := finish draw (blackAI g) w1 in
      (set_blackAI ba (set_whiteAI wa g), w2)
  end.

Definition handleGameOver (s : Sys) : Sys :=
  let winner := winnerOf (chess (gm s)) in
  let (g, w) := settle winner (gm s) (world s) in
  let s := mkSys g w (emitted s) in
  let s := emit (saveDualAIState (exportState (whiteAI g))
                                 (exportState (blackAI g))) s in
  let s := emit (saveGameToHistory (chess_history (chess g)) (moveTimesMs g)
                                   winner) s in
  let s := emit (saveLearningSnapshot
                   (stats_gamesPlayed (getStats (whiteAI g)))
                   (stats_positionsLearned (getStats (whiteAI g)))) s in
  emit (game_over winner (getStats (whiteAI g)) (getStats (blackAI g))) s.

(** [if (move)]: a move string is truthy unless empty. *)
Definition truthyMove (m : option string) : option string := MCTS.truthy m.

Definition gameLoop (s : Sys) : Outcome Sys :=
  if negb (isRunning (gm s)) then Ok s
  else if chess_isGameOver (chess (gm s)) then
    let s := handleGameOver s in
    let (now, w) := Date_now (world s) in
    let g := gm s in
    let g := set_moveTimesMs [] g in
    let g := set_lastMoveTime now g in
    let g := set_blunderDetector (BlunderDetector.reset (blunderDetector g)) g in
    let g := set_lastMoveEval None g in
    let g := set_timer (Some RestartGame) g in
    Ok (mkSys g w (emitted s))
  else
    let s := emit (ai_status status_thinking (chess_turn (chess (gm s)))) s in
    let (moveStartTime, w) := Date_now (world s) in
    let g := gm s in
    let seat := currentSeat g in
    let currentAI := getCurrentAI g in
    let isWhiteMoving :=
      match chess_turn (chess g) with white => true | black => false end in
    let evalBefore := evaluatePosition (chess g) in
    decided <- decideMoveAuto currentAI (chess g) w ;;
    let '(move, currentAI', w) := decided in
    let g := putCurrentAI seat currentAI' g in
    let '(g, w) :=
      match truthyMove move with
      | Some m =>
          let (now, w) := Date_now w in
          let thinkTime := (now - moveStartTime)%Z in
          let g := set_moveTimesMs (moveTimesMs g ++ [thinkTime]) g in
          match chess_move (chess g) m with
          | Some c' =>
              let g := set_chess c' g in
              let evalAfter := evaluatePosition (chess g) in
              let (moveEval, d) :=
                BlunderDetector.evaluateMove (blunderDetector g) m evalBefore
                                             evalAfter isWhiteMoving in
              let g := set_blunderDetector d g in
              let g := set_lastMoveEval (Some moveEval) g in
              (set_lastEval evalAfter g, w)
          | None =>
              let g := set_chess chess_reset g in
              let g := set_moveTimesMs [] g in
              (set_blunderDetector
                 (BlunderDetector.reset (blunderDetector g)) g, w)
          end
      | None => (g, w)
      end in
    let s := broadcastState (mkSys g w (emitted s)) in
    let s := emit (ai_status status_waiting (chess_turn (chess (gm s)))) s in
    Ok (withGM (set_timer (Some NextCycle) (gm s)) s).

Definition start (s : Sys) : Outcome Sys :=
  if isRunning (gm s) then Ok s
  else
    let s := withGM (set_isRunning true (gm s)) s in
    let s := emit (ai_status status_idle (chess_turn (chess (gm s)))) s in
    gameLoop s.

(** The callback of a timer that fires. *)
Definition timerFired (s : Sys) : Outcome Sys :=
  match timer (gm s) with
  | None => Ok s
  | Some NextCycle => gameLoop (withGM (set_timer None (gm s)) s)
  | Some RestartGame =>
      let s := withGM (set_chess chess_reset (set_timer None (gm s))) s in
      gameLoop (broadcastState s)
  end.

(** The inner loop of [quickTrain]: play the game on the board to its end.
    [fuel] bounds the number of moves the model follows. *)
Fixpoint playGame (fuel : nat) (g : GameManager) (w : World)
  : Outcome (GameManager * World) :=
  if chess_isGameOver (chess g) then Ok (g, w)
  else
    match fuel with
    | O => OutOfFuel
    | S fuel' =>
        let isWhite :=
          match chess_turn (chess g) with white => true | black => false end in
        let currentAI := if isWhite then whiteAI g else blackAI g in
        decided <- decideMoveAuto currentAI (chess g) w ;;
        let '(move, currentAI', w') := decided in
        let g := if isWhite then set_whiteAI currentAI' g
                 else set_blackAI currentAI' g in
        match truthyMove move with
        | Some m =>
            match chess_move (chess g) m with
            | Some c' => playGame fuel' (set_chess c' g) w'
            | None => Ok (g, w')
            end
        | None => Ok (g, w')
        end
    end.

Record Tally := mkTally {
  whiteWins : Z;
  blackWins : Z;
  drawCount : Z
}.

Definition tallyUp (winner : Winner) (t : Tally) : Tally :=
  match winner with
  | winner_white => mkTally (whiteWins t + 1) (blackWins t) (drawCount t)
  | winner_black => mkTally (whiteWins t) (blackWins t + 1) (drawCount t)
  | winner_draw => mkTally (whiteWins t) (blackWins t) (drawCount t + 1)
  end.

(** The body of the [for] loop of [quickTrain] for game number [game].
    [numGames] is the number the caller passed, whole or not. *)
Definition quickTrainGame (fuel : nat) (numGames : Q) (game : Z) (t : Tally)
           (s : Sys) : Outcome (Tally * Sys) :=
  let g := set_chess chess_reset (gm s) in
  played <- playGame fuel g (world s) ;;
  let (g, w) := (played : GameManager * World) in
  let winner := winnerOf (chess g) in
  let t := tallyUp winner t in
  let (g, w) := settle winner g w in
  let s := mkSys g w (emitted s) in
  let s := emit (saveGameToHistory (chess_history (chess g)) [] winner) s in
  let s :=
    if ((game + 1) mod 5 =? 0)%Z || Qeq_bool (inject_Z game) (numGames - 1)
    then emit (quick_train_progress (game + 1) numGames (whiteWins t)
                                    (blackWins t) (drawCount t)) s
    else s in
  Ok (t, s).

(** [for (let game = 0; game < numGames; game++)]: the next game has number
    [game], and the test [game < numGames] compares the whole counter with
    the number passed.  [passes] bounds the passes the model follows. *)
Fixpoint quickTrainLoop (fuel : nat) (numGames : Q) (passes : nat)
         (game : Z) (t : Tally) (s : Sys) : Outcome (Tally * Sys) :=
  if Js.ltb (inject_Z game) numGames then
    match passes with
    | O => OutOfFuel
    | S passes' =>
        ts <- quickTrainGame fuel numGames game t s ;;
        quickTrainLoop fuel numGames passes' (game + 1) (fst ts) (snd ts)
    end
  else Ok (t, s).

(** [quickTrain]; the loop needs no more passes than [numGames] rounded
    up. *)
Definition quickTrain (fuel : nat) (numGames : Q) (s : Sys)
  : Outcome (QuickTrainResult * Sys) :=
  let s := if isRunning (gm s) then pause s else s in
  ts <- quickTrainLoop fuel numGames (Z.to_nat (Qceiling numGames)) 0
                       (mkTally 0 0 0) s ;;
  let (t, s) := (ts : Tally * Sys) in
  let g := gm s in
  let s := emit (saveDualAIState (exportState (whiteAI g))
                                 (exportState (blackAI g))) s in
  let s := withGM (set_chess chess_reset (gm s)) s in
  Ok (mkQuickTrainResult numGames (whiteWins t) (blackWins t) (drawCount t)
                         (getStats (whiteAI (gm s)))
                         (getStats (blackAI (gm s))), s).

(** [Math.min(Math.max(1, numGames || 5), 50)].  The handler does not
    validate its argument: [numGames] is whatever number the client sent,
    whole or fractional, positive or not; [None] is a missing or [null]
    argument.  [numGames || 5] replaces a missing argument and zero by 5. *)
Definition clampGames (numGames : option Q) : Q :=
  let n := match numGames with
           | Some n => if Qeq_bool n 0 then 5 else n
           | None => 5
           end in
  Js.Math_min (Js.Math_max 1 n) 50.

(** The [quick_train] handler. *)
Definition on_quick_train (fuel : nat) (numGames : option Q) (s : Sys)
  : Outcome Sys :=
  let games := clampGames numGames in
  let s := emit (quick_train_started games) s in
  rs <- quickTrain fuel games s ;;
  let (results, s) := (rs : QuickTrainResult * Sys) in
  let s := emit (quick_train_complete results) s in
  Ok (broadcastState s).

Definition on_training_start (s : Sys) : Outcome Sys :=
  s' <- start s ;;
  Ok (emit (training_status (isRunning (gm s'))) s').

Definition on_training_pause (s : Sys) : Sys :=
  let s := pause s in emit (training_status (isRunning (gm s))) s.

Definition on_training_stop (s : Sys) : Sys :=
  let s := stop s in emit (training_status (isRunning (gm s))) s.

(** The guard and the first synchronous part of the [run_benchmark]
    handler, up to its first [await].  The handler then waits for the engine;
    until it resumes the process handles other inputs. *)
Definition on_run_benchmark (s : Sys) : Sys :=
  if isBenchmarking (gm s) then
    emit (benchmark_error "Benchmark already running") s
  else
    let s := withGM (set_isBenchmarking true (gm s)) s in
    let s := emit benchmark_started s in
    if negb (stockfish (gm s))
    then withGM (set_stockfish true (gm s)) s
    else s.

(** The resumption of the [run_benchmark] handler when the engine failed to
    initialise, and its end (result or exception): both leave through
    [finally { this.isBenchmarking = false }]. *)
Definition benchmarkInitFailed (s : Sys) : Sys :=
  let s := emit (benchmark_error "Failed to initialize Stockfish") s in
  withGM (set_isBenchmarking false (gm s)) s.

Definition benchmarkFinished (ok : bool) (s : Sys) : Sys :=
  let s := if ok then emit benchmark_complete s
           else emit (benchmark_error "Benchmark failed") s in
  withGM (set_isBenchmarking false (gm s)) s.

(** A move the benchmark asks of the white agent on its own board while the
    handler is running ([ai.decideMoveAuto(chess)] in [runBenchmarkGame]). *)
Definition benchmarkAgentMove (board : Chess) (s : Sys) : Outcome Sys :=
  decided <- decideMoveAuto (whiteAI (gm s)) board (world s) ;;
  let '(_, ai, w) := decided in
  Ok (mkSys (set_whiteAI ai (gm s)) w (emitted s)).

(** What the process reacts to: commands from the live channel, the timer,
    and the steps of a running benchmark. *)
Inductive Input :=
| training_start
| training_pause
| training_stop
| quick_train (numGames : option Q)
| run_benchmark
| set_speed (ms : Z)
| set_ai_mode (m : AIMode)
| timer_fires
| benchmark_init_failed
| benchmark_agent_move (board : Chess)
| benchmark_finished (ok : bool).

Definition step (fuel : nat) (s : Sys) (i : Input) : Outcome Sys :=
  match i with
  | training_start => on_training_start s
  | training_pause => Ok (on_training_pause s)
  | training_stop => Ok (on_training_stop s)
  | quick_train n => on_quick_train fuel n s
  | run_benchmark => Ok (on_run_benchmark s)
  | set_speed ms => Ok (withGM (setSpeed ms (gm s)) s)
  | set_ai_mode m =>
      Ok (withGM (set_blackAI (setMode m (blackAI (gm s)))
                              (set_whiteAI (setMode m (whiteAI (gm s)))
                                           (gm s))) s)
  | timer_fires => timerFired s
  | benchmark_init_failed =>
      if isBenchmarking (gm s) then Ok (benchmarkInitFailed s) else Ok s
  | benchmark_agent_move board =>
      if isBenchmarking (gm s) then benchmarkAgentMove board s else Ok s
  | benchmark_finished ok =>
      if isBenchmarking (gm s) then Ok (benchmarkFinished ok s) else Ok s
  end.

Fixpoint run (fuel : nat) (s : Sys) (inputs : list Input) : Outcome Sys :=
  match inputs with
  | [] => Ok s
  | i :: rest => s' <- step fuel s i ;; run fuel s' rest
  end.

Definition initialSys (w : World) : Sys := mkSys newGameManager w [].

(** [s'] continues [s]: same benchmark flag, and the log only grew. *)
Definition continues (s s' : Sys) : Prop :=
  isBenchmarking (gm s') = isBenchmarking (gm s) /\
  exists rest, emitted s' = emitted s ++ rest.

End Manager.

(* ================================================================== *)
(** ** A three-ply game, for concrete runs *)
(* ================================================================== *)

(** A small rules oracle on which the definitions can be evaluated.  A state
    is the list of moves played.  The first position is the usual starting
    position with four of its moves; any first move leads to a position where
    Black has two quiet moves; then White has a single move, which mates. *)
Module Toy.

Definition Chess := list string.

Definition quiet (s : string) : Move :=
  mkMove "a1" "a1" Pawn None None s.

Definition startFen : string :=
  "rnbqkbnr/pppppppp/8/8/8/8/PPPPPPPP/RNBQKBNR w KQkq - 0 1".
Definition fen1 : string := "toy/position1 b KQkq - 0 1".
Definition fen2 : string := "toy/position2 w KQkq - 1 2".
Definition fen3 : string := "toy/position3 b KQkq - 2 2".

Definition ply (c : Chess) : nat := List.length c.

Definition fen (c : Chess) : string :=
  match ply c with
  | 0%nat => startFen
  | 1%nat => fen1
  | 2%nat => fen2
  | _ => fen3
  end.

Definition load (f : string) : Chess :=
  if String.eqb f startFen then []
  else if String.eqb f fen1 then ["e4"%string]
  else if String.eqb f fen2 then ["e4"%string; "a6"%string]
  else ["e4"%string; "a6"%string; "Qh5#"%string].

Definition moves (c : Chess) : list Move :=
  match ply c with
  | 0%nat => [quiet "e4"; quiet "d4"; quiet "Nf3"; quiet "c4"]
  | 1%nat => [quiet "a6"; quiet "h6"]
  | 2%nat => [quiet "Qh5#"]
  | _ => []
  end.

Definition turn (c : Chess) : Color :=
  if Nat.even (ply c) then white else black.

Definition move (c : Chess) (m : string) : option Chess :=
  if existsb (fun mo => String.eqb (san mo) m) (moves c)
  then Some (c ++ [m]) else None.

Definition isGameOver (c : Chess) : bool := (3 <=? ply c)%nat.

(** The plies left before the game is over. *)
Definition pliesLeft (c : Chess) : nat := (3 - ply c)%nat.

#[global] Instance oracle : ChessOracle Chess := {
  chess_reset := [];
  chess_load := load;
  chess_fen := fen;
  chess_turn := turn;
  chess_moves := moves;
  chess_move := move;
  chess_isGameOver := isGameOver;
  chess_isCheckmate := isGameOver;
  chess_isDraw := fun _ => false;
  chess_isStalemate := fun _ => false;
  chess_isThreefoldRepetition := fun _ => false;
  chess_isInsufficientMaterial := fun _ => false;
  chess_board := fun _ => [];
  chess_history := fun c => c;
  chess_pgn := fun c => String.concat " " c
}.

(** A rollout that always reports an even game, and stand-ins for the two
    real-valued functions. *)
#[global] Instance search : SearchOracle := {
  Math_sqrt := fun x => x;
  Math_log := fun x => x - 1;
  simulate := fun _ _ w => (1 # 2, w)
}.

(** Every random draw is [0]; the clock stands still. *)
Definition world : World :=
  mkWorld (fun _ => 0) 0 (fun _ => 0%Z) 0.

(** The draws 0.1, 0.9, 0.2, then 0.5 for ever. *)
Definition world2 : World :=
  mkWorld (fun n => match n with
                    | 0%nat => 0.1
                    | 1%nat => 0.9
                    | 2%nat => 0.2
                    | _ => 0.5
                    end) 0 (fun _ => 0%Z) 0.

(** The draws 0.2, 0.1, then 0.5 for ever. *)
Definition world3 : World :=
  mkWorld (fun n => match n with
                    | 0%nat => 0.2
                    | 1%nat => 0.1
                    | _ => 0.5
                    end) 0 (fun _ => 0%Z) 0.

End Toy.

(* ================================================================== *)
(** ** Sample data *)
(* ================================================================== *)

(** The position after 1.Nf3 d5 2.Ng1 d4 3.e4, and the same placement after
    1.e3 d6 2.Nf3 d5 3.Ng1 d4 4.e4. *)
Definition fen_after_e4_ep : Fen :=
  mkFen "rnbqkbnr/ppp1pppp/8/8/3pP3/8/PPPP1PPP/RNBQKBNR" "b" "KQkq" "e3"
        "0" "3".
Definition fen_after_e4_no_ep : Fen :=
  mkFen "rnbqkbnr/ppp1pppp/8/8/3pP3/8/PPPP1PPP/RNBQKBNR" "b" "KQkq" "-"
        "0" "4".

(** The starting position, and the same position after the knights went out
    and came back eight times. *)
Definition fen_start_move1 : Fen :=
  mkFen "rnbqkbnr/pppppppp/8/8/8/8/PPPPPPPP/RNBQKBNR" "w" "KQkq" "-" "0" "1".
Definition fen_start_move9 : Fen :=
  mkFen "rnbqkbnr/pppppppp/8/8/8/8/PPPPPPPP/RNBQKBNR" "w" "KQkq" "-" "32" "9".

(** An agent after three games. *)
Definition sampleAgent : NeuralNetwork :=
  mkNN (8155 # 10) 3 2 1 0 (3 # 10) 2 2 1
       [("rnbqkbnr/pppppppp/8/8/8/8/PPPPPPPP/RNBQKBNR w KQkq -"%string,
         [("e4"%string, mkEntry (1 # 10) 2); ("d4"%string, mkEntry 0 1)])]
       [mkHistory "rnbqkbnr/pppppppp/8/8/8/8/PPPPPPPP/RNBQKBNR w KQkq -"
                  "e4" 0]
       white hybrid 30.

Definition sampleUpdates : list Update :=
  [("position a"%string, "e4"%string, 1 # 2);
   ("position b"%string, "d4"%string, 1 # 4);
   ("position a"%string, "e4"%string, 3 # 4)].

(** A fresh agent whose exploration rate has decayed to 0.1. *)
Definition sampleLowRateAgent : NeuralNetwork :=
  mkNN 800 0 0 0 0 0.1 0 0 0 [] [] white hybrid 30.

(** What choosing a move leaves alone in an agent. *)
Definition sameAgentStats (a b : NeuralNetwork) : Prop :=
  gamesPlayed b = gamesPlayed a /\ mctsSimulations b = mctsSimulations a.

(** The games a tally has counted. *)
Definition tallyTotal (t : Tally) : Z :=
  (whiteWins t + blackWins t + drawCount t)%Z.





From Stdlib Require Import Qpower Qabs Lqa.

(* ================================================================== *)
(** ** Agent invariants *)
(* ================================================================== *)

(** Every game played was counted as a win, a loss or a draw. *)
Definition tally_ok (nn : NeuralNetwork) : Prop :=
  gamesPlayed nn = (wins nn + losses nn + draws nn)%Z.

(** The running streak lies between the two records. *)
Definition streaks_ok (nn : NeuralNetwork) : Prop :=
  (0 <= bestWinStreak nn)%Z /\ (0 <= bestLossStreak nn)%Z /\
  (- bestLossStreak nn <= currentStreak nn <= bestWinStreak nn)%Z.

(** The score [decideMove] maximises when it exploits. *)
Definition exploitScore (qt : QTable) (posHash : string) (m : Move) : Q :=
  getQValue qt posHash (san m) + evaluateMove m.

(** [weights.reduce((a, b) => a + b, 0)] of the exploring branch. *)
Definition exploreTotalWeight (moves : list Move) : Q :=
  fold_left Qplus (map (fun m => 1 + evaluateMove m) moves) 0.

(** Two moves for the examples: a quiet pawn move and a capture with check. *)
Definition move_e4 : Move := mkMove "e2" "e4" Pawn None None "e4".
Definition move_Qxf7 : Move :=
  mkMove "h5" "f7" Queen (Some Pawn) None "Qxf7+".

(* ================================================================== *)
(** ** Search-tree invariants *)
(* ================================================================== *)

(** The root's untried moves and the moves carried by its children all come
    from [legal]. *)
Definition root_moves_in (legal : list string) (tree : MCTS.Tree) : Prop :=
  forall r, nth_error tree 0 = Some r ->
    incl (MCTS.untriedMoves r) legal /\
    forall c n, In c (MCTS.children r) -> nth_error tree c = Some n ->
                exists m, MCTS.move n = Some m /\ In m legal.

(** The visit count of the root ([0] for the empty arena). *)
Definition rootVisits (tree : MCTS.Tree) : Z :=
  match nth_error tree 0 with
  | Some r => MCTS.visits r
  | None => 0%Z
  end.

(** Every node's accumulated score lies between zero and its visit count. *)
Definition stats_in_range (tree : MCTS.Tree) : Prop :=
  Forall (fun n => (0 <= MCTS.visits n)%Z /\
                   0 <= MCTS.wins n /\
                   MCTS.wins n <= inject_Z (MCTS.visits n)) tree.

(** A rollout scores a position between 0 (lost) and 1 (won). *)
Definition simulate_in_range (SO : SearchOracle) : Prop :=
  forall f t w, 0 <= fst (simulate f t w) /\ fst (simulate f t w) <= 1.

(* ================================================================== *)
(** ** Orchestrator invariants *)
(* ================================================================== *)

Section ManagerProps.
Context {Chess : Type} {CO : ChessOracle Chess} {SO : SearchOracle}.

(** Training runs exactly when a move cycle (or a restart) is scheduled. *)
Definition scheduled_iff_running (s : @Sys Chess) : Prop :=
  isRunning (gm s) = true <-> timer (gm s) <> None.

(** More of what the engine relies on from chess.js: a position in which
    the game is not over has a legal move, a position rebuilt from its FEN
    has the same legal moves, and no move's notation is the empty string. *)
Class PlayOk : Prop := {
  unfinished_has_move :
    forall c : Chess, chess_isGameOver c = false -> chess_moves c <> [];
  fen_keeps_moves :
    forall c : Chess,
      map san (chess_moves (chess_load (chess_fen c))) =
        map san (chess_moves c);
  san_not_empty :
    forall (c : Chess) m, In m (chess_moves c) -> san m <> EmptyString
}.

(** [playedTo c c']: the board [c'] is reached from [c] by moves that were
    legal where they were played, none of them after the end of the game. *)
Inductive playedTo : Chess -> Chess -> Prop :=
| played_none (c : Chess) : playedTo c c
| played_move (c : Chess) (m : Move) (c' c'' : Chess) :
    chess_isGameOver c = false ->
    In m (chess_moves c) ->
    chess_move c (san m) = Some c' ->
    playedTo c' c'' ->
    playedTo c c''.

(** The games handed to the history store, oldest first: their moves and
    their result. *)
Definition savedGames (events : list Event) : list (list string * Winner) :=
  flat_map (fun e =>
              match e with
              | saveGameToHistory moves _ result => [(moves, result)]
              | _ => []
              end) events.

(** A stored game that was played from the initial position to the end of
    the game, and is stored with the moves and the result of its last
    board. *)
Definition completeGame (game : list string * Winner) : Prop :=
  exists c : Chess,
    playedTo chess_reset c /\ chess_isGameOver c = true /\
    game = (chess_history c, winnerOf c).

End ManagerProps.

(** The two agents' records mirror each other: one's wins are the other's
    losses, and they have drawn and played the same number of games. *)
Definition mirrored (a b : NeuralNetwork) : Prop :=
  wins a = losses b /\ losses a = wins b /\ draws a = draws b /\
  gamesPlayed a = gamesPlayed b.

(* ================================================================== *)
(** ** Move-quality queries (lib/ai/blunder-detector.ts) *)
(* ================================================================== *)

Module BlunderQueries.
Import BlunderDetector.

Definition recordEval (d : t) (evaluation : Q) : t :=
  mk (evalHistory d ++ [evaluation]) (moveHistory d) (lastMoveNumber d).

Definition getMoveHistory (d : t) : list MoveEvaluation := moveHistory d.

Definition getBlundersAndMistakes (d : t) : list MoveEvaluation :=
  filter (fun m => match quality m with
                   | blunder | mistake => true
                   | _ => false
                   end) (moveHistory d).

Definition getBrilliantMoves (d : t) : list MoveEvaluation :=
  filter (fun m => match quality m with
                   | brilliant | excellent => true
                   | _ => false
                   end) (moveHistory d).

Record Counts := mkCounts {
  totalMoves : Z;
  blunders : Z;
  mistakes : Z;
  inaccuracies : Z;
  goodMoves : Z;
  excellentMoves : Z;
  brilliantMoves : Z
}.

(** One pass of the [for] loop of [getStats]. *)
Definition count (counts : Counts) (m : MoveEvaluation) : Counts :=
  match quality m with
  | blunder =>
      mkCounts (totalMoves counts) (blunders counts + 1) (mistakes counts)
               (inaccuracies counts) (goodMoves counts)
               (excellentMoves counts) (brilliantMoves counts)
  | mistake =>
      mkCounts (totalMoves counts) (blunders counts) (mistakes counts + 1)
               (inaccuracies counts) (goodMoves counts)
               (excellentMoves counts) (brilliantMoves counts)
  | inaccuracy =>
      mkCounts (totalMoves counts) (blunders counts) (mistakes counts)
               (inaccuracies counts + 1) (goodMoves counts)
               (excellentMoves counts) (brilliantMoves counts)
  | good =>
      mkCounts (totalMoves counts) (blunders counts) (mistakes counts)
               (inaccuracies counts) (goodMoves counts + 1)
               (excellentMoves counts) (brilliantMoves counts)
  | excellent =>
      mkCounts (totalMoves counts) (blunders counts) (mistakes counts)
               (inaccuracies counts) (goodMoves counts)
               (excellentMoves counts + 1) (brilliantMoves counts)
  | brilliant =>
      mkCounts (totalMoves counts) (blunders counts) (mistakes counts)
               (inaccuracies counts) (goodMoves counts)
               (excellentMoves counts) (brilliantMoves counts + 1)
  | normal => counts
  end.

Definition getStats (d : t) : Counts :=
  fold_left count (moveHistory d)
            (mkCounts (Z.of_nat (List.length (moveHistory d))) 0 0 0 0 0 0).

(** The calls a game makes on its detector. *)
Inductive Call :=
| call_recordEval (evaluation : Q)
| call_evaluateMove (move : string) (evalBefore evalAfter : Q)
                    (didWhiteMove : bool)
| call_reset.

Definition call (d : t) (c : Call) : t :=
  match c with
  | call_recordEval e => recordEval d e
  | call_evaluateMove m b a w => snd (evaluateMove d m b a w)
  | call_reset => reset d
  end.

Definition calls (cs : list Call) : t := fold_left call cs create.

(** From worst to best. *)
Definition rank (q : MoveQuality) : Z :=
  match q with
  | blunder => 0
  | mistake => 1
  | inaccuracy => 2
  | normal => 3
  | good => 4
  | excellent => 5
  | brilliant => 6
  end.

End BlunderQueries.

(* ================================================================== *)
(** ** Engine strength scale (lib/ai/stockfish.ts) *)
(* ================================================================== *)

Module StockfishEngine.

(** The level [setSkillLevel] stores. *)
Definition setSkillLevel (level : Z) : Z := Z.max 0 (Z.min 20 level).

Definition skillLevelToElo (level : Q) : Q := 800 + level * 120.

Definition eloToSkillLevel (elo : Q) : Z :=
  let level := Math_round ((elo - 800) / 120) in
  Z.max 0 (Z.min 20 level).

End StockfishEngine.

(* ================================================================== *)
(** ** Benchmark bookkeeping (lib/game/benchmark-manager.ts) *)
(* ================================================================== *)

Module Benchmark.

Inductive Result := ai_win | stockfish_win | draw_game.

Record BenchmarkResult := mkResult {
  id : Z;
  timestamp : string;
  aiColor : Color;
  aiElo : Z;
  stockfishLevel : Z;
  stockfishElo : Q;
  result : Result;
  reason : string;
  moves : Z;
  estimatedElo : Z
}.

Record BenchmarkStats := mkBenchmarkStats {
  totalGames : Z;
  aiWins : Z;
  stockfishWins : Z;
  draws : Z;
  stats_estimatedElo : Z;
  lastBenchmark : option string
}.

(** [arr.slice(-n)]: the last [n] elements. *)
Definition sliceLast {A} (n : nat) (l : list A) : list A :=
  skipn (List.length l - n) l.

Definition isResult (r : Result) (b : BenchmarkResult) : bool :=
  match r, result b with
  | ai_win, ai_win => true
  | stockfish_win, stockfish_win => true
  | draw_game, draw_game => true
  | _, _ => false
  end.

(** [getBenchmarkStats], reading the module's [benchmarkHistory]. *)
Definition getBenchmarkStats (benchmarkHistory : list BenchmarkResult)
  : BenchmarkStats :=
  let aiWins :=
    Z.of_nat (List.length (filter (isResult ai_win) benchmarkHistory)) in
  let stockfishWins :=
    Z.of_nat (List.length (filter (isResult stockfish_win)
                                  benchmarkHistory)) in
  let draws :=
    Z.of_nat (List.length (filter (isResult draw_game) benchmarkHistory)) in
  let estimatedElo :=
    match benchmarkHistory with
    | [] => 800%Z
    | _ :: _ =>
        let recentResults := sliceLast 10 benchmarkHistory in
        Math_round
          (fold_left (fun sum r => sum + inject_Z (estimatedElo r))
                     recentResults 0
           / inject_Z (Z.of_nat (List.length recentResults)))
    end in
  mkBenchmarkStats (Z.of_nat (List.length benchmarkHistory))
                   aiWins stockfishWins draws estimatedElo
                   (last (map (fun r => Some (timestamp r)) benchmarkHistory)
                         None).

(** The estimate [runBenchmarkGame] computes once the game has ended, before
    rounding: [estimatedElo] starts at the agent's displayed rating. *)
Definition estimateElo (r : Result) (aiElo : Z) (stockfishElo : Q) : Q :=
  let estimatedElo := inject_Z aiElo in
  match r with
  | ai_win => Js.Math_max estimatedElo (stockfishElo + 50)
  | stockfish_win => Js.Math_min estimatedElo (stockfishElo - 50)
  | draw_game => (estimatedElo + stockfishElo) / 2
  end.

(** The three levels [runQuickBenchmark] plays, and the colour the agent
    has in each game ([i % 2 === 0] plays white). *)
Definition quickBenchmarkLevels (aiElo : Z) : list (Z * bool) :=
  let startLevel := StockfishEngine.eloToSkillLevel (inject_Z aiElo) in
  [(Z.max 0 (startLevel - 2), true);
   (startLevel, false);
   (Z.min 20 (startLevel + 2), true)].

End Benchmark.

(* ================================================================== *)
(** ** Stored game history (lib/persistence.ts) *)
(* ================================================================== *)

Module Persistence.

Definition MAX_GAMES_STORED : nat := 50.
Definition MAX_SNAPSHOTS_STORED : nat := 100.

Record GameRecord := mkGameRecord {
  id : Z;
  timestamp : string;
  pgn : string;
  moves : list string;
  moveTimesMs : list Z;
  result : Winner;
  reason : string;
  whiteElo : Z;
  blackElo : Z
}.

(** [loadGameHistory]: the parsed file, or the empty list when the file is
    missing or cannot be read. *)
Definition loadGameHistory (file : option (list GameRecord))
  : list GameRecord :=
  match file with
  | Some history => history
  | None => []
  end.

(** [Math.max(...ids)] of a non-empty array. *)
Definition maxId (first : Z) (rest : list Z) : Z := fold_left Z.max rest first.

(** [saveGameToHistory]: the content handed to [writeFileSync].  [game]
    holds the fields the caller passes; its [id] and [timestamp] are
    replaced. *)
Definition saveGameToHistory (file : option (list GameRecord))
           (game : GameRecord) (now : string) : list GameRecord :=
  let history := loadGameHistory file in
  let newId :=
    match map id history with
    | [] => 1%Z
    | first :: rest => (maxId first rest + 1)%Z
    end in
  let newGame :=
    mkGameRecord newId now (pgn game) (moves game) (moveTimesMs game)
                 (result game) (reason game) (whiteElo game)
                 (blackElo game) in
  Benchmark.sliceLast MAX_GAMES_STORED (history ++ [newGame]).

End Persistence.

(* ================================================================== *)
(** * Properties *)
(* ================================================================== *)

Unset Implicit Arguments.

Lemma split_no_space (s : string) :
  no_space s -> Js.split " "%char s = [s].
Proof.
  unfold no_space. induction s as [|c r IH]; simpl; intros H; [reflexivity|].
  apply orb_false_iff in H. destruct H as [Hc Hr].
  rewrite Hc, (IH Hr). reflexivity.
Qed.

Lemma split_field (a r : string) :
  no_space a ->
  Js.split " "%char (a ++ String " "%char r) = a :: Js.split " "%char r.
Proof.
  unfold no_space. induction a as [|c a IH]; simpl; intros H; [reflexivity|].
  apply orb_false_iff in H. destruct H as [Hc Ha].
  rewrite Hc, (IH Ha). reflexivity.
Qed.

Lemma split_fen_string (f : Fen) :
  fen_wf f ->
  Js.split " "%char (fen_string f) =
  [placement f; activeColor f; castling f; enPassant f;
   halfmoveClock f; fullmoveNumber f].
Proof.
  intros (H1 & H2 & H3 & H4 & H5 & H6).
  unfold fen_string, Js.join. simpl.
  rewrite !split_field by assumption.
  rewrite split_no_space by assumption. reflexivity.
Qed.

Lemma hashPosition_fields (f : Fen) :
  fen_wf f ->
  hashPosition (fen_string f) =
  Js.join " "%string [placement f; activeColor f; castling f; enPassant f].
Proof.
  intros H. unfold hashPosition. rewrite (split_fen_string f H). reflexivity.
Qed.

(** C3 as stated fails: two positions with the same piece placement, side to
    move and castling rights, one reached by 1.Nf3 d5 2.Ng1 d4 3.e4 (the pawn
    can be taken en passant) and one by 1.e3 d6 2.Nf3 d5 3.Ng1 d4 4.e4 (it
    cannot), get different keys. *)
Lemma c3_counterexample :
  ~ (forall f g : Fen,
       fen_wf f -> fen_wf g ->
       placement f = placement g ->
       activeColor f = activeColor g ->
       castling f = castling g ->
       hashPosition (fen_string f) = hashPosition (fen_string g)).
Proof.
  intros H.
  specialize (H fen_after_e4_ep fen_after_e4_no_ep).
  assert (E : hashPosition (fen_string fen_after_e4_ep) =
              hashPosition (fen_string fen_after_e4_no_ep)).
  { apply H; try reflexivity; repeat split; reflexivity. }
  vm_compute in E. discriminate.
Qed.

(** C3, amended.  The canonical key is the first four fields of the FEN
    string: piece placement, side to move, castling rights and the en-passant
    target; the halfmove clock and the fullmove number are dropped.  Two states
    that agree on these four fields get the same key whatever their counters,
    and the opening book simplifies a FEN string the same way. *)
Theorem c3_position_key_is_first_four_fields :
  forall f g : Fen,
    fen_wf f -> fen_wf g ->
    hashPosition (fen_string f) =
      Js.join " "%string
              [placement f; activeColor f; castling f; enPassant f] /\
    simplifyFen (fen_string f) = hashPosition (fen_string f) /\
    (placement f = placement g ->
     activeColor f = activeColor g ->
     castling f = castling g ->
     enPassant f = enPassant g ->
     hashPosition (fen_string f) = hashPosition (fen_string g)).
Proof.
  intros f g Hf Hg. split; [now apply hashPosition_fields|].
  split; [reflexivity|].
  intros E1 E2 E3 E4.
  rewrite (hashPosition_fields f Hf), (hashPosition_fields g Hg).
  now rewrite E1, E2, E3, E4.
Qed.

Lemma c3_position_key_is_first_four_fields_witness :
  fen_wf fen_start_move1 /\ fen_wf fen_start_move9 /\
  hashPosition (fen_string fen_start_move1) =
    "rnbqkbnr/pppppppp/8/8/8/8/PPPPPPPP/RNBQKBNR w KQkq -"%string /\
  hashPosition (fen_string fen_start_move1) =
    hashPosition (fen_string fen_start_move9).
Proof.
  assert (H1 : fen_wf fen_start_move1) by (repeat split; reflexivity).
  assert (H9 : fen_wf fen_start_move9) by (repeat split; reflexivity).
  destruct (c3_position_key_is_first_four_fields
              fen_start_move1 fen_start_move9 H1 H9) as (K & _ & Same).
  split; [exact H1|]. split; [exact H9|]. split; [exact K|].
  apply Same; reflexivity.
Defined.

(* ================================================================== *)
(** ** Facts about dictionaries *)
(* ================================================================== *)

Section JsMapFacts.
Context {V : Type}.
Implicit Types (m : list (string * V)) (k : string) (v : V).

Lemma get_In_keys m k v : JsMap.get k m = Some v -> In k (JsMap.keys m).
Proof.
  induction m as [|[k' v'] r IH]; simpl; [discriminate|].
  destruct (String.eqb_spec k k') as [->|Hne]; intros H; auto.
Qed.

Lemma get_None_keys m k : JsMap.get k m = None <-> ~ In k (JsMap.keys m).
Proof.
  induction m as [|[k' v'] r IH]; simpl; [tauto|].
  destruct (String.eqb_spec k k') as [->|Hne].
  - split; [discriminate|]. intros H. exfalso. apply H. now left.
  - rewrite IH. split; intros H; [intros [E|I]; [congruence|tauto]|tauto].
Qed.

Lemma has_true_keys m k : JsMap.has k m = true <-> In k (JsMap.keys m).
Proof.
  unfold JsMap.has. destruct (JsMap.get k m) eqn:E.
  - split; [intros _; eapply get_In_keys; eauto | reflexivity].
  - apply get_None_keys in E. split; [discriminate | tauto].
Qed.

Lemma has_false_keys m k : JsMap.has k m = false <-> ~ In k (JsMap.keys m).
Proof.
  rewrite <- has_true_keys. destruct (JsMap.has k m); split; intuition congruence.
Qed.

Lemma get_set_same m k v : JsMap.get k (JsMap.set k v m) = Some v.
Proof.
  induction m as [|[k' v'] r IH]; simpl.
  - now rewrite String.eqb_refl.
  - destruct (String.eqb_spec k k') as [->|Hne]; simpl.
    + now rewrite String.eqb_refl.
    + destruct (String.eqb_spec k k'); [contradiction|exact IH].
Qed.

Lemma get_set_other m k k' v :
  k <> k' -> JsMap.get k' (JsMap.set k v m) = JsMap.get k' m.
Proof.
  intros Hne. induction m as [|[k0 v0] r IH]; simpl.
  - destruct (String.eqb_spec k' k); [congruence|reflexivity].
  - destruct (String.eqb_spec k k0) as [->|Hk]; simpl.
    + destruct (String.eqb_spec k' k0); [congruence|reflexivity].
    + destruct (String.eqb_spec k' k0); [reflexivity|exact IH].
Qed.

Lemma set_present m k v :
  In k (JsMap.keys m) -> JsMap.keys (JsMap.set k v m) = JsMap.keys m.
Proof.
  induction m as [|[k' v'] r IH]; simpl; [tauto|].
  destruct (String.eqb_spec k k') as [->|Hne]; simpl; [reflexivity|].
  intros [E|I]; [congruence|]. now rewrite IH.
Qed.

Lemma set_absent m k v :
  ~ In k (JsMap.keys m) -> JsMap.set k v m = m ++ [(k, v)].
Proof.
  induction m as [|[k' v'] r IH]; simpl; [reflexivity|].
  destruct (String.eqb_spec k k') as [->|Hne]; intros H; [tauto|].
  rewrite IH; tauto.
Qed.

Lemma set_wf m k v : JsMap.wf m -> JsMap.wf (JsMap.set k v m).
Proof.
  unfold JsMap.wf. intros H.
  destruct (in_dec string_dec k (JsMap.keys m)) as [I|N].
  - now rewrite set_present.
  - rewrite set_absent by assumption. unfold JsMap.keys.
    rewrite map_app. simpl.
    apply NoDup_app; [exact H | repeat constructor; simpl; tauto | ].
    intros x Hx [<-|[]]. exact (N Hx).
Qed.

Lemma set_In m k v (P : V -> Prop) :
  P v -> Forall (fun kv => P (snd kv)) m ->
  Forall (fun kv => P (snd kv)) (JsMap.set k v m).
Proof.
  intros Hv. induction 1 as [|[k' v'] r Hx Hr IH]; simpl.
  - repeat constructor. exact Hv.
  - destruct (String.eqb k k'); constructor; auto.
Qed.

Lemma delete_absent m k : ~ In k (JsMap.keys m) -> JsMap.delete k m = m.
Proof.
  induction m as [|[k' v'] r IH]; simpl; [reflexivity|].
  destruct (String.eqb_spec k k') as [->|Hne]; intros H; [tauto|].
  rewrite IH; tauto.
Qed.

Lemma delete_filter m k :
  JsMap.wf m ->
  JsMap.delete k m = filter (fun kv => negb (String.eqb k (fst kv))) m.
Proof.
  unfold JsMap.wf.
  induction m as [|[k' v'] r IH]; simpl; intros H; [reflexivity|].
  inversion H as [|? ? Hn Hr]; subst.
  destruct (String.eqb_spec k k') as [->|Hne]; simpl.
  - rewrite <- IH by assumption. symmetry. now apply delete_absent.
  - now rewrite IH.
Qed.

Lemma filter_keys_wf m (f : string * V -> bool) :
  JsMap.wf m -> JsMap.wf (filter f m).
Proof.
  unfold JsMap.wf, JsMap.keys.
  induction m as [|kv r IH]; simpl; intros H; [constructor|].
  inversion H as [|? ? Hn Hr]; subst.
  destruct (f kv); simpl; [constructor|]; auto.
  intros I. apply Hn. apply in_map_iff in I. destruct I as (x & E & Ix).
  apply in_map_iff. exists x. split; [exact E|].
  apply filter_In in Ix. tauto.
Qed.

(** Deleting a list of keys keeps exactly the entries whose key is not
    listed. *)
Lemma delete_all_filter (ks : list string) m :
  JsMap.wf m ->
  fold_left (fun t k => JsMap.delete k t) ks m =
  filter (fun kv => negb (existsb (String.eqb (fst kv)) ks)) m.
Proof.
  revert m. induction ks as [|k ks IH]; intros m H; simpl.
  - induction m as [|kv r IHm]; simpl; [reflexivity|].
    f_equal. apply IHm. now inversion H.
  - rewrite IH by (rewrite delete_filter by assumption;
                   now apply filter_keys_wf).
    rewrite delete_filter by assumption.
    clear. induction m as [|kv r IHm]; simpl; [reflexivity|].
    rewrite (String.eqb_sym (fst kv) k).
    destruct (String.eqb k (fst kv)); simpl; [exact IHm|].
    destruct (existsb _ ks); simpl; [exact IHm|now f_equal].
Qed.

End JsMapFacts.

(* ================================================================== *)
(** ** Value store: bound and eviction order *)
(* ================================================================== *)

Lemma insert_sorted_perm {A} (cmp : A -> A -> Z) x l :
  Permutation (Js.insert_sorted cmp x l) (x :: l).
Proof.
  induction l as [|y r IH]; simpl; [reflexivity|].
  destruct (cmp x y <=? 0)%Z; [reflexivity|].
  rewrite IH. apply perm_swap.
Qed.

Lemma sort_perm {A} (cmp : A -> A -> Z) l : Permutation (Js.sort cmp l) l.
Proof.
  induction l as [|x r IH]; simpl; [constructor|].
  rewrite insert_sorted_perm. now constructor.
Qed.




Lemma firstn_In {A} (n : nat) (l : list A) x : In x (firstn n l) -> In x l.
Proof.
  intros H. rewrite <- (firstn_skipn n l). apply in_or_app. now left.
Qed.

Lemma skipn_In {A} (n : nat) (l : list A) x : In x (skipn n l) -> In x l.
Proof.
  intros H. rewrite <- (firstn_skipn n l). apply in_or_app. now right.
Qed.

Lemma floor_fifth (n : Z) : Js.Math_floor (inject_Z n * 0.2) = (n / 5)%Z.
Proof.
  unfold Js.Math_floor, Qfloor, Qmult, inject_Z. simpl.
  change 10%Z with (5 * 2)%Z.
  apply Z.div_mul_cancel_r; lia.
Qed.

Lemma pruneEntries_keys (qt : QTable) :
  map fst (pruneEntries qt) = JsMap.keys qt.
Proof. unfold pruneEntries, JsMap.keys. rewrite map_map. reflexivity. Qed.

Lemma pruneQTable_deletes (qt : QTable) :
  pruneQTable qt =
  fold_left (fun t k => JsMap.delete k t) (removedKeys qt) qt.
Proof.
  unfold pruneQTable, removedKeys.
  generalize (firstn (toRemove (Js.sort byVisits (pruneEntries qt)))
                     (Js.sort byVisits (pruneEntries qt))).
  intros l. revert qt. induction l as [|e l IH]; intros qt; simpl; auto.
Qed.

Lemma pruneQTable_filter (qt : QTable) :
  JsMap.wf qt ->
  pruneQTable qt =
  filter (fun pm => negb (existsb (String.eqb (fst pm)) (removedKeys qt))) qt.
Proof.
  intros H. rewrite pruneQTable_deletes. now apply delete_all_filter.
Qed.

Lemma sorted_entries_keys_perm (qt : QTable) :
  Permutation (map fst (Js.sort byVisits (pruneEntries qt))) (JsMap.keys qt).
Proof.
  rewrite <- pruneEntries_keys. apply Permutation_map. apply sort_perm.
Qed.

Lemma removedKeys_NoDup (qt : QTable) :
  JsMap.wf qt -> NoDup (removedKeys qt).
Proof.
  intros H. unfold removedKeys.
  set (s := Js.sort byVisits (pruneEntries qt)).
  assert (Hs : NoDup (map fst s)).
  { eapply Permutation_NoDup; [symmetry; apply sorted_entries_keys_perm|exact H]. }
  rewrite <- (firstn_skipn (toRemove s) s) in Hs.
  rewrite map_app in Hs. now apply NoDup_app_remove_r in Hs.
Qed.

Lemma removedKeys_incl (qt : QTable) :
  incl (removedKeys qt) (JsMap.keys qt).
Proof.
  intros k Hk. unfold removedKeys in Hk.
  eapply Permutation_in; [apply sorted_entries_keys_perm|].
  apply in_map_iff in Hk. destruct Hk as (e & <- & He).
  apply in_map. eapply firstn_In; eauto.
Qed.

Lemma delete_keys_In {V} (m : list (string * V)) k k' :
  JsMap.wf m ->
  In k' (JsMap.keys (JsMap.delete k m)) <-> k' <> k /\ In k' (JsMap.keys m).
Proof.
  intros H. rewrite delete_filter by assumption.
  unfold JsMap.keys. rewrite !in_map_iff. split.
  - intros (x & <- & Hx). apply filter_In in Hx. destruct Hx as [Hx Hb].
    split; [|eauto]. destruct (String.eqb_spec k (fst x)); [discriminate|congruence].
  - intros (Hne & x & <- & Hx). exists x. split; [reflexivity|].
    apply filter_In. split; [exact Hx|].
    destruct (String.eqb_spec k (fst x)); [congruence|reflexivity].
Qed.

Lemma delete_wf {V} (m : list (string * V)) k :
  JsMap.wf m -> JsMap.wf (JsMap.delete k m).
Proof.
  intros H. rewrite delete_filter by assumption. now apply filter_keys_wf.
Qed.

Lemma delete_length {V} (m : list (string * V)) k :
  In k (JsMap.keys m) ->
  S (List.length (JsMap.delete k m)) = List.length m.
Proof.
  induction m as [|[k' v'] r IH]; simpl; [tauto|].
  destruct (String.eqb_spec k k') as [->|Hne]; simpl; [reflexivity|].
  intros [E|I]; [congruence|]. now rewrite IH.
Qed.

Lemma delete_all_length {V} (ks : list string) (m : list (string * V)) :
  NoDup ks -> incl ks (JsMap.keys m) -> JsMap.wf m ->
  (List.length (fold_left (fun t k => JsMap.delete k t) ks m)
   + List.length ks = List.length m)%nat.
Proof.
  revert m. induction ks as [|k ks IH]; intros m Hnd Hincl Hwf; simpl.
  - lia.
  - inversion Hnd as [|? ? Hk Hks]; subst.
    rewrite <- (delete_length m k) by (apply Hincl; now left).
    rewrite <- (IH (JsMap.delete k m)); [lia|exact Hks| |now apply delete_wf].
    intros k' Hk'. apply delete_keys_In; [exact Hwf|]. split.
    + intros ->. contradiction.
    + apply Hincl. now right.
Qed.

Lemma toRemove_le (entries : list (string * Z)) :
  (toRemove entries <= List.length entries)%nat.
Proof.
  unfold toRemove. rewrite floor_fifth.
  assert (0 <= Z.of_nat (List.length entries) / 5
          <= Z.of_nat (List.length entries))%Z.
  { split; [apply Z.div_pos; lia|].
    apply Z.div_le_upper_bound; lia. }
  lia.
Qed.

Lemma sort_length {A} (cmp : A -> A -> Z) l :
  List.length (Js.sort cmp l) = List.length l.
Proof. apply Permutation_length, sort_perm. Qed.

Lemma removedKeys_length (qt : QTable) :
  Z.of_nat (List.length (removedKeys qt)) = (JsMap.size qt / 5)%Z.
Proof.
  unfold removedKeys. rewrite length_map, firstn_length_le by apply toRemove_le.
  unfold toRemove. rewrite floor_fifth, sort_length.
  unfold pruneEntries. rewrite length_map. unfold JsMap.size.
  apply Z2Nat.id. apply Z.div_pos; lia.
Qed.

(** [pruneQTable] removes exactly [floor(size * 0.2)] positions. *)
Lemma pruneQTable_size (qt : QTable) :
  JsMap.wf qt ->
  JsMap.size (pruneQTable qt) =
  (JsMap.size qt - Js.Math_floor (inject_Z (JsMap.size qt) * 0.2))%Z.
Proof.
  intros H. rewrite floor_fifth, <- removedKeys_length.
  rewrite pruneQTable_deletes. unfold JsMap.size.
  pose proof (delete_all_length _ _ (removedKeys_NoDup qt H)
                                (removedKeys_incl qt) H). lia.
Qed.

Lemma pruneQTable_incl (qt : QTable) :
  JsMap.wf qt -> incl (pruneQTable qt) qt.
Proof.
  intros H pm. rewrite pruneQTable_filter by assumption.
  intros I. apply filter_In in I. tauto.
Qed.

Lemma pruneQTable_wf (qt : QTable) : qTable_wf qt -> qTable_wf (pruneQTable qt).
Proof.
  intros [H1 H2]. split.
  - rewrite pruneQTable_filter by assumption. now apply filter_keys_wf.
  - rewrite Forall_forall in *. intros pm I. apply H2.
    now apply pruneQTable_incl.
Qed.



Lemma set_set {V} (m : list (string * V)) k v v' :
  JsMap.set k v (JsMap.set k v' m) = JsMap.set k v m.
Proof.
  induction m as [|[k0 v0] r IH]; simpl.
  - now rewrite String.eqb_refl.
  - destruct (String.eqb_spec k k0) as [->|Hne]; simpl.
    + now rewrite String.eqb_refl.
    + destruct (String.eqb_spec k k0); [contradiction|now rewrite IH].
Qed.

Lemma evictIfFull_absent (qt : QTable) k :
  JsMap.wf qt -> ~ In k (JsMap.keys qt) -> ~ In k (JsMap.keys (evictIfFull qt)).
Proof.
  intros Hwf Hk. unfold evictIfFull.
  destruct (MAX_POSITIONS <=? JsMap.size qt)%Z; [|exact Hk].
  intros I. apply Hk. unfold JsMap.keys in *.
  apply in_map_iff in I. destruct I as (pm & <- & I).
  apply in_map. now apply pruneQTable_incl.
Qed.

Lemma setQValue_present (qt : QTable) posHash move v :
  JsMap.has posHash qt = true ->
  exists posEntry,
    JsMap.get posHash qt = Some posEntry /\
    setQValue qt posHash move v =
    JsMap.set posHash
      (JsMap.set move
         (mkEntry v (match JsMap.get move posEntry with
                     | Some e => (visits e + 1)%Z
                     | None => 1%Z
                     end)) posEntry) qt.
Proof.
  intros H. unfold setQValue. rewrite H.
  unfold JsMap.has in H. destruct (JsMap.get posHash qt) as [pe|]; [|discriminate].
  exists pe. split; reflexivity.
Qed.

Lemma setQValue_absent (qt : QTable) posHash move v :
  JsMap.wf qt -> JsMap.has posHash qt = false ->
  setQValue qt posHash move v =
  evictIfFull qt ++ [(posHash, [(move, mkEntry v 1)])].
Proof.
  intros Hwf H. unfold setQValue. rewrite H. fold (evictIfFull qt).
  rewrite get_set_same. simpl. rewrite set_set.
  apply set_absent. apply evictIfFull_absent; [exact Hwf|].
  now apply has_false_keys.
Qed.

(** The written value is what a later lookup returns. *)
Lemma getQValue_setQValue (qt : QTable) posHash move v :
  getQValue (setQValue qt posHash move v) posHash move = v.
Proof.
  unfold getQValue, setQValue.
  rewrite get_set_same, get_set_same. reflexivity.
Qed.

Lemma evictIfFull_wf (qt : QTable) : qTable_wf qt -> qTable_wf (evictIfFull qt).
Proof.
  intros H. unfold evictIfFull.
  destruct (MAX_POSITIONS <=? JsMap.size qt)%Z; [now apply pruneQTable_wf|exact H].
Qed.

Lemma setQValue_wf (qt : QTable) posHash move v :
  qTable_wf qt -> qTable_wf (setQValue qt posHash move v).
Proof.
  intros Hwf. destruct (JsMap.has posHash qt) eqn:Hh.
  - destruct (setQValue_present qt posHash move v Hh) as (pe & Hg & ->).
    destruct Hwf as [H1 H2]. split; [now apply set_wf|].
    apply set_In; [|exact H2]. apply set_wf.
    rewrite Forall_forall in H2.
    assert (I : In (posHash, pe) qt).
    { clear - Hg. induction qt as [|[k' v'] r IH]; simpl in *; [discriminate|].
      destruct (String.eqb_spec posHash k') as [->|Hne];
        [left; congruence|right; auto]. }
    exact (H2 _ I).
  - rewrite setQValue_absent by (try apply Hwf; assumption).
    destruct (evictIfFull_wf qt Hwf) as [H1 H2]. split.
    + unfold JsMap.wf, JsMap.keys. rewrite map_app. simpl.
      apply NoDup_app; [exact H1|repeat constructor; simpl; tauto|].
      intros x Hx [<-|[]]. revert Hx.
      apply evictIfFull_absent; [apply Hwf|now apply has_false_keys].
    + apply Forall_app. split; [exact H2|].
      repeat constructor. simpl. unfold JsMap.wf. simpl.
      repeat constructor. simpl. tauto.
Qed.

Lemma setQValue_size (qt : QTable) posHash move v :
  qTable_wf qt -> (JsMap.size qt <= MAX_POSITIONS)%Z ->
  (JsMap.size (setQValue qt posHash move v) <= MAX_POSITIONS)%Z.
Proof.
  intros Hwf Hsz. destruct (JsMap.has posHash qt) eqn:Hh.
  - destruct (setQValue_present qt posHash move v Hh) as (pe & Hg & ->).
    unfold JsMap.size in *.
    replace (List.length (JsMap.set posHash _ qt)) with (List.length qt);
      [exact Hsz|].
    rewrite <- (length_map fst qt), <- (length_map fst (JsMap.set _ _ _)).
    fold (JsMap.keys qt).
    change (map fst (JsMap.set posHash ?x qt)) with (JsMap.keys (JsMap.set posHash x qt)).
    rewrite set_present; [reflexivity|now apply has_true_keys].
  - rewrite setQValue_absent by (try apply Hwf; assumption).
    unfold JsMap.size. rewrite length_app. simpl.
    unfold evictIfFull.
    destruct (Z.leb_spec MAX_POSITIONS (JsMap.size qt)) as [Hfull|Hfree].
    + pose proof (pruneQTable_size qt (proj1 Hwf)) as Hp.
      rewrite floor_fifth in Hp. unfold JsMap.size in *.
      assert (1 <= Z.of_nat (List.length qt) / 5)%Z.
      { apply Z.div_le_lower_bound; unfold MAX_POSITIONS in *; lia. }
      lia.
    + unfold JsMap.size in *. lia.
Qed.















(* ================================================================== *)
(** ** Learning step *)
(* ================================================================== *)

Lemma firstn_snoc {A} (l : list A) (i : nat) (x : A) :
  nth_error l i = Some x -> firstn (S i) l = firstn i l ++ [x].
Proof.
  revert i. induction l as [|y l IH]; intros [|i] H; simpl in *;
    try discriminate.
  - now inversion H.
  - f_equal. now apply IH.
Qed.

Lemma learnLoop_backward (history : list HistoryEntry) (n : nat) :
  (n <= List.length history)%nat ->
  forall cumulativeReward qt,
    learnLoop history n cumulativeReward qt =
    backwardPropagation LEARNING_RATE DISCOUNT_FACTOR
                        (rev (firstn n history)) cumulativeReward qt.
Proof.
  induction n as [|i IH]; intros Hn c qt; [reflexivity|].
  simpl learnLoop.
  destruct (nth_error history i) as [h|] eqn:Hh.
  - rewrite (firstn_snoc _ _ _ Hh), rev_app_distr. simpl.
    apply IH. lia.
  - apply nth_error_None in Hh. lia.
Qed.

(** C1. For every outcome and every recorded trace, [learn] leaves in the value
    store exactly what the backward walk of the specification produces with
    learning rate 0.1, discount factor 0.9 and the cumulative reward seeded by
    the terminal constant of the outcome (win 1.0, loss -1.0, draw 0.1); and
    each write lands: a lookup after [setQValue] returns the written value. *)
Theorem c1_learn_backward_propagation :
  forall (result : GameResult) (nn : NeuralNetwork),
    qTable (learn result nn) =
      backwardPropagation 0.1 0.9 (rev (gameHistory nn))
                          (terminalReward result) (qTable nn)
    /\ terminalReward win == 1 /\ terminalReward loss == - (1)
    /\ terminalReward draw == 1 # 10
    /\ forall store key move newValue,
         getQValue (setQValue store key move newValue) key move = newValue.
Proof.
  intros result nn.
  split; [|repeat split; try reflexivity; apply getQValue_setQValue].
  unfold learn. simpl qTable.
  rewrite learnLoop_backward by lia.
  rewrite firstn_all.
  destruct result; reflexivity.
Qed.

(** C5. [learn] empties the trace, and a second consecutive [learn] leaves the
    value store as the first one left it. *)
Theorem c5_second_learn_is_noop :
  forall (r1 r2 : GameResult) (nn : NeuralNetwork),
    gameHistory (learn r1 nn) = [] /\
    qTable (learn r2 (learn r1 nn)) = qTable (learn r1 nn) /\
    forall posHash move,
      getQValue (qTable (learn r2 (learn r1 nn))) posHash move =
        getQValue (qTable (learn r1 nn)) posHash move /\
      getVisits (qTable (learn r2 (learn r1 nn))) posHash move =
        getVisits (qTable (learn r1 nn)) posHash move.
Proof.
  intros r1 r2 nn.
  assert (E : qTable (learn r2 (learn r1 nn)) = qTable (learn r1 nn))
    by reflexivity.
  split; [reflexivity|]. split; [exact E|].
  intros posHash move. now rewrite E.
Qed.

(* ================================================================== *)
(** ** Persistence round trip *)
(* ================================================================== *)

Lemma copy_fold {V W} (f : V -> W) (m : list (string * V))
      (acc : list (string * W)) :
  NoDup (JsMap.keys acc ++ JsMap.keys m) ->
  fold_left (fun a kv => JsMap.set (fst kv) (f (snd kv)) a) m acc =
  acc ++ map (fun kv => (fst kv, f (snd kv))) m.
Proof.
  revert acc. induction m as [|[k v] m IH]; intros acc H; simpl.
  - now rewrite app_nil_r.
  - assert (Hk : ~ In k (JsMap.keys acc)).
    { intros I. simpl in H. apply NoDup_remove_2 in H. apply H.
      apply in_or_app. now left. }
    rewrite set_absent by assumption.
    rewrite IH.
    + now rewrite <- app_assoc.
    + unfold JsMap.keys in *. rewrite map_app, <- app_assoc. exact H.
Qed.

Lemma copyMoves_id (moves : MoveTable) : JsMap.wf moves -> copyMoves moves = moves.
Proof.
  intros H. unfold copyMoves.
  rewrite (copy_fold (fun e => e)) by exact H. simpl.
  induction moves as [|[k v] r IH]; simpl; [reflexivity|].
  f_equal. apply IH. now inversion H.
Qed.

Lemma copyTable_id (t : QTable) : qTable_wf t -> copyTable t = t.
Proof.
  intros [H1 H2]. unfold copyTable.
  rewrite (copy_fold copyMoves) by exact H1. simpl.
  clear H1. induction H2 as [|[k v] r Hx Hr IH]; simpl; [reflexivity|].
  rewrite IH. simpl in Hx. now rewrite copyMoves_id.
Qed.

Lemma or_default_zero (x : Z) : Js.or_default x 0 = x.
Proof. unfold Js.or_default. destruct (Z.eqb_spec x 0); congruence. Qed.

(** C9. Importing an exported snapshot restores the counters, the three streak
    fields and the whole value store (so every value and visit count); the
    rating comes back as its integer floor and the exploration rate is
    recomputed as [max(0.05, 0.3 * 0.995 ^ gamesPlayed)]. *)
Theorem c9_export_import_round_trip :
  forall (nn target : NeuralNetwork),
    qTable_wf (qTable nn) ->
    let restored := importState (exportState nn) target in
    gamesPlayed restored = gamesPlayed nn /\
    wins restored = wins nn /\
    losses restored = losses nn /\
    draws restored = draws nn /\
    currentStreak restored = currentStreak nn /\
    bestWinStreak restored = bestWinStreak nn /\
    bestLossStreak restored = bestLossStreak nn /\
    qTable restored = qTable nn /\
    (forall posHash move,
       getQValue (qTable restored) posHash move =
         getQValue (qTable nn) posHash move /\
       getVisits (qTable restored) posHash move =
         getVisits (qTable nn) posHash move) /\
    elo restored = inject_Z (Qfloor (elo nn)) /\
    explorationRate restored =
      Qmax 0.05 (0.3 * 0.995 ^ gamesPlayed nn).
Proof.
  intros nn target Hwf restored.
  assert (E : qTable restored = qTable nn).
  { unfold restored, importState, exportState. simpl.
    rewrite (copyTable_id _ Hwf). exact (copyTable_id _ Hwf). }
  unfold restored, importState, exportState in *. simpl in *.
  rewrite !or_default_zero.
  repeat split; try reflexivity; try exact E; rewrite E; reflexivity.
Qed.

Lemma sampleAgent_wf : qTable_wf (qTable sampleAgent).
Proof.
  split.
  - repeat constructor. simpl. tauto.
  - repeat constructor; simpl; intuition discriminate.
Qed.

Lemma c9_export_import_round_trip_witness :
  qTable_wf (qTable sampleAgent) /\
  gamesPlayed (importState (exportState sampleAgent)
                           (newNeuralNetwork black 800)) = 3%Z /\
  qTable (importState (exportState sampleAgent)
                      (newNeuralNetwork black 800)) = qTable sampleAgent /\
  elo (importState (exportState sampleAgent) (newNeuralNetwork black 800)) =
    inject_Z 815.
Proof.
  pose proof (c9_export_import_round_trip
                sampleAgent (newNeuralNetwork black 800) sampleAgent_wf) as H.
  cbv zeta in H.
  destruct H as (G & _ & _ & _ & _ & _ & _ & T & _ & E & _).
  split; [exact sampleAgent_wf|]. split; [exact G|]. split; [exact T|].
  exact E.
Defined.

(* ================================================================== *)
(** ** Opening-book gate *)
(* ================================================================== *)

Lemma gtb_true (a b : Q) : Js.gtb a b = true <-> b < a.
Proof.
  unfold Js.gtb, Js.ltb. rewrite negb_true_iff.
  split.
  - intros H. apply Qnot_le_lt. intros Hle.
    apply Qle_bool_iff in Hle. congruence.
  - intros H. destruct (Qle_bool a b) eqn:E; [|reflexivity].
    apply Qle_bool_iff in E. exfalso. exact (Qlt_not_le _ _ H E).
Qed.

Lemma bookGate_spec (explorationRate random : Q) :
  bookGate explorationRate random = true <-> explorationRate * 0.5 < random.
Proof. apply gtb_true. Qed.

(** C7 as stated fails: with the draw 0.1 the gate passes at exploration rate
    0.1 and is shut at the larger rate 0.3. *)
Lemma c7_counterexample :
  ~ (forall random rate rate' : Q,
       rate <= rate' ->
       bookGate rate random = true -> bookGate rate' random = true).
Proof.
  intros H.
  specialize (H 0.1 0.1 0.3).
  assert (E : bookGate 0.3 0.1 = true).
  { apply H; [unfold Qle; simpl; lia|reflexivity]. }
  vm_compute in E. discriminate.
Qed.

Lemma bookGate_antitone (random rate rate' : Q) :
  rate' <= rate ->
  bookGate rate random = true -> bookGate rate' random = true.
Proof.
  intros Hle H.
  apply bookGate_spec in H. apply bookGate_spec.
  eapply Qle_lt_trans; [|exact H].
  apply Qmult_le_compat_r; [exact Hle|].
  unfold Qle. simpl. lia.
Qed.

Section BookGate.
Context {Chess : Type} {CO : ChessOracle Chess} {SO : SearchOracle}.

Lemma decideMove_bookBranch (nn : NeuralNetwork) (chess : Chess) (w : World)
      (b : string) (w2 : World) :
  bookBranch (explorationRate nn) chess w = Some (b, w2) ->
  decideMove nn chess w = (Some b, nn, w2).
Proof.
  unfold bookBranch, decideMove.
  destruct (chess_moves chess) as [|first others]; [discriminate|].
  destruct (isInBook (chess_fen chess)); [|discriminate].
  destruct (Math_random w) as [r w1].
  destruct (bookGate (explorationRate nn) r); [|discriminate].
  destruct (getBookMove (chess_fen chess) w1) as [bookMove w2'].
  destruct (legalBookMove bookMove (first :: others)); [|discriminate].
  intros E. now inversion E.
Qed.

Lemma bookBranch_antitone (rate rate' : Q) (chess : Chess) (w : World)
      (bw : string * World) :
  rate' <= rate ->
  bookBranch rate chess w = Some bw -> bookBranch rate' chess w = Some bw.
Proof.
  intros Hle. unfold bookBranch.
  destruct (chess_moves chess) as [|first others]; [discriminate|].
  destruct (isInBook (chess_fen chess)); [|discriminate].
  destruct (Math_random w) as [r w1].
  destruct (bookGate rate r) eqn:G; [|discriminate].
  now rewrite (bookGate_antitone _ _ _ Hle G).
Qed.

(** C7, amended.  The gate of [decideMove] is [random > explorationRate * 0.5]:
    for a fixed draw, when it passes at some exploration rate it passes at
    every smaller rate, so with the same draws an agent whose exploration rate
    is smaller plays the same book move.  The chance of a book move never
    shrinks as the exploration rate decays. *)
Theorem c7_book_gate_antitone :
  forall (random rate rate' : Q),
    rate' <= rate ->
    bookGate rate random = true ->
    bookGate rate' random = true /\
    forall (nn nn' : NeuralNetwork) (chess : Chess) (w w2 : World) (b : string),
      explorationRate nn = rate -> explorationRate nn' = rate' ->
      bookBranch rate chess w = Some (b, w2) ->
      decideMove nn chess w = (Some b, nn, w2) /\
      decideMove nn' chess w = (Some b, nn', w2).
Proof.
  intros random rate rate' Hle H.
  split; [now apply (bookGate_antitone random rate)|].
  intros nn nn' chess w w2 b E E' Hb. split.
  - apply decideMove_bookBranch. now rewrite E.
  - apply decideMove_bookBranch. rewrite E'.
    now apply (bookBranch_antitone rate).
Qed.

End BookGate.

Lemma c7_book_gate_antitone_witness :
  0.1 <= 0.3 /\ bookGate 0.3 0.2 = true /\ bookGate 0.1 0.2 = true /\
  exists w2,
    decideMove (newNeuralNetwork white 800) (@chess_reset _ Toy.oracle)
               Toy.world3 =
      (Some "e4"%string, newNeuralNetwork white 800, w2) /\
    decideMove sampleLowRateAgent (@chess_reset _ Toy.oracle) Toy.world3 =
      (Some "e4"%string, sampleLowRateAgent, w2).
Proof.
  assert (H1 : 0.1 <= 0.3) by (unfold Qle; simpl; lia).
  assert (H2 : bookGate 0.3 0.2 = true) by reflexivity.
  destruct (c7_book_gate_antitone (CO := Toy.oracle) 0.2 0.3 0.1 H1 H2)
    as [G D].
  split; [exact H1|]. split; [exact H2|]. split; [exact G|].
  eexists.
  apply (D (newNeuralNetwork white 800) sampleLowRateAgent
           (@chess_reset _ Toy.oracle) Toy.world3); reflexivity.
Defined.

(* ================================================================== *)
(** ** Orchestrator: stop *)
(* ================================================================== *)

Section StopFacts.
Context {Chess : Type} {CO : ChessOracle Chess} {SO : SearchOracle}.

(** What [stop] does in every state: it cancels the pending timer, leaves
    the loop not running, resets the board to the initial position and
    clears the per-game move times and move-quality tracking, and a following
    [start] enters the move cycle on the initial board.  [stop] has no
    statement that touches an agent, so the value stores are what they were;
    so are the agents' traces of the game that was given up. *)
Lemma stop_resets_board_keeps_agents :
  forall s : @Sys Chess,
    let s' := stop s in
    timer (gm s') = None /\
    isRunning (gm s') = false /\
    chess (gm s') = chess_reset /\
    moveTimesMs (gm s') = [] /\
    blunderDetector (gm s') = BlunderDetector.create /\
    lastMoveEval (gm s') = None /\
    whiteAI (gm s') = whiteAI (gm s) /\
    blackAI (gm s') = blackAI (gm s) /\
    opponentBot (gm s') = opponentBot (gm s) /\
    qTable (whiteAI (gm s')) = qTable (whiteAI (gm s)) /\
    qTable (blackAI (gm s')) = qTable (blackAI (gm s)) /\
    gameHistory (whiteAI (gm s')) = gameHistory (whiteAI (gm s)) /\
    gameHistory (blackAI (gm s')) = gameHistory (blackAI (gm s)) /\
    exists s0 : Sys,
      start s' = gameLoop s0 /\
      isRunning (gm s0) = true /\
      chess (gm s0) = chess_reset /\
      moveTimesMs (gm s0) = [] /\
      timer (gm s0) = None /\
      whiteAI (gm s0) = whiteAI (gm s) /\
      blackAI (gm s0) = blackAI (gm s).
Proof.
  intros [[c wa ba t mi r mt lmt sf ib bd le lme ob] w e] s'.
  unfold s', stop, pause, start. simpl.
  destruct t as [t|]; simpl;
    (repeat match goal with |- _ /\ _ => split end; try reflexivity;
     eexists; split; [reflexivity|]; simpl; repeat split).
Qed.

End StopFacts.


(* ================================================================== *)
(** ** Orchestrator: benchmark guard and quick training *)
(* ================================================================== *)

Section GuardFacts.
Context {Chess : Type} {CO : ChessOracle Chess} {SO : SearchOracle}.

Lemma continues_refl (s : @Sys Chess) : continues s s.
Proof. split; [reflexivity|]. exists []. now rewrite app_nil_r. Qed.

Lemma continues_trans (s1 s2 s3 : @Sys Chess) :
  continues s1 s2 -> continues s2 s3 -> continues s1 s3.
Proof.
  intros [F1 [r1 E1]] [F2 [r2 E2]]. split; [congruence|].
  exists (r1 ++ r2). now rewrite E2, E1, app_assoc.
Qed.

Lemma continues_emit (e : Event) (s : @Sys Chess) : continues s (emit e s).
Proof. split; [reflexivity|]. now exists [e]. Qed.

Lemma continues_pause (s : @Sys Chess) : continues s (pause s).
Proof.
  unfold pause. destruct s as [g w e]. destruct g. simpl.
  destruct timer0; (split; [reflexivity|eexists; reflexivity]).
Qed.

Lemma settle_isBenchmarking (winner : Winner) (g : @GameManager Chess) (w : World) :
  isBenchmarking (fst (settle winner g w)) = isBenchmarking g.
Proof.
  unfold settle. destruct winner;
    repeat match goal with
           | |- context [updateStats ?r ?a ?w] => destruct (updateStats r a w)
           end; reflexivity.
Qed.

Lemma playGame_isBenchmarking (fuel : nat) :
  forall (g g' : @GameManager Chess) (w w' : World),
    playGame fuel g w = Ok (g', w') ->
    isBenchmarking g' = isBenchmarking g.
Proof.
  induction fuel as [|fuel IH]; intros g g' w w' H; simpl in H.
  - destruct (chess_isGameOver (chess g)); [|discriminate].
    now inversion H.
  - destruct (chess_isGameOver (chess g)); [now inversion H|].
    destruct (decideMoveAuto _ _ w) as [[[mv ai] w1]| |]; simpl in H;
      try discriminate.
    destruct (truthyMove mv) as [m|].
    + destruct (chess_turn (chess g)); simpl in H;
        (destruct (chess_move (chess g) m) as [c'|];
         [apply IH in H; exact H | now inversion H]).
    + inversion H. destruct (chess_turn (chess g)); reflexivity.
Qed.

Lemma continues_quickTrainGame (fuel : nat) (numGames : Q) (game : Z)
      (t t' : Tally) (s s' : @Sys Chess) :
  quickTrainGame fuel numGames game t s = Ok (t', s') -> continues s s'.
Proof.
  unfold quickTrainGame. intros H.
  destruct (playGame fuel _ (world s)) as [[g w]| |] eqn:P; simpl in H;
    try discriminate.
  apply playGame_isBenchmarking in P. simpl in P.
  pose proof (settle_isBenchmarking (winnerOf (chess g)) g w) as S.
  destruct (settle (winnerOf (chess g)) g w) as [g1 w1]. simpl in S.
  match type of H with
  | Ok (_, (if ?c then _ else _)) = _ => destruct c
  end; inversion H; subst; (split; [simpl; congruence|]);
    simpl; eexists; rewrite <- ?app_assoc; reflexivity.
Qed.

Lemma continues_quickTrainLoop (fuel : nat) (numGames : Q) (passes : nat) :
  forall (game : Z) (t t' : Tally) (s s' : @Sys Chess),
    quickTrainLoop fuel numGames passes game t s = Ok (t', s') ->
    continues s s'.
Proof.
  induction passes as [|n IH]; intros game t t' s s' H;
    cbn [quickTrainLoop] in H;
    destruct (Js.ltb (inject_Z game) numGames);
    try discriminate;
    try (inversion H; apply continues_refl).
  destruct (quickTrainGame fuel numGames game t s) as [[t1 s1]| |] eqn:G;
    simpl in H; try discriminate.
  eapply continues_trans; [eapply continues_quickTrainGame; eauto|].
  eapply IH; eauto.
Qed.

Lemma continues_quickTrain (fuel : nat) (numGames : Q) (s s' : @Sys Chess)
      (r : QuickTrainResult) :
  quickTrain fuel numGames s = Ok (r, s') -> continues s s'.
Proof.
  unfold quickTrain. intros H.
  set (s1 := if isRunning (gm s) then pause s else s) in *.
  assert (C1 : continues s s1).
  { unfold s1. destruct (isRunning (gm s));
      [apply continues_pause|apply continues_refl]. }
  destruct (quickTrainLoop fuel numGames _ 0 _ s1) as [[t s2]| |] eqn:L;
    simpl in H; try discriminate.
  apply continues_quickTrainLoop in L.
  inversion H; subst. clear H.
  eapply continues_trans; [exact C1|].
  eapply continues_trans; [exact L|].
  split; [reflexivity|]. simpl. eexists; reflexivity.
Qed.

(** C8, amended.  A [run_benchmark] command that arrives while a benchmark is
    in progress is rejected with the busy signal and changes nothing else;
    otherwise it raises the benchmark flag.  The [quick_train] handler has no
    such guard: it never consults the flag, so whenever it completes it has
    announced and run the training, and it leaves the flag as it found it,
    also when a benchmark is in progress. *)
Theorem c8_only_benchmarks_exclude_each_other :
  forall (fuel : nat) (s : @Sys Chess),
    (isBenchmarking (gm s) = true ->
       on_run_benchmark s =
         emit (benchmark_error "Benchmark already running") s) /\
    (isBenchmarking (gm s) = false ->
       isBenchmarking (gm (on_run_benchmark s)) = true /\
       emitted (on_run_benchmark s) = emitted s ++ [benchmark_started]) /\
    (forall (n : option Q) (s' : @Sys Chess),
       on_quick_train fuel n s = Ok s' ->
       isBenchmarking (gm s') = isBenchmarking (gm s) /\
       exists rest,
         emitted s' =
           emitted s ++ quick_train_started (clampGames n) :: rest).
Proof.
  intros fuel s. split; [|split].
  - intros H. unfold on_run_benchmark. now rewrite H.
  - intros H. unfold on_run_benchmark. rewrite H. simpl.
    destruct (stockfish (gm s)); simpl; split; reflexivity.
  - intros n s' H. unfold on_quick_train in H.
    destruct (quickTrain fuel (clampGames n) _) as [[r s1]| |] eqn:Q;
      simpl in H; try discriminate.
    apply continues_quickTrain in Q. destruct Q as [F [rest E]].
    inversion H; subst; clear H. simpl in *. split; [exact F|].
    rewrite E. eexists. rewrite <- !app_assoc. simpl. reflexivity.
Qed.

End GuardFacts.

(** C8 as stated fails: in the three-ply game, a [quick_train] command that
    arrives after [run_benchmark] (the benchmark is waiting for its engine) is
    not rejected; it plays its game and completes while the benchmark is still
    in progress. *)
Lemma c8_counterexample :
  exists s1 s2 : @Sys Toy.Chess,
    run 10 (initialSys Toy.world) [run_benchmark] = Ok s1 /\
    isBenchmarking (gm s1) = true /\
    step 10 s1 (quick_train (Some 1)) = Ok s2 /\
    isBenchmarking (gm s2) = true /\
    gamesPlayed (whiteAI (gm s2)) = 1%Z /\
    In (quick_train_started 1) (emitted s2) /\
    (forall m, ~ In (benchmark_error m) (emitted s2)) /\
    ~ In benchmark_complete (emitted s2).
Proof.
  eexists. eexists.
  split; [vm_compute; reflexivity|].
  split; [reflexivity|].
  split; [vm_compute; reflexivity|].
  split; [reflexivity|]. split; [reflexivity|].
  split; [simpl; tauto|].
  split.
  - intros m H. simpl in H.
    repeat (destruct H as [H|H]; [discriminate|]). exact H.
  - intros H. simpl in H.
    repeat (destruct H as [H|H]; [discriminate|]). exact H.
Qed.

(* ================================================================== *)
(** ** Tree search *)
(* ================================================================== *)

Section ArrayFacts.
Context {A : Type}.
Implicit Types (l : list A) (x : A) (i j : nat).

Lemma update_length i x l : List.length (MCTS.update i x l) = List.length l.
Proof.
  revert i. induction l as [|y l IH]; intros [|i]; simpl; auto.
Qed.

Lemma nth_error_update_eq i x l :
  (i < List.length l)%nat -> nth_error (MCTS.update i x l) i = Some x.
Proof.
  revert i. induction l as [|y l IH]; intros [|i] H; simpl in *;
    try lia; auto. apply IH. lia.
Qed.

Lemma nth_error_update_neq i j x l :
  i <> j -> nth_error (MCTS.update i x l) j = nth_error l j.
Proof.
  revert i j. induction l as [|y l IH]; intros [|i] [|j] H; simpl;
    try congruence; auto.
Qed.

Lemma removeAt_incl i l x : In x (MCTS.removeAt i l) -> In x l.
Proof.
  revert i. induction l as [|y l IH]; intros [|i] H; simpl in *; auto.
  destruct H as [H|H]; [now left|right; eauto].
Qed.

End ArrayFacts.

Section SearchFacts.
Context {Chess : Type} {CO : ChessOracle Chess} {SO : SearchOracle}.
Implicit Types (tree : MCTS.Tree) (n : MCTS.MCTSNode).

Lemma map_links_nth tree tree' i :
  map MCTS.links tree' = map MCTS.links tree ->
  option_map MCTS.links (nth_error tree' i) =
  option_map MCTS.links (nth_error tree i).
Proof.
  intros H. rewrite <- !nth_error_map. now rewrite H.
Qed.

Lemma links_length tree tree' :
  map MCTS.links tree' = map MCTS.links tree ->
  List.length tree' = List.length tree.
Proof.
  intros H. rewrite <- (length_map MCTS.links tree'), H. apply length_map.
Qed.

Lemma update_links tree i n n' :
  nth_error tree i = Some n -> MCTS.links n' = MCTS.links n ->
  map MCTS.links (MCTS.update i n' tree) = map MCTS.links tree.
Proof.
  revert i. induction tree as [|y tree IH]; intros [|i] H E; simpl in *;
    try discriminate.
  - inversion H; subst. now rewrite E.
  - f_equal. now apply IH.
Qed.

Lemma backpropagate_links (fuel : nat) :
  forall tree node result tree',
    MCTS.backpropagate fuel tree node result = Ok tree' ->
    map MCTS.links tree' = map MCTS.links tree.
Proof.
  induction fuel as [|fuel IH]; intros tree [i|] result tree' H; simpl in H;
    try discriminate; try (now inversion H).
  destruct (nth_error tree i) as [n|] eqn:E; [|discriminate].
  apply IH in H. rewrite H. eapply update_links; eauto.
Qed.

Lemma tree_shape_links tree tree' :
  map MCTS.links tree' = map MCTS.links tree ->
  MCTS.tree_shape tree -> MCTS.tree_shape tree'.
Proof.
  intros H S i n' E.
  pose proof (map_links_nth tree tree' i H) as L. rewrite E in L.
  destruct (nth_error tree i) as [n|] eqn:En; [|discriminate].
  simpl in L. inversion L as [[L1 L2 L3 L4 L5]].
  destruct (S i n En) as (C & P & M).
  unfold MCTS.node_shape. rewrite L1, L2, L3, (links_length _ _ H). auto.
Qed.

Lemma untried_legal_links tree tree' :
  map MCTS.links tree' = map MCTS.links tree ->
  MCTS.untried_legal tree -> MCTS.untried_legal tree'.
Proof.
  intros H S i n' E.
  pose proof (map_links_nth tree tree' i H) as L. rewrite E in L.
  destruct (nth_error tree i) as [n|] eqn:En; [|discriminate].
  simpl in L. inversion L as [[L1 L2 L3 L4 L5]].
  rewrite L4, L5. exact (S i n En).
Qed.

Lemma root_has_child_links tree tree' :
  map MCTS.links tree' = map MCTS.links tree ->
  MCTS.root_has_child tree -> MCTS.root_has_child tree'.
Proof.
  intros H (r & E & C).
  pose proof (map_links_nth tree tree' 0 H) as L. rewrite E in L.
  destruct (nth_error tree' 0) as [r'|] eqn:En; [|discriminate].
  simpl in L. inversion L as [[L1 L2 L3 L4 L5]].
  exists r'. split; [exact En|]. now rewrite L3.
Qed.

(** With a well-shaped tree, backpropagation from node [i] needs at most
    [i + 1] steps. *)
Lemma backpropagate_returns tree :
  MCTS.tree_shape tree ->
  forall (fuel i : nat) result,
    (i < fuel)%nat -> (i < List.length tree)%nat ->
    exists tree', MCTS.backpropagate fuel tree (Some i) result = Ok tree'.
Proof.
  intros S fuel. revert tree S.
  induction fuel as [|fuel IH]; intros tree S i result Hf Hi; [lia|].
  simpl.
  destruct (nth_error tree i) as [n|] eqn:E;
    [|apply nth_error_None in E; lia].
  destruct (S i n E) as (C & P & M).
  set (n' := MCTS.mkNode _ _ _ _ _ _ _).
  assert (L : map MCTS.links (MCTS.update i n' tree) = map MCTS.links tree)
    by (eapply update_links; eauto).
  destruct (MCTS.parent n) as [p|] eqn:Pn.
  - apply IH; [eapply tree_shape_links; eauto|lia|].
    rewrite update_length. lia.
  - destruct fuel; simpl; eauto.
Qed.


Lemma expand_inv tree i w tree' c w' :
  MCTS.expand tree i w = Ok (tree', c, w') ->
  exists node k m chess',
    nth_error tree i = Some node /\
    nth_error (MCTS.untriedMoves node) k = Some m /\
    chess_move (chess_load (MCTS.fen node)) m = Some chess' /\
    c = List.length tree /\
    w' = snd (Math_random w) /\
    tree' =
      MCTS.update i
        (MCTS.mkNode (MCTS.move node) (MCTS.parent node)
                     (MCTS.children node ++ [List.length tree])
                     (MCTS.visits node) (MCTS.wins node)
                     (MCTS.removeAt k (MCTS.untriedMoves node))
                     (MCTS.fen node)) tree
      ++ [MCTS.createNode (chess_fen chess') (Some m) (Some i)].
Proof.
  unfold MCTS.expand. intros H.
  destruct (nth_error tree i) as [node|] eqn:E; [|discriminate].
  destruct (MCTS.untriedMoves node) as [|u us] eqn:U; [discriminate|].
  destruct (Math_random w) as [r w1] eqn:R.
  match type of H with
  | context [nth_error (u :: us) ?k] =>
      destruct (nth_error (u :: us) k) as [m|] eqn:K; [|discriminate];
      destruct (chess_move (chess_load (MCTS.fen node)) m) as [chess'|] eqn:M;
      [|discriminate];
      exists node, k, m, chess'
  end.
  inversion H; subst. rewrite U. repeat split; auto.
Qed.

Lemma nth_error_snoc {A} (l : list A) (x : A) (j : nat) (y : A) :
  nth_error (l ++ [x]) j = Some y ->
  nth_error l j = Some y \/ (j = List.length l /\ y = x).
Proof.
  intros H. destruct (Nat.lt_ge_cases j (List.length l)) as [Hlt|Hge].
  - left. now rewrite nth_error_app1 in H.
  - right. rewrite nth_error_app2 in H by assumption.
    destruct (j - List.length l)%nat as [|k] eqn:D; simpl in H.
    + split; [lia|congruence].
    + destruct k; discriminate.
Qed.

Lemma expand_shape tree i w tree' c w' :
  MCTS.expand tree i w = Ok (tree', c, w') ->
  MCTS.tree_shape tree ->
  MCTS.tree_shape tree' /\ (c < List.length tree')%nat /\
  (i = 0%nat -> MCTS.root_has_child tree') /\
  (MCTS.root_has_child tree -> MCTS.root_has_child tree').
Proof.
  intros H S.
  destruct (expand_inv _ _ _ _ _ _ H)
    as (node & k & m & chess' & E & K & M & -> & -> & ->).
  assert (Hi : (i < List.length tree)%nat)
    by (apply nth_error_Some; congruence).
  destruct (S i node E) as (C & P & Mv).
  set (node' := MCTS.mkNode _ _ _ _ _ _ _).
  set (child := MCTS.createNode _ _ _).
  split; [|split; [|split]].
  - intros j n Hj. unfold MCTS.node_shape.
    rewrite length_app, update_length. simpl.
    apply nth_error_snoc in Hj. rewrite update_length in Hj.
    destruct Hj as [Hj|[-> ->]].
    + destruct (Nat.eq_dec i j) as [<-|Hne].
      * rewrite nth_error_update_eq in Hj by assumption.
        inversion Hj; subst n. unfold MCTS.node_shape. simpl.
        split; [|split; auto].
        apply Forall_app. split.
        -- eapply Forall_impl; [|exact C]. simpl. intros; lia.
        -- repeat constructor; lia.
      * rewrite nth_error_update_neq in Hj by assumption.
        destruct (S j n Hj) as (C' & P' & M').
        split; [|split; auto].
        eapply Forall_impl; [|exact C']. simpl. intros; lia.
    + unfold MCTS.node_shape. simpl. split; [constructor|].
      split; [lia|]. intros _. now exists m.
  - rewrite length_app, update_length. simpl. lia.
  - intros ->. exists node'. split.
    + rewrite nth_error_app1 by (rewrite update_length; lia).
      now apply nth_error_update_eq.
    + simpl. destruct (MCTS.children node); discriminate.
  - intros (r & Er & Cr).
    destruct (Nat.eq_dec i 0) as [->|Hne].
    + exists node'. split.
      * rewrite nth_error_app1 by (rewrite update_length; lia).
        now apply nth_error_update_eq.
      * simpl. destruct (MCTS.children node); discriminate.
    + exists r. split; [|exact Cr].
      rewrite nth_error_app1 by (rewrite update_length; lia).
      now rewrite nth_error_update_neq.
Qed.

Lemma selectChildLoop_In tree rest best ucb c :
  MCTS.selectChildLoop tree rest best ucb = Ok c -> c = best \/ In c rest.
Proof.
  revert best ucb. induction rest as [|x rest IH]; intros best ucb H;
    simpl in H.
  - left. now inversion H.
  - destruct (nth_error tree x) as [n|]; [|discriminate].
    destruct (MCTS.score_gtb _ ucb).
    + apply IH in H. destruct H as [->|H]; [right; now left|right; now right].
    + apply IH in H. destruct H as [->|H]; [now left|right; now right].
Qed.

Lemma selectChildLoop_returns tree rest best ucb :
  Forall (fun c => (c < List.length tree)%nat) rest ->
  exists c, MCTS.selectChildLoop tree rest best ucb = Ok c.
Proof.
  intros F. revert best ucb.
  induction F as [|x rest Hx F IH]; intros best ucb; simpl; [eauto|].
  destruct (nth_error tree x) as [n|] eqn:E;
    [|apply nth_error_None in E; lia].
  destruct (MCTS.score_gtb _ ucb); apply IH.
Qed.

Lemma selectChild_In tree n c :
  MCTS.selectChild tree n = Ok c -> In c (MCTS.children n).
Proof.
  unfold MCTS.selectChild.
  destruct (MCTS.children n) as [|first rest]; [discriminate|].
  destruct (nth_error tree first); [|discriminate].
  intros H. apply selectChildLoop_In in H.
  destruct H as [->|H]; [now left|now right].
Qed.

Lemma selectChild_returns tree n :
  MCTS.children n <> [] ->
  Forall (fun c => (c < List.length tree)%nat) (MCTS.children n) ->
  exists c, MCTS.selectChild tree n = Ok c.
Proof.
  unfold MCTS.selectChild. intros Hne F.
  destruct (MCTS.children n) as [|first rest]; [congruence|].
  inversion F as [|? ? Hf Fr]; subst.
  destruct (nth_error tree first) as [x|] eqn:E;
    [|apply nth_error_None in E; lia].
  now apply selectChildLoop_returns.
Qed.

Lemma selection_lands (fuel : nat) :
  forall tree i j,
    MCTS.selection fuel tree i = Ok j -> (j < List.length tree)%nat.
Proof.
  induction fuel as [|fuel IH]; intros tree i j H; simpl in H.
  - destruct (nth_error tree i) as [n|] eqn:E; [|discriminate].
    assert (i < List.length tree)%nat by (apply nth_error_Some; congruence).
    destruct (MCTS.untriedMoves n), (MCTS.children n);
      try discriminate; inversion H; subst; assumption.
  - destruct (nth_error tree i) as [n|] eqn:E; [|discriminate].
    assert (i < List.length tree)%nat by (apply nth_error_Some; congruence).
    destruct (MCTS.untriedMoves n), (MCTS.children n) eqn:C;
      try (inversion H; subst; assumption).
    destruct (MCTS.selectChild tree n) as [c| |]; simpl in H;
      try discriminate.
    eapply IH; eauto.
Qed.

(** In a well-shaped tree the selection loop ends within
    [length tree - i] steps. *)
Lemma selection_returns tree :
  MCTS.tree_shape tree ->
  forall (fuel i : nat),
    (i < List.length tree)%nat -> (List.length tree - i <= fuel)%nat ->
    exists j, MCTS.selection fuel tree i = Ok j.
Proof.
  intros S fuel. induction fuel as [|fuel IH]; intros i Hi Hf; [lia|].
  simpl.
  destruct (nth_error tree i) as [n|] eqn:E;
    [|apply nth_error_None in E; lia].
  destruct (S i n E) as (C & P & M).
  destruct (MCTS.untriedMoves n); [|eauto].
  destruct (MCTS.children n) as [|c0 cs] eqn:Cn; [eauto|].
  destruct (selectChild_returns tree n) as [c Hc].
  - rewrite Cn. discriminate.
  - rewrite Cn. eapply Forall_impl; [|exact C]. simpl. intros; lia.
  - rewrite Hc. simpl.
    apply selectChild_In in Hc. rewrite Cn in Hc.
    rewrite Forall_forall in C. specialize (C c Hc).
    apply IH; lia.
Qed.


Lemma simulation_shape turn tree w tree' w' :
  MCTS.simulation turn tree w = Ok (tree', w') ->
  MCTS.tree_shape tree ->
  MCTS.tree_shape tree' /\
  (MCTS.root_has_child tree -> MCTS.root_has_child tree').
Proof.
  unfold MCTS.simulation. intros H S.
  destruct (MCTS.selection _ tree 0) as [node| |] eqn:Sel; cbn [bind] in H;
    try discriminate.
  destruct (nth_error tree node) as [n|] eqn:E; [|discriminate].
  assert (X : exists tree1 node1 w1,
             (match MCTS.untriedMoves n with
              | [] => Ok (tree, node, w)
              | _ :: _ => MCTS.expand tree node w
              end) = Ok (tree1, node1, w1) /\
             MCTS.tree_shape tree1 /\
             (MCTS.root_has_child tree -> MCTS.root_has_child tree1)).
  { destruct (MCTS.untriedMoves n) as [|u us].
    - exists tree, node, w. auto.
    - destruct (MCTS.expand tree node w) as [[[t1 n1] w1]| |] eqn:X;
        cbn [bind] in H; try discriminate.
      exists t1, n1, w1. split; [reflexivity|].
      destruct (expand_shape _ _ _ _ _ _ X S) as (S1 & _ & _ & R1). auto. }
  destruct X as (tree1 & node1 & w1 & X & S1 & R1).
  rewrite X in H. cbn [bind] in H.
  destruct (nth_error tree1 node1) as [n1|]; [|discriminate].
  destruct (simulate (MCTS.fen n1) turn w1) as [result w2].
  destruct (MCTS.backpropagate _ tree1 (Some node1) result) as [tree2| |] eqn:B;
    cbn [bind] in H; try discriminate.
  inversion H; subst. apply backpropagate_links in B.
  split; [eapply tree_shape_links; eauto|].
  intros R. eapply root_has_child_links; eauto.
Qed.

Lemma simulations_shape (k : nat) :
  forall turn tree w tree' w',
    MCTS.simulations k turn tree w = Ok (tree', w') ->
    MCTS.tree_shape tree -> MCTS.tree_shape tree'.
Proof.
  induction k as [|k IH]; intros turn tree w tree' w' H S; simpl in H.
  - now inversion H; subst.
  - destruct (MCTS.simulation turn tree w) as [[t1 w1]| |] eqn:X; simpl in H;
      try discriminate.
    eapply IH; [exact H|]. eapply simulation_shape; eauto.
Qed.

Lemma bestChildLoop_from tree rest ns bias best score c :
  MCTS.bestChildLoop tree rest ns bias best score = Ok (Some c) ->
  best = Some c \/ exists j, In j rest /\ nth_error tree j = Some c.
Proof.
  revert best score. induction rest as [|x rest IH]; intros best score H;
    simpl in H.
  - left. now inversion H.
  - destruct (nth_error tree x) as [n|] eqn:E; [|discriminate].
    match type of H with
    | (if ?b then _ else _) = _ => destruct b
    end; apply IH in H.
    + destruct H as [H|(j & Ij & Ej)].
      * right. exists x. split; [now left|congruence].
      * right. exists j. split; [now right|exact Ej].
    + destruct H as [H|(j & Ij & Ej)]; [now left|].
      right. exists j. split; [now right|exact Ej].
Qed.

Lemma selectBest_inv tree ns bias r :
  MCTS.tree_shape tree ->
  MCTS.selectBest tree ns bias = Ok r -> exists m, r = Some m.
Proof.
  unfold MCTS.selectBest. intros S H.
  destruct (nth_error tree 0) as [root|] eqn:E; [|discriminate].
  destruct (S 0%nat root E) as (C & _ & _).
  destruct (MCTS.bestChildLoop _ _ _ _ _ _) as [[c|]| |] eqn:B; simpl in H;
    try discriminate.
  inversion H; subst r. clear H.
  apply bestChildLoop_from in B.
  assert (X : exists j, In j (MCTS.children root) /\ nth_error tree j = Some c).
  { destruct B as [B|B]; [|exact B].
    destruct (MCTS.children root) as [|c0 cs]; [discriminate|].
    exists c0. split; [now left|exact B]. }
  destruct X as (j & Ij & Ej).
  rewrite Forall_forall in C. specialize (C j Ij).
  destruct (S j c Ej) as (_ & _ & M). apply M. lia.
Qed.

Lemma root_shape fen : MCTS.tree_shape [MCTS.createNode fen None None].
Proof.
  intros [|i] n H; simpl in H.
  - inversion H; subst. unfold MCTS.node_shape. simpl.
    split; [constructor|]. split; [reflexivity|lia].
  - destruct i; discriminate.
Qed.

(** C6. [mcts] returns "no move" exactly when the position has no legal
    move; with exactly one legal move it returns that move at once: no tree is
    built, no child expanded and no random number drawn. *)
Theorem c6_mcts_no_move_and_single_move :
  forall (fen : string) (numSimulations : Z)
         (qValueBias : option (string -> Q)) (w : World),
    (MCTS.result (MCTS.mcts fen numSimulations qValueBias w) = Ok None
     <-> chess_moves (chess_load fen) = []) /\
    (forall only : Move,
       chess_moves (chess_load fen) = [only] ->
       MCTS.mcts fen numSimulations qValueBias w =
         MCTS.mkRun (Ok (Some (san only))) [] w).
Proof.
  intros fen ns bias w. split.
  - unfold MCTS.mcts.
    destruct (chess_moves (chess_load fen)) as [|m1 [|m2 ms]] eqn:L; simpl.
    + tauto.
    + split; discriminate.
    + split; [|discriminate]. intros H. exfalso.
      destruct (MCTS.simulations _ _ _ w) as [[tree w']| |] eqn:Sim;
        simpl in H; try discriminate.
      apply simulations_shape in Sim; [|apply root_shape].
      destruct (selectBest_inv _ _ _ _ Sim H) as [m Hm]. discriminate.
  - intros only L. unfold MCTS.mcts. now rewrite L.
Qed.

End SearchFacts.

Lemma c6_mcts_no_move_and_single_move_witness :
  chess_moves (chess_load Toy.fen2) = [Toy.quiet "Qh5#"] /\
  MCTS.mcts Toy.fen2 30 None Toy.world =
    MCTS.mkRun (Ok (Some "Qh5#"%string)) [] Toy.world.
Proof.
  assert (L : chess_moves (chess_load Toy.fen2) = [Toy.quiet "Qh5#"])
    by reflexivity.
  split; [exact L|].
  exact (proj2 (c6_mcts_no_move_and_single_move Toy.fen2 30 None Toy.world)
               (Toy.quiet "Qh5#") L).
Defined.

(* ================================================================== *)
(** ** The search and the decision always return *)
(* ================================================================== *)

Lemma random_index (r : Q) (len : nat) :
  0 <= r -> r < 1 -> (0 < len)%nat ->
  (Z.to_nat (Js.Math_floor (r * inject_Z (Z.of_nat len))) < len)%nat.
Proof.
  intros H0 H1 Hl. unfold Js.Math_floor.
  set (x := r * inject_Z (Z.of_nat len)).
  assert (Hx0 : 0 <= x).
  { unfold x. apply Qmult_le_0_compat; [exact H0|].
    change 0 with (inject_Z 0). rewrite <- Zle_Qle. lia. }
  assert (Hx1 : x < inject_Z (Z.of_nat len)).
  { unfold x. rewrite <- (Qmult_1_l (inject_Z (Z.of_nat len))) at 2.
    apply Qmult_lt_compat_r; [|exact H1].
    change 0 with (inject_Z 0). rewrite <- Zlt_Qlt. lia. }
  assert (F0 : (0 <= Qfloor x)%Z).
  { change 0%Z with (Qfloor 0). now apply Qfloor_resp_le. }
  assert (F1 : (Qfloor x < Z.of_nat len)%Z).
  { rewrite Zlt_Qlt. eapply Qle_lt_trans; [apply Qfloor_le|exact Hx1]. }
  lia.
Qed.

Section Totality.
Context {Chess : Type} {CO : ChessOracle Chess} {SO : SearchOracle}.
Context {RO : RulesOk CO} {SK : SearchOk SO}.
Implicit Types (tree : MCTS.Tree) (n : MCTS.MCTSNode) (w : World).

Lemma createNode_untried_legal fen mv par :
  Forall (fun m => chess_move (chess_load (MCTS.fen
                                 (MCTS.createNode fen mv par))) m <> None)
         (MCTS.untriedMoves (MCTS.createNode fen mv par)).
Proof.
  simpl. apply Forall_forall. intros m Hm.
  apply in_map_iff in Hm. destruct Hm as (mo & <- & Hmo).
  now apply legal_moves_apply.
Qed.

Lemma expand_returns tree i n w :
  nth_error tree i = Some n -> MCTS.untriedMoves n <> [] ->
  MCTS.untried_legal tree -> World_ok w ->
  exists tree' c, MCTS.expand tree i w = Ok (tree', c, snd (Math_random w)).
Proof.
  intros E U L W. unfold MCTS.expand. rewrite E.
  destruct (MCTS.untriedMoves n) as [|u us] eqn:Un; [congruence|].
  unfold Math_random.
  set (k := Z.to_nat _).
  assert (Hk : (k < List.length (u :: us))%nat).
  { apply random_index; [apply W|apply W|simpl; lia]. }
  destruct (nth_error (u :: us) k) as [m|] eqn:K;
    [|apply nth_error_None in K; lia].
  specialize (L i n E). rewrite Un in L. rewrite Forall_forall in L.
  specialize (L m (nth_error_In _ _ K)).
  destruct (chess_move (chess_load (MCTS.fen n)) m) as [c'|]; [|congruence].
  simpl. eauto.
Qed.

Lemma expand_untried_legal tree i w tree' c w' :
  MCTS.expand tree i w = Ok (tree', c, w') ->
  MCTS.untried_legal tree -> MCTS.untried_legal tree'.
Proof.
  intros H L.
  destruct (expand_inv _ _ _ _ _ _ H)
    as (node & k & m & chess' & E & K & M & -> & -> & ->).
  assert (Hi : (i < List.length tree)%nat)
    by (apply nth_error_Some; congruence).
  intros j x Hj. apply nth_error_snoc in Hj. rewrite update_length in Hj.
  destruct Hj as [Hj|[-> ->]].
  - destruct (Nat.eq_dec i j) as [<-|Hne].
    + rewrite nth_error_update_eq in Hj by assumption.
      inversion Hj; subst x. simpl.
      specialize (L i node E). rewrite Forall_forall in *.
      intros y Hy. apply L. eapply removeAt_incl; eauto.
    + rewrite nth_error_update_neq in Hj by assumption. exact (L j x Hj).
  - apply createNode_untried_legal.
Qed.

Lemma selection_root tree r :
  nth_error tree 0 = Some r -> MCTS.untriedMoves r <> [] ->
  MCTS.selection (List.length tree) tree 0 = Ok 0%nat.
Proof.
  intros E U.
  destruct (List.length tree); cbn [MCTS.selection]; rewrite E;
    destruct (MCTS.untriedMoves r); congruence.
Qed.

(** One simulation on a well-formed tree returns, and keeps it well formed;
    afterwards the root has a child. *)
Lemma simulation_returns turn tree w :
  MCTS.tree_shape tree -> MCTS.untried_legal tree -> MCTS.root_ready tree ->
  World_ok w ->
  exists tree' w',
    MCTS.simulation turn tree w = Ok (tree', w') /\
    MCTS.tree_shape tree' /\ MCTS.untried_legal tree' /\
    MCTS.root_has_child tree' /\ randoms w' = randoms w.
Proof.
  intros S L (r & Er & Rr) W.
  assert (Hlen : (0 < List.length tree)%nat)
    by (apply nth_error_Some; congruence).
  unfold MCTS.simulation.
  destruct (selection_returns tree S (List.length tree) 0%nat Hlen)
    as [node Sel]; [lia|].
  rewrite Sel. cbn [bind].
  pose proof (selection_lands _ _ _ _ Sel) as Hn.
  destruct (nth_error tree node) as [n|] eqn:E;
    [|apply nth_error_None in E; lia].
  assert (X : exists tree1 node1 w1,
             (match MCTS.untriedMoves n with
              | [] => Ok (tree, node, w)
              | _ :: _ => MCTS.expand tree node w
              end) = Ok (tree1, node1, w1) /\
             MCTS.tree_shape tree1 /\ MCTS.untried_legal tree1 /\
             MCTS.root_has_child tree1 /\
             (node1 < List.length tree1)%nat /\
             randoms w1 = randoms w).
  { destruct (MCTS.untriedMoves n) as [|u us] eqn:Un.
    - exists tree, node, w.
      split; [reflexivity|]. split; [exact S|]. split; [exact L|].
      split; [|split; [exact Hn|reflexivity]].
      destruct Rr as [Ur|Cr]; [|exists r; auto].
      (* the root still had untried moves: selection stayed at the root *)
      rewrite (selection_root tree r Er Ur) in Sel. inversion Sel; subst node.
      congruence.
    - destruct (expand_returns tree node n w E) as (t1 & c & X); auto.
      { rewrite Un. discriminate. }
      rewrite X. exists t1, c, (snd (Math_random w)).
      destruct (expand_shape _ _ _ _ _ _ X S) as (S1 & C1 & R0 & R1).
      split; [reflexivity|]. split; [exact S1|].
      split; [eapply expand_untried_legal; eauto|].
      split; [|split; [exact C1|reflexivity]].
      destruct Rr as [Ur|Cr]; [|apply R1; exists r; auto].
      rewrite (selection_root tree r Er Ur) in Sel. inversion Sel; subst node.
      now apply R0. }
  destruct X as (tree1 & node1 & w1 & X & S1 & L1 & R1 & C1 & W1).
  rewrite X. cbn [bind].
  destruct (nth_error tree1 node1) as [n1|] eqn:E1;
    [|apply nth_error_None in E1; lia].
  pose proof (simulate_randoms (MCTS.fen n1) turn w1) as Hs.
  destruct (simulate (MCTS.fen n1) turn w1) as [result w2]. simpl in Hs.
  destruct (backpropagate_returns tree1 S1 (Datatypes.S (List.length tree1))
                                  node1 result)
    as [tree2 B]; [lia|lia|].
  rewrite B. cbn [bind].
  pose proof (backpropagate_links _ _ _ _ _ B) as Lk.
  exists tree2, w2.
  split; [reflexivity|].
  split; [eapply tree_shape_links; eauto|].
  split; [eapply untried_legal_links; eauto|].
  split; [eapply root_has_child_links; eauto|congruence].
Qed.

Lemma World_ok_randoms w w' :
  randoms w' = randoms w -> World_ok w -> World_ok w'.
Proof. intros E W k. rewrite E. apply W. Qed.

Lemma root_has_child_ready tree : MCTS.root_has_child tree -> MCTS.root_ready tree.
Proof. intros (r & E & C). exists r. auto. Qed.

Lemma simulations_return (k : nat) :
  forall turn tree w,
    MCTS.tree_shape tree -> MCTS.untried_legal tree -> MCTS.root_ready tree ->
    World_ok w ->
    exists tree' w',
      MCTS.simulations k turn tree w = Ok (tree', w') /\
      MCTS.tree_shape tree' /\
      ((0 < k)%nat -> MCTS.root_has_child tree') /\
      randoms w' = randoms w.
Proof.
  induction k as [|k IH]; intros turn tree w S L R W; simpl.
  - exists tree, w. split; [reflexivity|]. split; [exact S|].
    split; [lia|reflexivity].
  - destruct (simulation_returns turn tree w S L R W)
      as (t1 & w1 & X & S1 & L1 & R1 & W1).
    rewrite X. cbn [bind fst snd].
    destruct (IH turn t1 w1 S1 L1 (root_has_child_ready _ R1)
                 (World_ok_randoms _ _ W1 W))
      as (t2 & w2 & X2 & S2 & R2 & W2).
    exists t2, w2. split; [exact X2|]. split; [exact S2|].
    split; [|congruence].
    intros _. destruct k; [|apply R2; lia].
    simpl in X2. inversion X2; subst. exact R1.
Qed.

Lemma bestChildLoop_returns tree rest ns bias (b : MCTS.MCTSNode) score :
  Forall (fun c => (c < List.length tree)%nat) rest ->
  exists c, MCTS.bestChildLoop tree rest ns bias (Some b) score = Ok (Some c).
Proof.
  intros F. revert b score.
  induction F as [|x rest Hx F IH]; intros b score; simpl; [eauto|].
  destruct (nth_error tree x) as [n|] eqn:E;
    [|apply nth_error_None in E; lia].
  match goal with
  | |- exists _, (if ?c then _ else _) = _ => destruct c
  end; apply IH.
Qed.

Lemma selectBest_returns tree ns bias :
  MCTS.tree_shape tree -> MCTS.root_has_child tree ->
  exists m, MCTS.selectBest tree ns bias = Ok (Some m).
Proof.
  intros S (r & E & C).
  destruct (S 0%nat r E) as (Cr & _ & _).
  assert (F : Forall (fun c => (c < List.length tree)%nat) (MCTS.children r)).
  { eapply Forall_impl; [|exact Cr]. simpl. intros; lia. }
  assert (X : exists o, MCTS.selectBest tree ns bias = Ok o).
  { unfold MCTS.selectBest. rewrite E.
    destruct (MCTS.children r) as [|c0 cs] eqn:Cn; [congruence|].
    inversion F as [|? ? Hc0 Fcs]; subst.
    destruct (nth_error tree c0) as [n0|] eqn:E0;
      [|apply nth_error_None in E0; lia].
    destruct (bestChildLoop_returns tree (c0 :: cs) ns bias n0
                                    MCTS.NegInfinity F) as [c B].
    rewrite B. cbn [bind]. eauto. }
  destruct X as [o X]. destruct (selectBest_inv _ _ _ _ S X) as [m ->].
  eauto.
Qed.

(** With at least two legal moves and at least one simulation, [mcts] returns
    a move. *)
Lemma mcts_returns fen ns bias w :
  World_ok w -> (1 <= ns)%Z ->
  exists o,
    MCTS.result (MCTS.mcts fen ns bias w) = Ok o /\
    randoms (MCTS.world (MCTS.mcts fen ns bias w)) = randoms w.
Proof.
  intros W Hns. unfold MCTS.mcts.
  destruct (map san (chess_moves (chess_load fen))) as [|m1 [|m2 ms]] eqn:Lm;
    simpl; eauto.
  set (root := MCTS.createNode fen None None).
  assert (L : MCTS.untried_legal [root]).
  { intros [|i] n H; simpl in H; [|destruct i; discriminate].
    inversion H; subst n. apply createNode_untried_legal. }
  assert (R : MCTS.root_ready [root]).
  { exists root. split; [reflexivity|]. left. simpl. rewrite Lm. discriminate. }
  destruct (simulations_return (Z.to_nat ns) (chess_turn (chess_load fen))
                               [root] w (root_shape fen) L R W)
    as (tree & w' & X & S & Rc & Wr).
  fold root. rewrite X. simpl.
  destruct (selectBest_returns tree ns bias S) as [m Hm]; [apply Rc; lia|].
  rewrite Hm. eauto.
Qed.

End Totality.

(* ================================================================== *)
(** ** Quick training *)
(* ================================================================== *)

Lemma sameAgentStats_refl (a : NeuralNetwork) : sameAgentStats a a.
Proof. split; reflexivity. Qed.

Lemma sameAgentStats_trans (a b c : NeuralNetwork) :
  sameAgentStats a b -> sameAgentStats b c -> sameAgentStats a c.
Proof. intros [H1 H2] [H3 H4]. split; congruence. Qed.

Lemma getBookMove_randoms (fen : string) (w : World) :
  randoms (snd (getBookMove fen w)) = randoms w.
Proof.
  unfold getBookMove.
  destruct (JsMap.get _ OPENING_BOOK) as [[|b bs]|]; try reflexivity.
  unfold Math_random. destruct (pickWeighted _ _); reflexivity.
Qed.

Section QuickTrain.
Context {Chess : Type} {CO : ChessOracle Chess} {SO : SearchOracle}.
Context {RO : RulesOk CO} {SK : SearchOk SO}.
Implicit Types (nn : NeuralNetwork) (w : World)
         (g : @GameManager Chess) (s : @Sys Chess).

Lemma epsilonGreedy_frame nn moves first posHash w mv nn' w' :
  epsilonGreedy nn moves first posHash w = (mv, nn', w') ->
  sameAgentStats nn nn' /\ randoms w' = randoms w.
Proof.
  unfold epsilonGreedy, Math_random.
  destruct (Js.ltb _ _);
    [destruct (exploreLoop _ _)|];
    intros H; inversion H; subst; (split; [split|]; reflexivity).
Qed.

Lemma decideMove_frame nn (chess : Chess) w mv nn' w' :
  decideMove nn chess w = (mv, nn', w') ->
  sameAgentStats nn nn' /\ randoms w' = randoms w.
Proof.
  unfold decideMove.
  destruct (chess_moves chess) as [|first others].
  { intros H; inversion H; subst.
    split; [apply sameAgentStats_refl|reflexivity]. }
  destruct (isInBook (chess_fen chess)); [|apply epsilonGreedy_frame].
  unfold Math_random at 1.
  destruct (bookGate _ _).
  - pose proof (getBookMove_randoms (chess_fen chess)
                  (mkWorld (randoms w) (S (randPos w)) (clock w) (clockPos w)))
      as G.
    destruct (getBookMove _ _) as [bookMove w2]. simpl in G.
    destruct (legalBookMove _ _).
    + intros H; inversion H; subst.
      split; [apply sameAgentStats_refl|exact G].
    + intros H. apply epsilonGreedy_frame in H. destruct H as [F R].
      split; [exact F|congruence].
  - intros H. apply epsilonGreedy_frame in H. exact H.
Qed.

Lemma decideMoveWithMCTS_returns nn (chess : Chess) w :
  World_ok w -> (1 <= mctsSimulations nn)%Z ->
  exists mv nn' w',
    decideMoveWithMCTS nn chess w = Ok (mv, nn', w') /\
    sameAgentStats nn nn' /\ randoms w' = randoms w.
Proof.
  intros W Hs. unfold decideMoveWithMCTS.
  destruct (chess_moves chess) as [|first others].
  { exists None, nn, w. split; [reflexivity|].
    split; [apply sameAgentStats_refl|reflexivity]. }
  set (moves := first :: others).
  set (fen := chess_fen chess).
  assert (Search : forall w0, randoms w0 = randoms w ->
            exists mv nn' w',
              (mctsMove <- MCTS.result
                 (MCTS.mcts fen (mctsSimulations nn)
                    match mode nn with
                    | hybrid =>
                        Some (fun m => getQValue (qTable nn) (hashPosition fen) m)
                    | _ => None
                    end w0) ;;
               match MCTS.truthy mctsMove with
               | Some m =>
                   Ok (Some m,
                       pushHistory nn
                         (mkHistory (hashPosition fen) m
                            match find (fun mo => String.eqb (san mo) m) moves with
                            | Some moveObj => evaluateMove moveObj
                            | None => 0
                            end),
                       MCTS.world
                         (MCTS.mcts fen (mctsSimulations nn)
                            match mode nn with
                            | hybrid =>
                                Some (fun m => getQValue (qTable nn)
                                                         (hashPosition fen) m)
                            | _ => None
                            end w0))
               | None =>
                   Ok (decideMove nn chess
                         (MCTS.world
                            (MCTS.mcts fen (mctsSimulations nn)
                               match mode nn with
                               | hybrid =>
                                   Some (fun m => getQValue (qTable nn)
                                                            (hashPosition fen) m)
                               | _ => None
                               end w0)))
               end) = Ok (mv, nn', w') /\
              sameAgentStats nn nn' /\ randoms w' = randoms w).
  { intros w0 E0.
    set (bias := match mode nn with hybrid => _ | _ => None end).
    destruct (mcts_returns fen (mctsSimulations nn) bias w0
                (World_ok_randoms _ _ E0 W) Hs) as (o & R & Wr).
    rewrite R. cbn [bind].
    destruct (MCTS.truthy o) as [m|].
    - eexists _, _, _. split; [reflexivity|].
      split; [split; reflexivity|congruence].
    - destruct (decideMove nn chess _) as [[mv nn'] w'] eqn:D.
      destruct (decideMove_frame _ _ _ _ _ _ D) as [F Rd].
      exists mv, nn', w'. split; [reflexivity|].
      split; [exact F|congruence]. }
  destruct (isInBook fen).
  - pose proof (getBookMove_randoms fen w) as G.
    destruct (getBookMove fen w) as [bookMove w1]. simpl in G.
    destruct (legalBookMove bookMove moves) as [b|].
    + exists (Some b), nn, w1. split; [reflexivity|].
      split; [apply sameAgentStats_refl|exact G].
    + exact (Search w1 G).
  - exact (Search w eq_refl).
Qed.

Lemma decideMoveAuto_returns nn (chess : Chess) w :
  World_ok w -> (1 <= mctsSimulations nn)%Z ->
  exists mv nn' w',
    decideMoveAuto nn chess w = Ok (mv, nn', w') /\
    sameAgentStats nn nn' /\ randoms w' = randoms w.
Proof.
  intros W Hs. unfold decideMoveAuto.
  destruct (mode nn); try now apply decideMoveWithMCTS_returns.
  destruct (decideMove nn chess w) as [[mv nn'] w'] eqn:D.
  destruct (decideMove_frame _ _ _ _ _ _ D) as [F R].
  exists mv, nn', w'. auto.
Qed.


Lemma playGame_returns (fuel : nat) :
  forall g w,
    (gameLength (chess g) < fuel)%nat -> World_ok w ->
    (1 <= mctsSimulations (whiteAI g))%Z ->
    (1 <= mctsSimulations (blackAI g))%Z ->
    exists g' w',
      playGame fuel g w = Ok (g', w') /\
      sameAgentStats (whiteAI g) (whiteAI g') /\
      sameAgentStats (blackAI g) (blackAI g') /\
      randoms w' = randoms w.
Proof.
  induction fuel as [|fuel IH]; intros g w Hf W Hw Hb; [lia|].
  cbn [playGame].
  destruct (chess_isGameOver (chess g)) eqn:Over.
  { exists g, w. split; [reflexivity|].
    split; [apply sameAgentStats_refl|].
    split; [apply sameAgentStats_refl|reflexivity]. }
  remember (match chess_turn (chess g) with
            | white => true | black => false end) as isWhite eqn:Tw.
  clear Tw.
  destruct (decideMoveAuto_returns (if isWhite then whiteAI g else blackAI g)
                                   (chess g) w W)
    as (mv & ai & w1 & D & F & R).
  { destruct isWhite; assumption. }
  rewrite D. cbn [bind].
  set (g1 := if isWhite then set_whiteAI ai g else set_blackAI ai g).
  assert (Fw : sameAgentStats (whiteAI g) (whiteAI g1)).
  { unfold g1. destruct isWhite; [exact F|apply sameAgentStats_refl]. }
  assert (Fb : sameAgentStats (blackAI g) (blackAI g1)).
  { unfold g1. destruct isWhite; [apply sameAgentStats_refl|exact F]. }
  assert (Cg : chess g1 = chess g).
  { unfold g1. destruct isWhite; reflexivity. }
  destruct (truthyMove mv) as [m|].
  - destruct (chess_move (chess g1) m) as [c'|] eqn:M.
    + rewrite Cg in M.
      pose proof (game_progress _ _ Over M) as P.
      destruct (IH (set_chess c' g1) w1) as (g' & w' & X & Fw' & Fb' & R').
      * simpl. lia.
      * eapply World_ok_randoms; eauto.
      * simpl. destruct Fw as [_ ->]. exact Hw.
      * simpl. destruct Fb as [_ ->]. exact Hb.
      * exists g', w'. split; [exact X|].
        split; [eapply sameAgentStats_trans; [exact Fw|exact Fw']|].
        split; [eapply sameAgentStats_trans; [exact Fb|exact Fb']|].
        congruence.
    + exists g1, w1. auto.
  - exists g1, w1. auto.
Qed.

Lemma updateStats_frame (r : GameResult) nn w nn' w' :
  updateStats r nn w = (nn', w') ->
  gamesPlayed nn' = (gamesPlayed nn + 1)%Z /\
  mctsSimulations nn' = mctsSimulations nn /\
  randoms w' = randoms w.
Proof.
  destruct r; simpl; intros H; inversion H; subst; auto.
Qed.

Lemma settle_frame (winner : Winner) g w g' w' :
  settle winner g w = (g', w') ->
  gamesPlayed (whiteAI g') = (gamesPlayed (whiteAI g) + 1)%Z /\
  gamesPlayed (blackAI g') = (gamesPlayed (blackAI g) + 1)%Z /\
  mctsSimulations (whiteAI g') = mctsSimulations (whiteAI g) /\
  mctsSimulations (blackAI g') = mctsSimulations (blackAI g) /\
  randoms w' = randoms w /\
  chess g' = chess g.
Proof.
  unfold settle. destruct winner;
    repeat match goal with
           | |- context [updateStats ?r ?a ?x] =>
               let E := fresh "E" in
               destruct (updateStats r a x) eqn:E;
               apply updateStats_frame in E; destruct E as (? & ? & ?)
           end;
    intros X; inversion X; subst; simpl;
    repeat split; try assumption; try reflexivity; congruence.
Qed.

Lemma tallyUp_total (winner : Winner) (t : Tally) :
  tallyTotal (tallyUp winner t) = (tallyTotal t + 1)%Z.
Proof. unfold tallyTotal. destruct winner; simpl; lia. Qed.

End QuickTrain.

(** The three-ply game keeps the contract the theorem asks of chess.js. *)
Lemma toy_legal_moves_apply (c : Toy.Chess) (m : Move) :
  In m (Toy.moves c) -> Toy.move c (san m) <> None.
Proof.
  intros H. unfold Toy.move.
  assert (E : existsb (fun mo => String.eqb (san mo) (san m)) (Toy.moves c)
              = true).
  { apply existsb_exists. exists m. split; [exact H|apply String.eqb_refl]. }
  rewrite E. discriminate.
Qed.

Lemma toy_game_progress (c : Toy.Chess) (m : string) (c' : Toy.Chess) :
  Toy.isGameOver c = false -> Toy.move c m = Some c' ->
  (Toy.pliesLeft c' < Toy.pliesLeft c)%nat.
Proof.
  unfold Toy.isGameOver, Toy.move, Toy.pliesLeft, Toy.ply. intros Over M.
  apply Nat.leb_gt in Over.
  destruct (existsb _ _); [|discriminate].
  inversion M; subst. rewrite length_app.
  change (List.length [m]) with 1%nat. lia.
Qed.

Lemma toy_rules_ok : RulesOk Toy.oracle.
Proof.
  exact (Build_RulesOk Toy.oracle toy_legal_moves_apply Toy.pliesLeft
                       toy_game_progress).
Defined.

Lemma toy_search_ok : SearchOk Toy.search.
Proof. constructor. reflexivity. Defined.

Lemma toy_world_ok : World_ok Toy.world.
Proof. intros k. simpl. split; [apply Qle_refl|reflexivity]. Qed.

(* ================================================================== *)
(** ** Value store: visits and untouched entries *)
(* ================================================================== *)

(** X1. Every write counts one visit: after [setQValue] the visit count of
    the written position-move pair is one more than before, where a pair that
    was not stored counts as zero visits. *)
Theorem x1_setQValue_counts_one_visit :
  forall (qt : QTable) (posHash move : string) (v : Q),
    getVisits (setQValue qt posHash move v) posHash move =
      (getVisits qt posHash move + 1)%Z.
Proof.
  intros qt p m v. unfold getVisits, setQValue.
  rewrite get_set_same.
  unfold JsMap.has. destruct (JsMap.get p qt) as [pe|] eqn:G.
  - rewrite G, get_set_same. simpl.
    destruct (JsMap.get m pe); reflexivity.
  - rewrite !get_set_same. reflexivity.
Qed.

(** X2. A write that does not evict (the position is already stored, or the
    table is not full) leaves the value and the visit count of every other
    position-move pair as they were. *)
Theorem x2_setQValue_leaves_other_pairs :
  forall (qt : QTable) (posHash move : string) (v : Q)
         (posHash' move' : string),
    JsMap.has posHash qt = true \/ (JsMap.size qt < MAX_POSITIONS)%Z ->
    posHash' <> posHash \/ move' <> move ->
    getQValue (setQValue qt posHash move v) posHash' move' =
      getQValue qt posHash' move' /\
    getVisits (setQValue qt posHash move v) posHash' move' =
      getVisits qt posHash' move'.
Proof.
  intros qt p m v p' m' Hroom Hother.
  assert (E : JsMap.get p' (setQValue qt p m v) =
              if String.eqb p' p
              then Some (JsMap.set m
                           (mkEntry v (match JsMap.get m
                                               (match JsMap.get p qt with
                                                | Some e => e | None => [] end)
                                       with
                                       | Some e => (visits e + 1)%Z
                                       | None => 1%Z
                                       end))
                           (match JsMap.get p qt with
                            | Some e => e | None => [] end))
              else JsMap.get p' qt).
  { unfold setQValue, JsMap.has.
    destruct (JsMap.get p qt) as [pe|] eqn:G.
    - rewrite G. destruct (String.eqb_spec p' p) as [->|Hne].
      + now rewrite get_set_same.
      + rewrite get_set_other by congruence. reflexivity.
    - assert (Hfree : (MAX_POSITIONS <=? JsMap.size qt)%Z = false).
      { destruct Hroom as [H|H].
        - unfold JsMap.has in H. rewrite G in H. discriminate.
        - apply Z.leb_gt. exact H. }
      rewrite Hfree, get_set_same.
      destruct (String.eqb_spec p' p) as [->|Hne].
      + now rewrite get_set_same.
      + rewrite !get_set_other by congruence. reflexivity. }
  unfold getQValue, getVisits. rewrite E.
  destruct (String.eqb_spec p' p) as [->|Hne]; [|split; reflexivity].
  assert (Hm : m <> m') by (destruct Hother; congruence).
  rewrite get_set_other by exact Hm.
  destruct (JsMap.get p qt); split; reflexivity.
Qed.

Lemma x2_setQValue_leaves_other_pairs_witness :
  (JsMap.has "rnbqkbnr/pppppppp/8/8/8/8/PPPPPPPP/RNBQKBNR w KQkq -"
             (qTable sampleAgent) = true \/
   (JsMap.size (qTable sampleAgent) < MAX_POSITIONS)%Z) /\
  getQValue (setQValue (qTable sampleAgent)
               "rnbqkbnr/pppppppp/8/8/8/8/PPPPPPPP/RNBQKBNR w KQkq -"
               "d4" (1 # 2))
            "rnbqkbnr/pppppppp/8/8/8/8/PPPPPPPP/RNBQKBNR w KQkq -" "e4"
    = 1 # 10 /\
  getVisits (setQValue (qTable sampleAgent)
               "rnbqkbnr/pppppppp/8/8/8/8/PPPPPPPP/RNBQKBNR w KQkq -"
               "d4" (1 # 2))
            "rnbqkbnr/pppppppp/8/8/8/8/PPPPPPPP/RNBQKBNR w KQkq -" "e4"
    = 2%Z.
Proof.
  assert (H : JsMap.has "rnbqkbnr/pppppppp/8/8/8/8/PPPPPPPP/RNBQKBNR w KQkq -"
                        (qTable sampleAgent) = true \/
              (JsMap.size (qTable sampleAgent) < MAX_POSITIONS)%Z)
    by (left; reflexivity).
  split; [exact H|].
  apply (x2_setQValue_leaves_other_pairs (qTable sampleAgent)
           "rnbqkbnr/pppppppp/8/8/8/8/PPPPPPPP/RNBQKBNR w KQkq -" "d4" (1 # 2)
           "rnbqkbnr/pppppppp/8/8/8/8/PPPPPPPP/RNBQKBNR w KQkq -" "e4" H).
  right. discriminate.
Defined.

(* ================================================================== *)
(** ** Learning and statistics keep the agent consistent *)
(* ================================================================== *)

Lemma backwardPropagation_inv (lr df : Q) (trace : list HistoryEntry) :
  forall c qt,
    qTable_wf qt -> (JsMap.size qt <= MAX_POSITIONS)%Z ->
    qTable_wf (backwardPropagation lr df trace c qt) /\
    (JsMap.size (backwardPropagation lr df trace c qt) <= MAX_POSITIONS)%Z.
Proof.
  induction trace as [|h t IH]; intros c qt Hwf Hsz; simpl; [auto|].
  apply IH; [now apply setQValue_wf|now apply setQValue_size].
Qed.

(** X3. Learning from a game never breaks the value store: whatever the
    recorded trace, after [learn] the table still has distinct keys and holds
    at most 10,000 positions; the trace is empty and the counters and the
    rating are as before. *)
Theorem x3_learn_keeps_store_within_bound :
  forall (result : GameResult) (nn : NeuralNetwork),
    qTable_wf (qTable nn) ->
    (JsMap.size (qTable nn) <= MAX_POSITIONS)%Z ->
    qTable_wf (qTable (learn result nn)) /\
    (JsMap.size (qTable (learn result nn)) <= MAX_POSITIONS)%Z /\
    gameHistory (learn result nn) = [] /\
    gamesPlayed (learn result nn) = gamesPlayed nn /\
    elo (learn result nn) = elo nn.
Proof.
  intros result nn Hwf Hsz.
  assert (E : qTable (learn result nn) =
              backwardPropagation LEARNING_RATE DISCOUNT_FACTOR
                (rev (firstn (List.length (gameHistory nn)) (gameHistory nn)))
                (finalReward result) (qTable nn)).
  { unfold learn. simpl qTable. apply learnLoop_backward. lia. }
  rewrite E.
  destruct (backwardPropagation_inv LEARNING_RATE DISCOUNT_FACTOR
              (rev (firstn (List.length (gameHistory nn)) (gameHistory nn)))
              (finalReward result) (qTable nn) Hwf Hsz) as [A B].
  split; [exact A|]. split; [exact B|]. repeat split.
Qed.

Lemma x3_learn_keeps_store_within_bound_witness :
  qTable_wf (qTable sampleAgent) /\
  (JsMap.size (qTable sampleAgent) <= MAX_POSITIONS)%Z /\
  (JsMap.size (qTable (learn win sampleAgent)) <= MAX_POSITIONS)%Z /\
  gameHistory (learn win sampleAgent) = [].
Proof.
  assert (Hsz : (JsMap.size (qTable sampleAgent) <= MAX_POSITIONS)%Z)
    by (vm_compute; discriminate).
  split; [exact sampleAgent_wf|]. split; [exact Hsz|].
  destruct (x3_learn_keeps_store_within_bound win sampleAgent
              sampleAgent_wf Hsz) as (_ & B & C & _).
  split; [exact B|exact C].
Defined.

(** One decay step [max(0.05, rate * 0.995)] ends between the floor and the
    larger of the floor and the rate before. *)
Lemma decay_between (x : Q) :
  MIN_EXPLORATION <= Qmax MIN_EXPLORATION (x * EXPLORATION_DECAY) /\
  Qmax MIN_EXPLORATION (x * EXPLORATION_DECAY) <= Qmax MIN_EXPLORATION x.
Proof.
  split; [apply Q.le_max_l|].
  apply Q.max_lub; [apply Q.le_max_l|].
  destruct (Q.max_spec MIN_EXPLORATION x) as [[L E]|[L E]]; rewrite E;
    unfold MIN_EXPLORATION, EXPLORATION_DECAY in *; lra.
Qed.

Lemma finish_rate (r : GameResult) (a : NeuralNetwork) (w : World) :
  explorationRate (learn r (fst (updateStats r a w)))
  = Qmax MIN_EXPLORATION (explorationRate a * EXPLORATION_DECAY).
Proof. destruct r; unfold updateStats, Math_random; reflexivity. Qed.

Lemma decay_power_le_1 (games : Z) :
  (0 <= games)%Z ->
  0 <= EXPLORATION_DECAY ^ games /\ EXPLORATION_DECAY ^ games <= 1.
Proof.
  intros H. pattern games. apply natlike_ind; [| |exact H].
  - split; [discriminate|apply Qle_refl].
  - intros k Hk [P0 P1]. unfold Z.succ.
    rewrite Qpower_plus by (intros E; discriminate E).
    change (EXPLORATION_DECAY ^ 1) with EXPLORATION_DECAY.
    unfold EXPLORATION_DECAY in *. split; nra.
Qed.

Section SettleFacts.
Context {Chess : Type} {CO : ChessOracle Chess} {SO : SearchOracle}.

Lemma settle_agents (winner : Winner) (g : @GameManager Chess) (w : World) :
  exists rw rb w1 w2,
    whiteAI (fst (settle winner g w))
      = learn rw (fst (updateStats rw (whiteAI g) w1)) /\
    blackAI (fst (settle winner g w))
      = learn rb (fst (updateStats rb (blackAI g) w2)) /\
    (winner = winner_white /\ rw = win /\ rb = loss \/
     winner = winner_black /\ rw = loss /\ rb = win \/
     winner = winner_draw /\ rw = draw /\ rb = draw).
Proof.
  destruct winner; unfold settle.
  - exists win, loss, w, (snd (updateStats win (whiteAI g) w)).
    destruct (updateStats win (whiteAI g) w) as [a1 w1] eqn:U1. simpl.
    destruct (updateStats loss (blackAI g) w1) as [a2 w2] eqn:U2. simpl.
    repeat split; auto.
  - exists loss, win, (snd (updateStats win (blackAI g) w)), w.
    destruct (updateStats win (blackAI g) w) as [a1 w1] eqn:U1. simpl.
    destruct (updateStats loss (whiteAI g) w1) as [a2 w2] eqn:U2. simpl.
    repeat split; auto 6.
  - exists draw, draw, w, (snd (updateStats draw (whiteAI g) w)).
    destruct (updateStats draw (whiteAI g) w) as [a1 w1] eqn:U1. simpl.
    destruct (updateStats draw (blackAI g) w1) as [a2 w2] eqn:U2. simpl.
    repeat split; auto 6.
Qed.

(** X4. A finished game never raises an agent's exploration rate and never
    takes it below the floor: after [updateStats] and [learn] have run on
    both agents, each agent's rate is at least 0.05 and at most the larger of
    0.05 and its rate before, so a rate that was at or above the floor has
    not grown.  An agent loaded from a snapshot whose game count is not
    negative starts at a rate between 0.05 and 0.3. *)
Theorem x4_settle_keeps_exploration_above_floor :
  forall (winner : Winner) (g : @GameManager Chess) (w : World),
    let g' := fst (settle winner g w) in
    (MIN_EXPLORATION <= explorationRate (whiteAI g') /\
     explorationRate (whiteAI g')
       <= Qmax MIN_EXPLORATION (explorationRate (whiteAI g))) /\
    (MIN_EXPLORATION <= explorationRate (blackAI g') /\
     explorationRate (blackAI g')
       <= Qmax MIN_EXPLORATION (explorationRate (blackAI g))) /\
    (MIN_EXPLORATION <= explorationRate (whiteAI g) ->
     explorationRate (whiteAI g') <= explorationRate (whiteAI g)) /\
    (MIN_EXPLORATION <= explorationRate (blackAI g) ->
     explorationRate (blackAI g') <= explorationRate (blackAI g)) /\
    forall (state : AIState) (target : NeuralNetwork),
      MIN_EXPLORATION <= explorationRate (importState state target) /\
      ((0 <= st_gamesPlayed state)%Z ->
       explorationRate (importState state target) <= INITIAL_EXPLORATION).
Proof.
  intros winner g w g'.
  destruct (settle_agents winner g w) as (rw & rb & w1 & w2 & Ew & Eb & _).
  assert (Rw : explorationRate (whiteAI g')
               = Qmax MIN_EXPLORATION
                      (explorationRate (whiteAI g) * EXPLORATION_DECAY)).
  { unfold g'. rewrite Ew. apply finish_rate. }
  assert (Rb : explorationRate (blackAI g')
               = Qmax MIN_EXPLORATION
                      (explorationRate (blackAI g) * EXPLORATION_DECAY)).
  { unfold g'. rewrite Eb. apply finish_rate. }
  rewrite Rw, Rb.
  split; [apply decay_between|]. split; [apply decay_between|].
  split.
  { intros H. eapply Qle_trans; [apply decay_between|].
    rewrite Q.max_r by exact H. apply Qle_refl. }
  split.
  { intros H. eapply Qle_trans; [apply decay_between|].
    rewrite Q.max_r by exact H. apply Qle_refl. }
  intros state target. unfold importState. cbn [explorationRate].
  unfold Js.Math_max, Js.Math_pow.
  split; [apply Q.le_max_l|].
  intros H. destruct (decay_power_le_1 _ H) as [P0 P1].
  apply Q.max_lub; [discriminate|].
  unfold INITIAL_EXPLORATION in *. nra.
Qed.

End SettleFacts.

(** X5. [updateStats] counts every game exactly once and keeps the streak
    records consistent: the games played grow by one; if they were the sum of
    wins, losses and draws they still are; and if the running streak lay
    between minus the best loss streak and the best win streak it still
    does, with neither record ever shrinking. *)
Theorem x5_updateStats_keeps_counters_consistent :
  forall (result : GameResult) (nn : NeuralNetwork) (w : World),
    tally_ok nn -> streaks_ok nn ->
    let nn' := fst (updateStats result nn w) in
    gamesPlayed nn' = (gamesPlayed nn + 1)%Z /\
    tally_ok nn' /\ streaks_ok nn' /\
    (bestWinStreak nn <= bestWinStreak nn')%Z /\
    (bestLossStreak nn <= bestLossStreak nn')%Z /\
    match result with
    | win => (1 <= currentStreak nn')%Z
    | loss => (currentStreak nn' <= -1)%Z
    | draw => currentStreak nn' = 0%Z
    end.
Proof.
  intros result nn w T (Bw & Bl & S1 & S2) nn'. unfold nn', tally_ok, streaks_ok in *.
  destruct result; unfold updateStats, Math_random; simpl.
  - destruct (Z.ltb_spec 0 (currentStreak nn)); repeat split; lia.
  - destruct (Z.ltb_spec (currentStreak nn) 0); repeat split; lia.
  - repeat split; lia.
Qed.

Lemma x5_updateStats_keeps_counters_consistent_witness :
  tally_ok sampleAgent /\ streaks_ok sampleAgent /\
  gamesPlayed (fst (updateStats loss sampleAgent Toy.world)) = 4%Z /\
  currentStreak (fst (updateStats loss sampleAgent Toy.world)) = (-1)%Z.
Proof.
  assert (T : tally_ok sampleAgent) by reflexivity.
  assert (S : streaks_ok sampleAgent) by (unfold streaks_ok; simpl; lia).
  split; [exact T|]. split; [exact S|].
  split; [|reflexivity].
  exact (proj1 (x5_updateStats_keeps_counters_consistent
                  loss sampleAgent Toy.world T S)).
Defined.

(** X6. The rating never falls below 100: after a loss it is at least 100
    whatever it was, and a rating of at least 100 stays so after every
    result (the random gain of a win is never negative).  Only a loss can
    lower the rating. *)
Theorem x6_updateStats_rating_floor :
  forall (result : GameResult) (nn : NeuralNetwork) (w : World),
    World_ok w ->
    let nn' := fst (updateStats result nn w) in
    (100 <= elo nn -> 100 <= elo nn') /\
    (result = loss -> 100 <= elo nn') /\
    (result <> loss -> elo nn <= elo nn').
Proof.
  intros result nn w W nn'.
  destruct (W (randPos w)) as [R0 R1].
  assert (G : 0 <= 15 + randoms w (randPos w) * 5).
  { apply (Qle_trans _ (15 + 0 * 5)); [unfold Qle; simpl; lia|].
    apply Qplus_le_r. apply Qmult_le_compat_r; [exact R0|unfold Qle; simpl; lia]. }
  assert (Up : result <> loss -> elo nn <= elo nn').
  { intros Hr. unfold nn'.
    destruct result; unfold updateStats, Math_random; simpl.
    - rewrite <- (Qplus_0_r (elo nn)) at 1. now apply Qplus_le_r.
    - congruence.
    - rewrite <- (Qplus_0_r (elo nn)) at 1.
      apply Qplus_le_r. unfold Qle; simpl; lia. }
  assert (Lo : result = loss -> 100 <= elo nn').
  { intros ->. unfold nn', updateStats. simpl. apply Q.le_max_l. }
  split; [|split; assumption].
  intros H. destruct result; try (now apply Lo);
    (eapply Qle_trans; [exact H|apply Up; discriminate]).
Qed.

Lemma x6_updateStats_rating_floor_witness :
  World_ok Toy.world /\
  100 <= elo (fst (updateStats loss (newNeuralNetwork white 105) Toy.world)).
Proof.
  split; [exact toy_world_ok|].
  apply (x6_updateStats_rating_floor loss (newNeuralNetwork white 105)
           Toy.world toy_world_ok).
  reflexivity.
Defined.

(* ================================================================== *)
(** ** The move decision *)
(* ================================================================== *)

Lemma leb_true (a b : Q) : Js.leb a b = true <-> a <= b.
Proof. unfold Js.leb. apply Qle_bool_iff. Qed.

Lemma leb_false (a b : Q) : Js.leb a b = false <-> b < a.
Proof.
  unfold Js.leb. split; intros H.
  - apply Qnot_le_lt. intros L. apply Qle_bool_iff in L. congruence.
  - destruct (Qle_bool a b) eqn:E; [|reflexivity].
    apply Qle_bool_iff in E. exfalso. exact (Qlt_not_le _ _ H E).
Qed.

Lemma ltb_true (a b : Q) : Js.ltb a b = true <-> a < b.
Proof.
  unfold Js.ltb. rewrite negb_true_iff. apply (leb_false b a).
Qed.

Lemma ltb_false (a b : Q) : Js.ltb a b = false <-> b <= a.
Proof.
  unfold Js.ltb. rewrite negb_false_iff. apply (leb_true b a).
Qed.

Lemma evaluateMove_range (m : Move) :
  0 <= evaluateMove m /\ evaluateMove m <= 2.9.
Proof.
  unfold evaluateMove.
  destruct (captured m) as [[]|]; destruct (promotion m);
    destruct (Js.includes "+" (san m)); destruct (Js.includes "#" (san m));
    split; unfold Qle; simpl; lia.
Qed.

Lemma fold_Qplus_shift (l : list Q) (a : Q) :
  fold_left Qplus l a == a + fold_left Qplus l 0.
Proof.
  revert a. induction l as [|x l IH]; intros a; simpl.
  - now rewrite Qplus_0_r.
  - rewrite (IH (a + x)), (IH (0 + x)). ring.
Qed.

Lemma exploreTotalWeight_cons (m : Move) (rest : list Move) :
  exploreTotalWeight (m :: rest)
  == (1 + evaluateMove m) + exploreTotalWeight rest.
Proof.
  unfold exploreTotalWeight. simpl. rewrite fold_Qplus_shift. ring.
Qed.

Lemma exploreTotalWeight_nonneg (moves : list Move) :
  0 <= exploreTotalWeight moves.
Proof.
  induction moves as [|m rest IH]; [unfold exploreTotalWeight; simpl; apply Qle_refl|].
  rewrite exploreTotalWeight_cons.
  destruct (evaluateMove_range m) as [E _].
  apply (Qle_trans _ (0 + 0)); [apply Qle_refl|].
  apply Qplus_le_compat; [|exact IH].
  apply (Qle_trans _ (1 + 0)); [unfold Qle; simpl; lia|].
  now apply Qplus_le_r.
Qed.

Lemma exploreTotalWeight_app (l1 l2 : list Move) :
  exploreTotalWeight (l1 ++ l2)
  == exploreTotalWeight l1 + exploreTotalWeight l2.
Proof.
  induction l1 as [|m l1 IH]; simpl app.
  - unfold exploreTotalWeight at 2. simpl. ring.
  - rewrite !exploreTotalWeight_cons, IH. ring.
Qed.

(** The exploring loop returns the move whose stretch of the summed
    weights holds the number drawn. *)
Lemma exploreLoop_picks (l1 : list Move) (m : Move) (l2 : list Move) :
  forall x,
    exploreTotalWeight l1 < x ->
    x <= exploreTotalWeight l1 + (1 + evaluateMove m) ->
    exploreLoop (l1 ++ m :: l2) x = Some m.
Proof.
  induction l1 as [|a l1 IH]; intros x Lo Hi; simpl app;
    cbn [exploreLoop]; cbv zeta.
  - assert (E : Js.leb (x - (1 + evaluateMove m)) 0 = true).
    { apply leb_true. unfold exploreTotalWeight in Hi. simpl in Hi. lra. }
    rewrite E. reflexivity.
  - rewrite exploreTotalWeight_cons in Lo, Hi.
    pose proof (exploreTotalWeight_nonneg l1) as N.
    assert (E : Js.leb (x - (1 + evaluateMove a)) 0 = false).
    { apply leb_false. lra. }
    rewrite E. apply IH; lra.
Qed.

(** X7. Exploring leaves no legal move out: every move's weight is at least
    one, so for each listed move there is a draw in [0, 1) on which the
    exploring branch picks it.  When the first draw is below the exploration
    rate and the second is that draw, the policy returns the move and records
    it in the trace. *)
Theorem x7_exploring_can_pick_every_move :
  forall (nn : NeuralNetwork) (moves : list Move) (first : Move)
         (posHash : string) (m : Move),
    In m moves ->
    exists draw : Q,
      0 <= draw /\ draw < 1 /\
      forall w : World,
        randoms w (randPos w) < explorationRate nn ->
        randoms w (S (randPos w)) = draw ->
        epsilonGreedy nn moves first posHash w =
          (Some (san m),
           pushHistory nn (mkHistory posHash (san m) (evaluateMove m)),
           mkWorld (randoms w) (S (S (randPos w))) (clock w) (clockPos w)).
Proof.
  intros nn moves first posHash m I.
  destruct (in_split _ _ I) as (l1 & l2 & ->).
  pose proof (exploreTotalWeight_nonneg l1) as N1.
  pose proof (exploreTotalWeight_nonneg l2) as N2.
  destruct (evaluateMove_range m) as [E0 _].
  set (total := exploreTotalWeight (l1 ++ m :: l2)).
  assert (T : total == exploreTotalWeight l1 + (1 + evaluateMove m)
                       + exploreTotalWeight l2).
  { unfold total.
    rewrite exploreTotalWeight_app, exploreTotalWeight_cons. ring. }
  assert (Tpos : 0 < total) by lra.
  set (x := exploreTotalWeight l1 + (1 + evaluateMove m) * (1 # 2)).
  assert (X : (x / total) * total == x).
  { field. intros Z. rewrite Z in Tpos. discriminate Tpos. }
  exists (x / total).
  split.
  { apply Qle_shift_div_l; [exact Tpos|]. unfold x. lra. }
  split.
  { apply Qlt_shift_div_r; [exact Tpos|]. unfold x. lra. }
  intros w Hr Hd.
  unfold epsilonGreedy, Math_random. cbv zeta.
  cbn [randoms randPos clock clockPos fst snd].
  apply ltb_true in Hr. rewrite Hr, Hd.
  fold (exploreTotalWeight (l1 ++ m :: l2)). fold total.
  rewrite (exploreLoop_picks l1 m l2 (x / total * total)).
  - reflexivity.
  - rewrite X. unfold x. lra.
  - rewrite X. unfold x. lra.
Qed.

Lemma x7_exploring_can_pick_every_move_witness :
  In move_Qxf7 [move_e4; move_Qxf7] /\
  exists draw : Q,
    0 <= draw /\ draw < 1 /\
    forall w : World,
      randoms w (randPos w) < explorationRate sampleAgent ->
      randoms w (S (randPos w)) = draw ->
      fst (fst (epsilonGreedy sampleAgent [move_e4; move_Qxf7] move_e4
                              "key" w))
      = Some "Qxf7+"%string.
Proof.
  assert (I : In move_Qxf7 [move_e4; move_Qxf7]) by (right; left; reflexivity).
  split; [exact I|].
  destruct (x7_exploring_can_pick_every_move sampleAgent
              [move_e4; move_Qxf7] move_e4 "key" move_Qxf7 I)
    as (draw & D0 & D1 & P).
  exists draw. split; [exact D0|]. split; [exact D1|].
  intros w Hr Hd. rewrite (P w Hr Hd). reflexivity.
Defined.

Lemma exploitLoop_best (qt : QTable) (posHash : string) (moves : list Move) :
  forall best,
    let r := exploitLoop qt posHash moves best
                         (Some (exploitScore qt posHash best)) in
    (r = best \/ In r moves) /\
    exploitScore qt posHash best <= exploitScore qt posHash r /\
    forall m, In m moves ->
              exploitScore qt posHash m <= exploitScore qt posHash r.
Proof.
  induction moves as [|m rest IH]; intros best; simpl.
  - split; [now left|]. split; [apply Qle_refl|tauto].
  - fold (exploitScore qt posHash m).
    destruct (Js.gtb (exploitScore qt posHash m) (exploitScore qt posHash best))
      eqn:E.
    + destruct (IH m) as (A & B & C).
      apply gtb_true in E.
      split; [destruct A as [->|A]; auto|].
      split; [eapply Qle_trans; [apply Qlt_le_weak; exact E|exact B]|].
      intros m' [<-|I]; [exact B|now apply C].
    + destruct (IH best) as (A & B & C).
      assert (L : exploitScore qt posHash m <= exploitScore qt posHash best).
      { apply ltb_false. exact E. }
      split; [destruct A as [->|A]; auto|].
      split; [exact B|].
      intros m' [<-|I]; [eapply Qle_trans; [exact L|exact B]|now apply C].
Qed.

Lemma exploitLoop_first (qt : QTable) (posHash : string) (first : Move)
      (others : list Move) :
  let best := exploitLoop qt posHash (first :: others) first None in
  In best (first :: others) /\
  forall m, In m (first :: others) ->
            exploitScore qt posHash m <= exploitScore qt posHash best.
Proof.
  intros best.
  assert (E : best = exploitLoop qt posHash others first
                       (Some (exploitScore qt posHash first)))
    by reflexivity.
  destruct (exploitLoop_best qt posHash others first) as (A & B & C).
  rewrite <- E in A, B, C.
  split; [destruct A as [->|A]; [now left|now right]|].
  intros m [<-|I]; [exact B|now apply C].
Qed.

(** X8. When the agent exploits, it plays a legal move whose learned value
    plus immediate value is the largest among the legal moves; and that is
    what [decideMove]'s epsilon-greedy step returns and records whenever the
    first draw is not below the exploration rate. *)
Theorem x8_exploiting_picks_a_best_move :
  forall (nn : NeuralNetwork) (first : Move) (others : list Move)
         (posHash : string) (w : World),
    let moves := first :: others in
    let best := exploitLoop (qTable nn) posHash moves first None in
    In best moves /\
    (forall m, In m moves ->
               exploitScore (qTable nn) posHash m
               <= exploitScore (qTable nn) posHash best) /\
    (explorationRate nn <= randoms w (randPos w) ->
     epsilonGreedy nn moves first posHash w =
       (Some (san best),
        pushHistory nn (mkHistory posHash (san best) (evaluateMove best)),
        mkWorld (randoms w) (S (randPos w)) (clock w) (clockPos w))).
Proof.
  intros nn first others posHash w moves best.
  destruct (exploitLoop_first (qTable nn) posHash first others) as [A B].
  split; [exact A|]. split; [exact B|].
  intros Hr. apply ltb_false in Hr.
  unfold epsilonGreedy, Math_random. simpl fst. simpl snd.
  cbv zeta. rewrite Hr. reflexivity.
Qed.

Section DecideFacts.
Context {Chess : Type} {CO : ChessOracle Chess} {SO : SearchOracle}.

Lemma legalBookMove_listed (bookMove : option string) (moves : list Move)
      (b : string) :
  legalBookMove bookMove moves = Some b ->
  exists m, In m moves /\ san m = b.
Proof.
  unfold legalBookMove. destruct bookMove as [[|c s]|]; try discriminate.
  destruct (existsb _ moves) eqn:E; [|discriminate].
  intros H; inversion H; subst b.
  apply existsb_exists in E. destruct E as (m & I & Em).
  apply String.eqb_eq in Em. eauto.
Qed.

Lemma exploreLoop_In (moves : list Move) :
  forall x m, exploreLoop moves x = Some m -> In m moves.
Proof.
  induction moves as [|a l IH]; intros x m; simpl; [discriminate|].
  destruct (Js.leb _ _); [intros H; inversion H; now left|].
  intros H. right. exact (IH _ _ H).
Qed.

Lemma epsilonGreedy_listed (nn : NeuralNetwork) (first : Move)
      (others : list Move) (posHash : string) (w : World) :
  exists m,
    In m (first :: others) /\
    fst (fst (epsilonGreedy nn (first :: others) first posHash w))
      = Some (san m) /\
    snd (fst (epsilonGreedy nn (first :: others) first posHash w))
      = pushHistory nn (mkHistory posHash (san m) (evaluateMove m)) /\
    (randPos w < randPos (snd (epsilonGreedy nn (first :: others) first
                                             posHash w))
     <= randPos w + 2)%nat.
Proof.
  destruct (exploitLoop_first (qTable nn) posHash first others) as [I _].
  remember (first :: others) as moves eqn:Hm. clear Hm.
  unfold epsilonGreedy, Math_random. cbv zeta.
  destruct (Js.ltb _ _).
  - destruct (exploreLoop moves _) as [m|] eqn:L.
    + exists m. simpl. split; [exact (exploreLoop_In _ _ _ L)|].
      repeat split; lia.
    + eexists. simpl. split; [exact I|]. repeat split; lia.
  - eexists. simpl. split; [exact I|]. repeat split; lia.
Qed.

Lemma getBookMove_randPos (fen : string) (w : World) :
  (randPos w <= randPos (snd (getBookMove fen w)) <= randPos w + 1)%nat.
Proof.
  unfold getBookMove.
  destruct (JsMap.get _ OPENING_BOOK) as [[|b bs]|];
    [simpl; lia| |simpl; lia].
  unfold Math_random. cbv zeta.
  destruct (pickWeighted _ _); cbn [snd randPos]; lia.
Qed.

Lemma epsilonGreedy_cases (nn : NeuralNetwork) (first : Move)
      (others : list Move) (posHash : string) (w : World)
      (mv : option string) (nn' : NeuralNetwork) (w' : World) :
  epsilonGreedy nn (first :: others) first posHash w = (mv, nn', w') ->
  exists m,
    In m (first :: others) /\ mv = Some (san m) /\
    nn' = pushHistory nn (mkHistory posHash (san m) (evaluateMove m)) /\
    (randPos w < randPos w' <= randPos w + 2)%nat.
Proof.
  intros H.
  destruct (epsilonGreedy_listed nn first others posHash w)
    as (m & I & E1 & E2 & P).
  rewrite H in E1, E2, P. simpl in E1, E2, P.
  exists m. repeat split; try assumption; lia.
Qed.

(** What [decideMove] returns and does to the agent, case by case. *)
Lemma decideMove_cases (nn : NeuralNetwork) (chess : Chess) (w : World)
      (mv : option string) (nn' : NeuralNetwork) (w' : World) :
  decideMove nn chess w = (mv, nn', w') ->
  (chess_moves chess = [] /\ mv = None /\ nn' = nn /\ w' = w) \/
  (exists m,
     In m (chess_moves chess) /\ isInBook (chess_fen chess) = true /\
     mv = Some (san m) /\ nn' = nn /\
     (randPos w <= randPos w' <= randPos w + 2)%nat) \/
  (exists m,
     In m (chess_moves chess) /\ mv = Some (san m) /\
     nn' =
       pushHistory nn (mkHistory (hashPosition (chess_fen chess)) (san m)
                                 (evaluateMove m)) /\
     (randPos w < randPos w' <= randPos w + 4)%nat).
Proof.
  unfold decideMove.
  destruct (chess_moves chess) as [|first others] eqn:Hm.
  { intros H. inversion H. left. auto. }
  intros H. right. cbv zeta in H.
  destruct (isInBook (chess_fen chess)) eqn:B.
  - unfold Math_random in H at 1.
    set (w1 := mkWorld (randoms w) (S (randPos w)) (clock w) (clockPos w))
      in H.
    assert (W1 : randPos w1 = S (randPos w)) by reflexivity.
    destruct (bookGate _ _).
    + pose proof (getBookMove_randPos (chess_fen chess) w1) as P.
      destruct (getBookMove (chess_fen chess) w1) as [bookMove w2].
      simpl in P.
      destruct (legalBookMove bookMove (first :: others)) as [b|] eqn:L.
      * left. destruct (legalBookMove_listed _ _ _ L) as (m & I & <-).
        inversion H; subst.
        exists m. repeat split; try assumption; try reflexivity; lia.
      * right. apply epsilonGreedy_cases in H.
        destruct H as (m & I & E1 & E2 & P2).
        exists m. repeat split; try assumption; lia.
    + right. apply epsilonGreedy_cases in H.
      destruct H as (m & I & E1 & E2 & P2).
      exists m. repeat split; try assumption; lia.
  - right. apply epsilonGreedy_cases in H.
    destruct H as (m & I & E1 & E2 & P2).
    exists m. repeat split; try assumption; lia.
Qed.

(** X9. [decideMove] returns no move exactly when the position has no legal
    move, and every move it returns is the notation of one of the legal
    moves of the position. *)
Theorem x9_decideMove_returns_a_legal_move :
  forall (nn : NeuralNetwork) (chess : Chess) (w : World),
    let mv := fst (fst (decideMove nn chess w)) in
    (mv = None <-> chess_moves chess = []) /\
    forall s, mv = Some s ->
              exists m, In m (chess_moves chess) /\ san m = s.
Proof.
  intros nn chess w mv. unfold mv.
  destruct (decideMove nn chess w) as [[mv0 nn'] w'] eqn:D. simpl.
  destruct (decideMove_cases nn chess w mv0 nn' w' D)
    as [(E & R & _)|[(m & I & _ & R & _)|(m & I & R & _)]]; subst mv0.
  - split; [tauto|discriminate].
  - split.
    + split; [discriminate|]. intros E. rewrite E in I. destruct I.
    + intros s H. inversion H. eauto.
  - split.
    + split; [discriminate|]. intros E. rewrite E in I. destruct I.
    + intros s H. inversion H. eauto.
Qed.

(** X10. [decideMove] touches only the trace and the random stream: it
    either leaves the agent as it is (no legal move, or an opening-book move
    in a book position) or appends one entry to the trace, holding the
    position key, the returned move and its immediate value.  The value
    store, the counters and the exploration rate never change, and at most
    four random numbers are drawn. *)
Theorem x10_decideMove_records_one_entry :
  forall (nn : NeuralNetwork) (chess : Chess) (w : World),
    let r := decideMove nn chess w in
    let nn' := snd (fst r) in
    ((nn' = nn /\
      (fst (fst r) = None \/ isInBook (chess_fen chess) = true)) \/
     exists m, In m (chess_moves chess) /\ fst (fst r) = Some (san m) /\
               gameHistory nn' =
                 gameHistory nn ++
                 [mkHistory (hashPosition (chess_fen chess)) (san m)
                            (evaluateMove m)]) /\
    qTable nn' = qTable nn /\ gamesPlayed nn' = gamesPlayed nn /\
    elo nn' = elo nn /\ explorationRate nn' = explorationRate nn /\
    (randPos w <= randPos (snd r) <= randPos w + 4)%nat.
Proof.
  intros nn chess w r nn'. unfold nn', r.
  destruct (decideMove nn chess w) as [[mv0 nn0] w'] eqn:D. simpl.
  destruct (decideMove_cases nn chess w mv0 nn0 w' D)
    as [(E & R & N & W)|[(m & I & B & R & N & P)|(m & I & R & N & P)]];
    subst.
  - split; [left; auto|]. repeat split; lia.
  - split; [left; auto|]. repeat split; lia.
  - split; [right; exists m; auto|]. repeat split; lia.
Qed.

End DecideFacts.

(* ================================================================== *)
(** ** The tree search: legal results and visit counts *)
(* ================================================================== *)

Section SearchResults.
Context {Chess : Type} {CO : ChessOracle Chess} {SO : SearchOracle}.
Implicit Types (tree : MCTS.Tree) (n : MCTS.MCTSNode) (w : World).

Lemma root_moves_in_links legal tree tree' :
  map MCTS.links tree' = map MCTS.links tree ->
  root_moves_in legal tree -> root_moves_in legal tree'.
Proof.
  intros H R r' E'.
  pose proof (map_links_nth tree tree' 0 H) as L. rewrite E' in L.
  destruct (nth_error tree 0) as [r|] eqn:E; [|discriminate].
  simpl in L. inversion L as [[L1 L2 L3 L4 L5]].
  destruct (R r E) as [U C].
  rewrite L3, L4. split; [exact U|].
  intros c n' Ic En'.
  pose proof (map_links_nth tree tree' c H) as Lc. rewrite En' in Lc.
  destruct (nth_error tree c) as [n|] eqn:En; [|discriminate].
  simpl in Lc. inversion Lc as [[M1 M2 M3 M4 M5]].
  rewrite M1. exact (C c n Ic En).
Qed.

Lemma nth_error_removeAt_In {A} (l : list A) (k : nat) (x : A) :
  nth_error l k = Some x -> In x l.
Proof. apply nth_error_In. Qed.

Lemma expand_root_moves_in legal tree i w tree' c w' :
  MCTS.expand tree i w = Ok (tree', c, w') ->
  MCTS.tree_shape tree -> root_moves_in legal tree ->
  root_moves_in legal tree'.
Proof.
  intros H S R.
  destruct (expand_inv _ _ _ _ _ _ H)
    as (node & k & m & chess' & E & K & M & -> & -> & ->).
  assert (Hi : (i < List.length tree)%nat)
    by (apply nth_error_Some; congruence).
  set (node' := MCTS.mkNode _ _ _ _ _ _ _).
  set (child := MCTS.createNode _ _ _).
  intros r' E'.
  rewrite nth_error_app1 in E' by (rewrite update_length; lia).
  destruct (Nat.eq_dec i 0) as [->|Hne].
  - (* the root is expanded *)
    rewrite nth_error_update_eq in E' by assumption.
    inversion E'; subst r'.
    change (MCTS.untriedMoves node')
      with (MCTS.removeAt k (MCTS.untriedMoves node)).
    change (MCTS.children node')
      with (MCTS.children node ++ [List.length tree]).
    destruct (R node E) as [U C].
    destruct (S 0%nat node E) as (Cs & _ & _).
    split.
    + intros y Hy. apply U. eapply removeAt_incl; eauto.
    + intros c n Ic En. apply in_app_or in Ic.
      destruct Ic as [Ic|[<-|[]]].
      * rewrite Forall_forall in Cs. specialize (Cs c Ic).
        rewrite nth_error_app1 in En by (rewrite update_length; lia).
        rewrite nth_error_update_neq in En by lia.
        exact (C c n Ic En).
      * rewrite nth_error_app2 in En by (rewrite update_length; lia).
        rewrite update_length, Nat.sub_diag in En. simpl in En.
        inversion En; subst n. exists m. split; [reflexivity|].
        apply U. eapply nth_error_In; eauto.
  - rewrite nth_error_update_neq in E' by assumption.
    destruct (R r' E') as [U C].
    destruct (S 0%nat r' E') as (Cs & _ & _).
    split; [exact U|].
    intros c n Ic En.
    rewrite Forall_forall in Cs. specialize (Cs c Ic).
    rewrite nth_error_app1 in En by (rewrite update_length; lia).
    destruct (Nat.eq_dec i c) as [<-|Hc].
    + rewrite nth_error_update_eq in En by assumption.
      inversion En; subst n. simpl. exact (C i node Ic E).
    + rewrite nth_error_update_neq in En by assumption.
      exact (C c n Ic En).
Qed.

Lemma simulation_root_moves_in legal turn tree w tree' w' :
  MCTS.simulation turn tree w = Ok (tree', w') ->
  MCTS.tree_shape tree -> root_moves_in legal tree ->
  root_moves_in legal tree'.
Proof.
  unfold MCTS.simulation. intros H S R.
  destruct (MCTS.selection _ tree 0) as [node| |] eqn:Sel; cbn [bind] in H;
    try discriminate.
  destruct (nth_error tree node) as [n|] eqn:E; [|discriminate].
  assert (X : exists tree1 node1 w1,
             (match MCTS.untriedMoves n with
              | [] => Ok (tree, node, w)
              | _ :: _ => MCTS.expand tree node w
              end) = Ok (tree1, node1, w1) /\
             root_moves_in legal tree1).
  { destruct (MCTS.untriedMoves n) as [|u us].
    - exists tree, node, w. auto.
    - destruct (MCTS.expand tree node w) as [[[t1 n1] w1]| |] eqn:X;
        cbn [bind] in H; try discriminate.
      exists t1, n1, w1. split; [reflexivity|].
      eapply expand_root_moves_in; eauto. }
  destruct X as (tree1 & node1 & w1 & X & R1).
  rewrite X in H. cbn [bind] in H.
  destruct (nth_error tree1 node1) as [n1|]; [|discriminate].
  destruct (simulate (MCTS.fen n1) turn w1) as [result w2].
  destruct (MCTS.backpropagate _ tree1 (Some node1) result) as [tree2| |] eqn:B;
    cbn [bind] in H; try discriminate.
  inversion H; subst. apply backpropagate_links in B.
  eapply root_moves_in_links; eauto.
Qed.

Lemma simulations_root_moves_in legal (k : nat) :
  forall turn tree w tree' w',
    MCTS.simulations k turn tree w = Ok (tree', w') ->
    MCTS.tree_shape tree -> root_moves_in legal tree ->
    MCTS.tree_shape tree' /\ root_moves_in legal tree'.
Proof.
  induction k as [|k IH]; intros turn tree w tree' w' H S R; simpl in H.
  - inversion H; subst. auto.
  - destruct (MCTS.simulation turn tree w) as [[t1 w1]| |] eqn:X; simpl in H;
      try discriminate.
    eapply IH; [exact H| |].
    + eapply simulation_shape; eauto.
    + eapply simulation_root_moves_in; eauto.
Qed.

Lemma selectBest_root_move legal tree ns bias m :
  MCTS.tree_shape tree -> root_moves_in legal tree ->
  MCTS.selectBest tree ns bias = Ok (Some m) -> In m legal.
Proof.
  unfold MCTS.selectBest. intros S R H.
  destruct (nth_error tree 0) as [root|] eqn:E; [|discriminate].
  destruct (R root E) as [_ C].
  destruct (MCTS.bestChildLoop _ _ _ _ _ _) as [[c|]| |] eqn:B; simpl in H;
    try discriminate.
  inversion H as [Hm]. clear H.
  apply bestChildLoop_from in B.
  assert (X : exists j, In j (MCTS.children root) /\ nth_error tree j = Some c).
  { destruct B as [B|B]; [|exact B].
    destruct (MCTS.children root) as [|c0 cs]; [discriminate|].
    exists c0. split; [now left|exact B]. }
  destruct X as (j & Ij & Ej).
  destruct (C j c Ij Ej) as (m' & Em & Im). congruence.
Qed.

Lemma root_moves_in_start fen :
  root_moves_in (map san (chess_moves (chess_load fen)))
                [MCTS.createNode fen None None].
Proof.
  intros r E. simpl in E. inversion E; subst r. simpl.
  split; [apply incl_refl|]. intros c n [].
Qed.

(** Whatever the oracles do, a move returned by [mcts] is a legal move of
    the searched position. *)
Lemma mcts_result_legal fen ns bias w m :
  MCTS.result (MCTS.mcts fen ns bias w) = Ok (Some m) ->
  In m (map san (chess_moves (chess_load fen))).
Proof.
  unfold MCTS.mcts.
  destruct (map san (chess_moves (chess_load fen))) as [|m1 [|m2 ms]] eqn:Lm;
    simpl.
  - discriminate.
  - intros H. inversion H. now left.
  - destruct (MCTS.simulations _ _ _ w) as [[tree w']| |] eqn:Sim;
      simpl; try discriminate.
    intros H.
    destruct (simulations_root_moves_in (m1 :: m2 :: ms) _ _ _ _ _ _ Sim
                (root_shape fen)) as [S R].
    { rewrite <- Lm. apply root_moves_in_start. }
    exact (selectBest_root_move (m1 :: m2 :: ms) tree ns bias m S R H).
Qed.

End SearchResults.

Section SearchTotal.
Context {Chess : Type} {CO : ChessOracle Chess} {SO : SearchOracle}.
Context {RO : RulesOk CO} {SK : SearchOk SO}.

(** X11. The tree search always answers with a legal move: when the rules
    library keeps its contract, random draws lie in [0, 1), the position has a
    legal move and at least one simulation is asked for, [mcts] returns
    (it neither throws nor answers "no move") the notation of one of the
    legal moves of the position. *)
Theorem x11_mcts_returns_a_legal_move :
  forall (fen : string) (numSimulations : Z)
         (qValueBias : option (string -> Q)) (w : World),
    World_ok w -> (1 <= numSimulations)%Z ->
    chess_moves (chess_load fen) <> [] ->
    exists m,
      MCTS.result (MCTS.mcts fen numSimulations qValueBias w) = Ok (Some m) /\
      In m (map san (chess_moves (chess_load fen))).
Proof.
  intros fen ns bias w W Hns Hmoves.
  destruct (mcts_returns fen ns bias w W Hns) as (o & Ho & _).
  destruct o as [m|].
  - exists m. split; [exact Ho|]. eapply mcts_result_legal; eauto.
  - exfalso. revert Ho. unfold MCTS.mcts.
    destruct (chess_moves (chess_load fen)) as [|m1 [|m2 ms]] eqn:L; simpl.
    + congruence.
    + discriminate.
    + destruct (MCTS.simulations _ _ _ w) as [[tree w']| |] eqn:Sim;
        simpl; try discriminate.
      intros H. apply simulations_shape in Sim; [|apply root_shape].
      destruct (selectBest_inv _ _ _ _ Sim H) as [m Hm]. discriminate.
Qed.

End SearchTotal.

Lemma x11_mcts_returns_a_legal_move_witness :
  World_ok Toy.world /\
  chess_moves (chess_load Toy.startFen) <> [] /\
  exists m,
    MCTS.result (MCTS.mcts Toy.startFen 30 None Toy.world) = Ok (Some m) /\
    In m ["e4"; "d4"; "Nf3"; "c4"]%string.
Proof.
  assert (H : chess_moves (chess_load Toy.startFen) <> [])
    by (vm_compute; discriminate).
  split; [exact toy_world_ok|]. split; [exact H|].
  exact (@x11_mcts_returns_a_legal_move Toy.Chess Toy.oracle Toy.search
           toy_rules_ok toy_search_ok Toy.startFen 30 None Toy.world
           toy_world_ok ltac:(lia) H).
Defined.

(* ================================================================== *)
(** ** The tree search: visit counts and scores *)
(* ================================================================== *)

Lemma Forall_update {A} (P : A -> Prop) (i : nat) (x : A) (l : list A) :
  Forall P l -> P x -> Forall P (MCTS.update i x l).
Proof.
  intros F Hx. revert i. induction F as [|y l Hy F IH]; intros [|i]; simpl;
    constructor; auto.
Qed.

Section VisitCounts.
Context {Chess : Type} {CO : ChessOracle Chess} {SO : SearchOracle}.
Implicit Types (tree : MCTS.Tree) (n : MCTS.MCTSNode) (w : World).

Lemma rootVisits_update_other tree i n :
  i <> 0%nat -> rootVisits (MCTS.update i n tree) = rootVisits tree.
Proof.
  intros H. unfold rootVisits. now rewrite nth_error_update_neq by auto.
Qed.

(** Backpropagation from any node of a well-shaped tree passes through the
    root once. *)
Lemma backpropagate_rootVisits (fuel : nat) :
  forall tree i result tree',
    MCTS.tree_shape tree ->
    MCTS.backpropagate fuel tree (Some i) result = Ok tree' ->
    rootVisits tree' = (rootVisits tree + 1)%Z.
Proof.
  induction fuel as [|fuel IH]; intros tree i result tree' S H; simpl in H;
    [discriminate|].
  destruct (nth_error tree i) as [n|] eqn:E; [|discriminate].
  destruct (S i n E) as (C & P & M).
  set (n' := MCTS.mkNode _ _ _ _ _ _ _) in H.
  assert (L : map MCTS.links (MCTS.update i n' tree) = map MCTS.links tree)
    by (eapply update_links; eauto).
  assert (Hi : (i < List.length tree)%nat)
    by (apply nth_error_Some; congruence).
  destruct (MCTS.parent n) as [p|] eqn:Pn.
  - rewrite (IH _ _ _ _ (tree_shape_links _ _ L S) H).
    rewrite rootVisits_update_other by lia. reflexivity.
  - subst i.
    assert (T : tree' = MCTS.update 0 n' tree)
      by (destruct fuel; cbn [MCTS.backpropagate] in H; congruence).
    rewrite T. unfold rootVisits.
    rewrite nth_error_update_eq by assumption. rewrite E. reflexivity.
Qed.

Lemma backpropagate_stats (fuel : nat) :
  forall tree node result tree',
    0 <= result -> result <= 1 -> stats_in_range tree ->
    MCTS.backpropagate fuel tree node result = Ok tree' ->
    stats_in_range tree'.
Proof.
  induction fuel as [|fuel IH]; intros tree [i|] result tree' R0 R1 F H;
    simpl in H; try discriminate; try (inversion H; subst; exact F).
  destruct (nth_error tree i) as [n|] eqn:E; [|discriminate].
  eapply IH; [| |  |exact H].
  - rewrite <- (Qplus_opp_r result). apply Qplus_le_l. exact R1.
  - rewrite <- (Qplus_0_r 1) at 2. apply Qplus_le_r.
    rewrite <- (Qopp_involutive 0). apply Qopp_le_compat. exact R0.
  - apply Forall_update; [exact F|]. simpl.
    unfold stats_in_range in F. rewrite Forall_forall in F.
    destruct (F n (nth_error_In _ _ E)) as (V & W0 & W1).
    split; [lia|]. split.
    + rewrite <- (Qplus_0_r 0). now apply Qplus_le_compat.
    + rewrite inject_Z_plus. now apply Qplus_le_compat.
Qed.

Lemma expand_counts tree i w tree' c w' :
  MCTS.expand tree i w = Ok (tree', c, w') ->
  stats_in_range tree ->
  stats_in_range tree' /\ rootVisits tree' = rootVisits tree /\
  List.length tree' = Datatypes.S (List.length tree).
Proof.
  intros H F.
  destruct (expand_inv _ _ _ _ _ _ H)
    as (node & k & m & chess' & E & K & M & -> & -> & ->).
  assert (Hi : (i < List.length tree)%nat)
    by (apply nth_error_Some; congruence).
  set (node' := MCTS.mkNode _ _ _ _ _ _ _).
  split; [|split].
  - apply Forall_app. split.
    + apply Forall_update; [exact F|].
      unfold stats_in_range in F. rewrite Forall_forall in F.
      exact (F node (nth_error_In _ _ E)).
    + repeat constructor; simpl; try lia; apply Qle_refl.
  - unfold rootVisits.
    rewrite nth_error_app1 by (rewrite update_length; lia).
    destruct (Nat.eq_dec i 0) as [->|Hne].
    + rewrite nth_error_update_eq by assumption. now rewrite E.
    + now rewrite nth_error_update_neq by assumption.
  - rewrite length_app, update_length. simpl. lia.
Qed.

Lemma simulation_counts turn tree w tree' w' :
  simulate_in_range SO ->
  MCTS.simulation turn tree w = Ok (tree', w') ->
  MCTS.tree_shape tree -> stats_in_range tree ->
  stats_in_range tree' /\ rootVisits tree' = (rootVisits tree + 1)%Z /\
  (List.length tree <= List.length tree' <= Datatypes.S (List.length tree))%nat.
Proof.
  unfold MCTS.simulation. intros Sr H S F.
  destruct (MCTS.selection _ tree 0) as [node| |] eqn:Sel; cbn [bind] in H;
    try discriminate.
  destruct (nth_error tree node) as [n|] eqn:E; [|discriminate].
  assert (X : exists tree1 node1 w1,
             (match MCTS.untriedMoves n with
              | [] => Ok (tree, node, w)
              | _ :: _ => MCTS.expand tree node w
              end) = Ok (tree1, node1, w1) /\
             MCTS.tree_shape tree1 /\ stats_in_range tree1 /\
             rootVisits tree1 = rootVisits tree /\
             (List.length tree <= List.length tree1
              <= Datatypes.S (List.length tree))%nat).
  { destruct (MCTS.untriedMoves n) as [|u us].
    - exists tree, node, w.
      split; [reflexivity|]. split; [exact S|]. split; [exact F|].
      split; [reflexivity|lia].
    - destruct (MCTS.expand tree node w) as [[[t1 n1] w1]| |] eqn:X;
        cbn [bind] in H; try discriminate.
      exists t1, n1, w1. split; [reflexivity|].
      destruct (expand_shape _ _ _ _ _ _ X S) as (S1 & _).
      destruct (expand_counts _ _ _ _ _ _ X F) as (F1 & V1 & L1).
      split; [exact S1|]. split; [exact F1|]. split; [exact V1|lia]. }
  destruct X as (tree1 & node1 & w1 & X & S1 & F1 & V1 & L1).
  rewrite X in H. cbn [bind] in H.
  destruct (nth_error tree1 node1) as [n1|]; [|discriminate].
  destruct (Sr (MCTS.fen n1) turn w1) as [R0 R1].
  destruct (simulate (MCTS.fen n1) turn w1) as [result w2]. simpl in R0, R1.
  destruct (MCTS.backpropagate _ tree1 (Some node1) result) as [tree2| |] eqn:B;
    cbn [bind] in H; try discriminate.
  inversion H; subst.
  split; [eapply backpropagate_stats; eauto|].
  split.
  - rewrite (backpropagate_rootVisits _ _ _ _ _ S1 B). lia.
  - rewrite (links_length _ _ (backpropagate_links _ _ _ _ _ B)). exact L1.
Qed.

Lemma simulations_counts (k : nat) :
  simulate_in_range SO ->
  forall turn tree w tree' w',
    MCTS.simulations k turn tree w = Ok (tree', w') ->
    MCTS.tree_shape tree -> stats_in_range tree ->
    stats_in_range tree' /\
    rootVisits tree' = (rootVisits tree + Z.of_nat k)%Z /\
    (List.length tree <= List.length tree' <= List.length tree + k)%nat.
Proof.
  intros Sr. induction k as [|k IH]; intros turn tree w tree' w' H S F;
    simpl in H.
  - inversion H; subst. split; [exact F|]. split; lia.
  - destruct (MCTS.simulation turn tree w) as [[t1 w1]| |] eqn:X; simpl in H;
      try discriminate.
    destruct (simulation_counts _ _ _ _ _ Sr X S F) as (F1 & V1 & L1).
    destruct (simulation_shape _ _ _ _ _ X S) as [S1 _].
    destruct (IH _ _ _ _ _ H S1 F1) as (F2 & V2 & L2).
    split; [exact F2|]. split; lia.
Qed.

(** X12. Bookkeeping of a finished search.  If rollouts score between 0 and
    1 and [mcts] built a tree and returned, then the root was visited once
    per simulation, every node's accumulated score lies between zero and its
    visit count (so every win rate is between 0 and 1), and the tree grew by
    at most one node per simulation. *)
Theorem x12_mcts_visit_counts :
  forall (fen : string) (numSimulations : Z)
         (qValueBias : option (string -> Q)) (w : World) (o : option string),
    simulate_in_range SO -> (0 <= numSimulations)%Z ->
    (2 <= List.length (chess_moves (chess_load fen)))%nat ->
    MCTS.result (MCTS.mcts fen numSimulations qValueBias w) = Ok o ->
    let tree := MCTS.built (MCTS.mcts fen numSimulations qValueBias w) in
    rootVisits tree = numSimulations /\
    stats_in_range tree /\
    (1 <= Z.of_nat (List.length tree) <= 1 + numSimulations)%Z.
Proof.
  intros fen ns bias w o Sr Hns Hm. unfold MCTS.mcts.
  destruct (chess_moves (chess_load fen)) as [|m1 [|m2 ms]] eqn:L;
    simpl in Hm; try lia. simpl map. cbv iota.
  destruct (MCTS.simulations _ _ _ w) as [[tree w']| |] eqn:Sim;
    cbn [MCTS.result MCTS.built]; try discriminate.
  intros _.
  destruct (simulations_counts _ Sr _ _ _ _ _ Sim (root_shape fen))
    as (F & V & Len).
  { repeat constructor; simpl; try lia; apply Qle_refl. }
  cbv zeta. split; [|split; [exact F|]].
  - rewrite V. unfold rootVisits. simpl. lia.
  - simpl in Len. lia.
Qed.

End VisitCounts.

Lemma x12_mcts_visit_counts_witness :
  simulate_in_range Toy.search /\
  MCTS.result (MCTS.mcts Toy.startFen 30 None Toy.world) = Ok (Some "e4"%string) /\
  rootVisits (MCTS.built (MCTS.mcts Toy.startFen 30 None Toy.world)) = 30%Z.
Proof.
  assert (Sr : simulate_in_range Toy.search).
  { intros f t w. simpl. split; unfold Qle; simpl; lia. }
  assert (R : MCTS.result (MCTS.mcts Toy.startFen 30 None Toy.world)
              = Ok (Some "e4"%string)) by (vm_compute; reflexivity).
  split; [exact Sr|]. split; [exact R|].
  exact (proj1 (@x12_mcts_visit_counts Toy.Chess Toy.oracle Toy.search
                  Toy.startFen 30 None Toy.world (Some "e4"%string) Sr
                  ltac:(lia) ltac:(simpl; lia) R)).
Defined.

(* ================================================================== *)
(** ** Move-quality tracking *)
(* ================================================================== *)

Lemma classifyMove_cases (x : Q) :
  (x <= - 0.15 /\ BlunderDetector.classifyMove x = BlunderDetector.blunder) \/
  (- 0.15 < x /\ x <= - 0.08 /\
   BlunderDetector.classifyMove x = BlunderDetector.mistake) \/
  (- 0.08 < x /\ x <= - 0.04 /\
   BlunderDetector.classifyMove x = BlunderDetector.inaccuracy) \/
  (- 0.04 < x /\ x < 0.02 /\
   BlunderDetector.classifyMove x = BlunderDetector.normal) \/
  (0.02 <= x /\ x < 0.05 /\
   BlunderDetector.classifyMove x = BlunderDetector.good) \/
  (0.05 <= x /\ x < 0.10 /\
   BlunderDetector.classifyMove x = BlunderDetector.excellent) \/
  (0.10 <= x /\ BlunderDetector.classifyMove x = BlunderDetector.brilliant).
Proof.
  unfold BlunderDetector.classifyMove.
  destruct (Js.leb x (- 0.15)) eqn:E1;
    [apply leb_true in E1; now left|apply leb_false in E1].
  destruct (Js.leb x (- 0.08)) eqn:E2;
    [apply leb_true in E2; right; left; auto|apply leb_false in E2].
  destruct (Js.leb x (- 0.04)) eqn:E3;
    [apply leb_true in E3; right; right; left; auto|apply leb_false in E3].
  destruct (Js.leb 0.10 x) eqn:E4;
    [apply leb_true in E4; do 6 right; auto|apply leb_false in E4].
  destruct (Js.leb 0.05 x) eqn:E5;
    [apply leb_true in E5; do 5 right; left; auto|apply leb_false in E5].
  destruct (Js.leb 0.02 x) eqn:E6;
    [apply leb_true in E6; do 4 right; left; auto|apply leb_false in E6].
  do 3 right. left. auto.
Qed.

(** X13. The quality label follows the evaluation change: a move that
    changes the evaluation by more (from the mover's point of view) never gets
    a worse label, on the scale blunder, mistake, inaccuracy, normal, good,
    excellent, brilliant. *)
Theorem x13_classifyMove_is_monotone :
  forall (evalChange evalChange' : Q),
    evalChange <= evalChange' ->
    (BlunderQueries.rank (BlunderDetector.classifyMove evalChange)
     <= BlunderQueries.rank (BlunderDetector.classifyMove evalChange'))%Z.
Proof.
  intros x y Hxy.
  destruct (classifyMove_cases x)
    as [[A ->]|[(A & B & ->)|[(A & B & ->)|[(A & B & ->)|[(A & B & ->)|
        [(A & B & ->)|[A ->]]]]]]];
  destruct (classifyMove_cases y)
    as [[C ->]|[(C & D & ->)|[(C & D & ->)|[(C & D & ->)|[(C & D & ->)|
        [(C & D & ->)|[C ->]]]]]]];
  simpl; try lia; exfalso; lra.
Qed.

Lemma x13_classifyMove_is_monotone_witness :
  - 0.2 <= 0.06 /\
  (BlunderQueries.rank (BlunderDetector.classifyMove (- 0.2))
   <= BlunderQueries.rank (BlunderDetector.classifyMove 0.06))%Z.
Proof.
  assert (H : - 0.2 <= 0.06) by (unfold Qle; simpl; lia).
  split; [exact H|].
  exact (x13_classifyMove_is_monotone (- 0.2) 0.06 H).
Defined.

Lemma classifyMove_compat (x y : Q) :
  x == y -> BlunderDetector.classifyMove x = BlunderDetector.classifyMove y.
Proof.
  intros E.
  destruct (classifyMove_cases x)
    as [[A ->]|[(A & B & ->)|[(A & B & ->)|[(A & B & ->)|[(A & B & ->)|
        [(A & B & ->)|[A ->]]]]]]];
  destruct (classifyMove_cases y)
    as [[C ->]|[(C & D & ->)|[(C & D & ->)|[(C & D & ->)|[(C & D & ->)|
        [(C & D & ->)|[C ->]]]]]]];
  try reflexivity; exfalso; lra.
Qed.

(** X14. The detector judges both colours alike: a move by Black that takes
    the (White-relative) evaluation from [a] to [b] gets the label a move by
    White would get for taking it from [-a] to [-b]. *)
Theorem x14_evaluateMove_is_colour_symmetric :
  forall (d : BlunderDetector.t) (move : string) (a b : Q),
    BlunderDetector.quality
      (fst (BlunderDetector.evaluateMove d move a b false)) =
    BlunderDetector.quality
      (fst (BlunderDetector.evaluateMove d move (- a) (- b) true)) /\
    BlunderDetector.evalChange
      (fst (BlunderDetector.evaluateMove d move a b false)) ==
    BlunderDetector.evalChange
      (fst (BlunderDetector.evaluateMove d move (- a) (- b) true)).
Proof.
  intros d move a b. unfold BlunderDetector.evaluateMove. simpl.
  assert (E : - (b - a) == - b - - a) by ring.
  split; [now apply classifyMove_compat|exact E].
Qed.

Lemma calls_snoc (cs : list BlunderQueries.Call) (c : BlunderQueries.Call) :
  BlunderQueries.calls (cs ++ [c]) =
  BlunderQueries.call (BlunderQueries.calls cs) c.
Proof. unfold BlunderQueries.calls. now rewrite fold_left_app. Qed.

Lemma seq_snoc (start len : nat) :
  seq start (S len) = seq start len ++ [(start + len)%nat].
Proof. now rewrite seq_S. Qed.

(** X15. Move numbers are consecutive: after any sequence of calls on a new
    detector, the recorded evaluations are numbered 1, 2, 3, ... in order
    since the last reset, and [lastMoveNumber] is their count. *)
Theorem x15_detector_numbers_moves_consecutively :
  forall (cs : list BlunderQueries.Call),
    let d := BlunderQueries.calls cs in
    BlunderDetector.lastMoveNumber d =
      Z.of_nat (List.length (BlunderDetector.moveHistory d)) /\
    map BlunderDetector.moveNumber (BlunderDetector.moveHistory d) =
      map Z.of_nat (seq 1 (List.length (BlunderDetector.moveHistory d))).
Proof.
  intros cs. induction cs as [|c cs IH] using rev_ind.
  - split; reflexivity.
  - cbv zeta in *. rewrite calls_snoc.
    destruct IH as [N M]. set (d := BlunderQueries.calls cs) in *.
    destruct c as [e|m b a w|]; simpl.
    + split; assumption.
    + rewrite length_app, map_app. simpl.
      rewrite Nat.add_1_r, seq_snoc, map_app, <- M. simpl.
      split; [lia|]. do 2 f_equal. lia.
    + split; reflexivity.
Qed.

Lemma count_fold (l : list BlunderDetector.MoveEvaluation) :
  forall c : BlunderQueries.Counts,
    let c' := fold_left BlunderQueries.count l c in
    BlunderQueries.totalMoves c' = BlunderQueries.totalMoves c /\
    (BlunderQueries.blunders c' + BlunderQueries.mistakes c' =
     BlunderQueries.blunders c + BlunderQueries.mistakes c +
     Z.of_nat (List.length
                 (filter (fun m => match BlunderDetector.quality m with
                                   | BlunderDetector.blunder
                                   | BlunderDetector.mistake => true
                                   | _ => false
                                   end) l)))%Z /\
    (BlunderQueries.excellentMoves c' + BlunderQueries.brilliantMoves c' =
     BlunderQueries.excellentMoves c + BlunderQueries.brilliantMoves c +
     Z.of_nat (List.length
                 (filter (fun m => match BlunderDetector.quality m with
                                   | BlunderDetector.brilliant
                                   | BlunderDetector.excellent => true
                                   | _ => false
                                   end) l)))%Z /\
    (BlunderQueries.blunders c' + BlunderQueries.mistakes c' +
     BlunderQueries.inaccuracies c' + BlunderQueries.goodMoves c' +
     BlunderQueries.excellentMoves c' + BlunderQueries.brilliantMoves c' =
     BlunderQueries.blunders c + BlunderQueries.mistakes c +
     BlunderQueries.inaccuracies c + BlunderQueries.goodMoves c +
     BlunderQueries.excellentMoves c + BlunderQueries.brilliantMoves c +
     Z.of_nat (List.length
                 (filter (fun m => match BlunderDetector.quality m with
                                   | BlunderDetector.normal => false
                                   | _ => true
                                   end) l)))%Z.
Proof.
  induction l as [|m l IH]; intros c; cbv zeta.
  - simpl. repeat split; lia.
  - simpl fold_left. specialize (IH (BlunderQueries.count c m)).
    cbv zeta in IH. destruct IH as (T & A & B & C).
    remember (fold_left BlunderQueries.count l (BlunderQueries.count c m))
      as c' eqn:Hc'. clear Hc'.
    unfold BlunderQueries.count in T, A, B, C. simpl filter.
    destruct (BlunderDetector.quality m);
      cbn -[Z.of_nat Z.add] in *; rewrite ?Nat2Z.inj_succ;
      repeat split; lia.
Qed.

(** X16. The statistics of a game add up: [getStats] reports as many moves
    as were evaluated; its blunders plus mistakes are exactly the moves
    [getBlundersAndMistakes] lists, its excellent plus brilliant moves
    exactly those of [getBrilliantMoves]; and the six labelled counts
    together never exceed the total (the rest are the normal moves). *)
Theorem x16_detector_statistics_add_up :
  forall (d : BlunderDetector.t),
    let s := BlunderQueries.getStats d in
    BlunderQueries.totalMoves s =
      Z.of_nat (List.length (BlunderQueries.getMoveHistory d)) /\
    (BlunderQueries.blunders s + BlunderQueries.mistakes s =
     Z.of_nat (List.length (BlunderQueries.getBlundersAndMistakes d)))%Z /\
    (BlunderQueries.excellentMoves s + BlunderQueries.brilliantMoves s =
     Z.of_nat (List.length (BlunderQueries.getBrilliantMoves d)))%Z /\
    (0 <= BlunderQueries.blunders s + BlunderQueries.mistakes s +
          BlunderQueries.inaccuracies s + BlunderQueries.goodMoves s +
          BlunderQueries.excellentMoves s + BlunderQueries.brilliantMoves s
       <= BlunderQueries.totalMoves s)%Z.
Proof.
  intros d s. unfold s, BlunderQueries.getStats.
  destruct (count_fold (BlunderDetector.moveHistory d)
              (BlunderQueries.mkCounts
                 (Z.of_nat (List.length (BlunderDetector.moveHistory d)))
                 0 0 0 0 0 0)) as (T & A & B & C).
  cbv zeta in *. simpl in T, A, B, C.
  split; [exact T|]. split; [exact A|]. split; [exact B|].
  rewrite C, T.
  pose proof (filter_length_le
                (fun m => match BlunderDetector.quality m with
                          | BlunderDetector.normal => false
                          | _ => true
                          end) (BlunderDetector.moveHistory d)).
  lia.
Qed.

(* ================================================================== *)
(** ** Engine strength scale and benchmark bookkeeping *)
(* ================================================================== *)

Lemma Qfloor_eq (x : Q) (z : Z) :
  inject_Z z <= x -> x < inject_Z (z + 1) -> Qfloor x = z.
Proof.
  intros L U.
  assert (A : (z <= Qfloor x)%Z).
  { rewrite <- (Qfloor_Z z). now apply Qfloor_resp_le. }
  assert (B : (Qfloor x < z + 1)%Z).
  { rewrite Zlt_Qlt. eapply Qle_lt_trans; [apply Qfloor_le|exact U]. }
  lia.
Qed.

Lemma Math_round_bounds (x : Q) :
  inject_Z (Math_round x) - (1 # 2) <= x /\
  x < inject_Z (Math_round x) + (1 # 2).
Proof.
  unfold Math_round.
  pose proof (Qfloor_le (x + (1 # 2))) as L.
  pose proof (Qlt_floor (x + (1 # 2))) as U.
  rewrite inject_Z_plus in U. change (inject_Z 1) with 1 in U.
  split; lra.
Qed.

Lemma Math_round_inject (z : Z) : Math_round (inject_Z z) = z.
Proof.
  unfold Math_round. apply Qfloor_eq.
  - lra.
  - rewrite inject_Z_plus. change (inject_Z 1) with 1. lra.
Qed.

Lemma Math_round_compat (x y : Q) : x == y -> Math_round x = Math_round y.
Proof. intros E. unfold Math_round. now rewrite E. Qed.

Lemma Math_round_mono (x y : Q) : x <= y -> (Math_round x <= Math_round y)%Z.
Proof.
  intros H. unfold Math_round. apply Qfloor_resp_le. lra.
Qed.

Lemma Math_round_between (x : Q) (lo hi : Z) :
  inject_Z lo <= x -> x <= inject_Z hi -> (lo <= Math_round x <= hi)%Z.
Proof.
  intros L U. split.
  - rewrite <- (Math_round_inject lo). now apply Math_round_mono.
  - rewrite <- (Math_round_inject hi). now apply Math_round_mono.
Qed.

(** X17. The two directions of the engine's strength scale agree: every
    skill level from 0 to 20 is recovered from its rating
    ([eloToSkillLevel (skillLevelToElo level) = level]); whatever the rating,
    the level computed for it lies between 0 and 20; and a higher rating never
    gives a lower level. *)
Theorem x17_skill_level_round_trip :
  forall (level : Z) (elo elo' : Q),
    (0 <= level <= 20)%Z ->
    StockfishEngine.eloToSkillLevel
      (StockfishEngine.skillLevelToElo (inject_Z level)) = level /\
    (0 <= StockfishEngine.eloToSkillLevel elo <= 20)%Z /\
    (elo <= elo' ->
     (StockfishEngine.eloToSkillLevel elo
      <= StockfishEngine.eloToSkillLevel elo')%Z).
Proof.
  intros level elo elo' Hl.
  unfold StockfishEngine.eloToSkillLevel, StockfishEngine.skillLevelToElo.
  split; [|split].
  - rewrite (Math_round_compat _ (inject_Z level)) by field.
    rewrite Math_round_inject. lia.
  - lia.
  - intros H.
    assert (M : (Math_round ((elo - 800) / 120)
                 <= Math_round ((elo' - 800) / 120))%Z).
    { apply Math_round_mono. unfold Qdiv.
      apply Qmult_le_compat_r; [lra|]. unfold Qle; simpl; lia. }
    lia.
Qed.

Lemma x17_skill_level_round_trip_witness :
  (0 <= 7 <= 20)%Z /\
  StockfishEngine.eloToSkillLevel
    (StockfishEngine.skillLevelToElo (inject_Z 7)) = 7%Z.
Proof.
  assert (H : (0 <= 7 <= 20)%Z) by lia.
  split; [exact H|].
  exact (proj1 (x17_skill_level_round_trip 7 0 0 H)).
Defined.

(** X18. The quick benchmark plays three games at skill levels that are
    always between 0 and 20 and never descend, with the agent playing White,
    Black, White; and when the agent's rating is on the engine's scale (800
    to 3200), the middle level is the one whose rating is nearest: it differs
    from the agent's rating by at most 60 points. *)
Theorem x18_quick_benchmark_levels :
  forall (aiElo : Z),
    exists lower start upper,
      Benchmark.quickBenchmarkLevels aiElo =
        [(lower, true); (start, false); (upper, true)] /\
      (0 <= lower <= start)%Z /\ (start <= upper <= 20)%Z /\
      ((800 <= aiElo <= 3200)%Z ->
       inject_Z aiElo - 60
         <= StockfishEngine.skillLevelToElo (inject_Z start)
         <= inject_Z aiElo + 60).
Proof.
  intros aiElo. unfold Benchmark.quickBenchmarkLevels.
  set (start := StockfishEngine.eloToSkillLevel (inject_Z aiElo)).
  exists (Z.max 0 (start - 2)), start, (Z.min 20 (start + 2)).
  assert (R : (0 <= start <= 20)%Z).
  { unfold start, StockfishEngine.eloToSkillLevel. lia. }
  split; [reflexivity|]. split; [lia|]. split; [lia|].
  intros [Lo Hi].
  assert (Lq : 800 <= inject_Z aiElo).
  { change 800 with (inject_Z 800). now rewrite <- Zle_Qle. }
  assert (Hq : inject_Z aiElo <= 3200).
  { change 3200 with (inject_Z 3200). now rewrite <- Zle_Qle. }
  set (x := (inject_Z aiElo - 800) / 120).
  assert (X0 : 0 <= x).
  { unfold x, Qdiv. apply Qmult_le_0_compat; [lra|].
    unfold Qle; simpl; lia. }
  assert (X20 : x <= 20).
  { unfold x. apply Qle_shift_div_r; [reflexivity|]. lra. }
  assert (E : start = Math_round x).
  { unfold start, StockfishEngine.eloToSkillLevel. fold x.
    destruct (Math_round_between x 0 20 X0 X20). lia. }
  destruct (Math_round_bounds x) as [B1 B2]. rewrite <- E in B1, B2.
  assert (Ex : inject_Z aiElo == 800 + x * 120) by (unfold x; field).
  unfold StockfishEngine.skillLevelToElo. rewrite Ex. split; lra.
Qed.

Lemma filter_results_total (h : list Benchmark.BenchmarkResult) :
  (List.length (filter (Benchmark.isResult Benchmark.ai_win) h)
   + List.length (filter (Benchmark.isResult Benchmark.stockfish_win) h)
   + List.length (filter (Benchmark.isResult Benchmark.draw_game) h)
   = List.length h)%nat.
Proof.
  induction h as [|r h IH]; [reflexivity|].
  cbn [filter].
  destruct (Benchmark.isResult Benchmark.ai_win r) eqn:A,
           (Benchmark.isResult Benchmark.stockfish_win r) eqn:B,
           (Benchmark.isResult Benchmark.draw_game r) eqn:C;
    cbn [List.length]; try lia; exfalso; revert A B C;
    unfold Benchmark.isResult; destruct (Benchmark.result r); discriminate.
Qed.

Lemma sum_estimates_between (lo hi : Z) (l : list Benchmark.BenchmarkResult) :
  (forall r, In r l ->
             (lo <= Benchmark.estimatedElo r <= hi)%Z) ->
  forall acc,
    acc + inject_Z lo * inject_Z (Z.of_nat (List.length l))
      <= fold_left (fun sum r => sum + inject_Z (Benchmark.estimatedElo r))
                   l acc /\
    fold_left (fun sum r => sum + inject_Z (Benchmark.estimatedElo r)) l acc
      <= acc + inject_Z hi * inject_Z (Z.of_nat (List.length l)).
Proof.
  induction l as [|r l IH]; intros H acc.
  - simpl. change (inject_Z 0) with 0. split; lra.
  - assert (Hr : (lo <= Benchmark.estimatedElo r <= hi)%Z)
      by (apply H; now left).
    destruct (IH (fun x Hx => H x (or_intror Hx))
                 (acc + inject_Z (Benchmark.estimatedElo r))) as [A B].
    simpl fold_left. simpl List.length.
    rewrite Nat2Z.inj_succ. unfold Z.succ. rewrite inject_Z_plus.
    change (inject_Z 1) with 1.
    destruct Hr as [H1 H2]. rewrite Zle_Qle in H1, H2.
    split; [eapply Qle_trans; [|exact A]|eapply Qle_trans; [exact B|]]; lra.
Qed.

Lemma sliceLast_length {A} (n : nat) (l : list A) :
  List.length (Benchmark.sliceLast n l) = Nat.min n (List.length l).
Proof. unfold Benchmark.sliceLast. rewrite length_skipn. lia. Qed.

Lemma sliceLast_suffix {A} (n : nat) (l : list A) :
  exists dropped, l = dropped ++ Benchmark.sliceLast n l.
Proof.
  unfold Benchmark.sliceLast. exists (firstn (List.length l - n) l).
  now rewrite firstn_skipn.
Qed.

(** X19. The benchmark summary is consistent with its history: every game
    is counted once as an agent win, an engine win or a draw; with no game
    played the estimate is 800; otherwise the estimate, the rounded mean of
    the last ten games' estimates, lies between any two bounds that all of
    those estimates respect. *)
Theorem x19_benchmark_stats_are_consistent :
  forall (benchmarkHistory : list Benchmark.BenchmarkResult) (lo hi : Z),
    (forall r, In r (Benchmark.sliceLast 10 benchmarkHistory) ->
               (lo <= Benchmark.estimatedElo r <= hi)%Z) ->
    let stats := Benchmark.getBenchmarkStats benchmarkHistory in
    Benchmark.totalGames stats =
      (Benchmark.aiWins stats + Benchmark.stockfishWins stats
       + Benchmark.draws stats)%Z /\
    (benchmarkHistory = [] -> Benchmark.stats_estimatedElo stats = 800%Z) /\
    (benchmarkHistory <> [] ->
     (lo <= Benchmark.stats_estimatedElo stats <= hi)%Z).
Proof.
  intros h lo hi H stats. unfold stats, Benchmark.getBenchmarkStats.
  cbn [Benchmark.totalGames Benchmark.aiWins Benchmark.stockfishWins
       Benchmark.draws Benchmark.stats_estimatedElo].
  split; [|split].
  - rewrite <- (filter_results_total h). lia.
  - intros ->. reflexivity.
  - intros Hne. destruct h as [|r0 h0]; [congruence|].
    set (recent := Benchmark.sliceLast 10 (r0 :: h0)) in *.
    assert (Hn : (0 < List.length recent)%nat).
    { unfold recent. rewrite sliceLast_length. simpl. lia. }
    destruct (sum_estimates_between lo hi recent H 0) as [A B].
    set (n := inject_Z (Z.of_nat (List.length recent))) in *.
    assert (N : 0 < n).
    { unfold n. change 0 with (inject_Z 0). rewrite <- Zlt_Qlt. lia. }
    apply Math_round_between.
    + apply Qle_shift_div_l; [exact N|]. lra.
    + apply Qle_shift_div_r; [exact N|]. lra.
Qed.

Lemma x19_benchmark_stats_are_consistent_witness :
  Benchmark.stats_estimatedElo
    (Benchmark.getBenchmarkStats
       [Benchmark.mkResult 1 "t1" white 800 0 800 Benchmark.ai_win
                           "Checkmate" 40 850;
        Benchmark.mkResult 2 "t2" black 800 2 1040 Benchmark.stockfish_win
                           "Checkmate" 31 800]) = 825%Z /\
  (800 <= 825 <= 850)%Z.
Proof.
  split; [reflexivity|].
  apply (x19_benchmark_stats_are_consistent
           [Benchmark.mkResult 1 "t1" white 800 0 800 Benchmark.ai_win
                               "Checkmate" 40 850;
            Benchmark.mkResult 2 "t2" black 800 2 1040 Benchmark.stockfish_win
                               "Checkmate" 31 800] 800 850).
  - intros r [<-|[<-|[]]]; simpl; lia.
  - discriminate.
Defined.

Lemma maxId_ge (rest : list Z) :
  forall first x, (x = first \/ In x rest) ->
                  (x <= Persistence.maxId first rest)%Z.
Proof.
  unfold Persistence.maxId.
  induction rest as [|y rest IH]; intros first x [->|I]; simpl.
  - lia.
  - destruct I.
  - apply (Z.le_trans _ (Z.max first y)); [lia|].
    apply IH. now left.
  - destruct I as [->|I].
    + apply (Z.le_trans _ (Z.max first x)); [lia|]. apply IH. now left.
    + apply IH. now right.
Qed.

(** X20. Saving a game keeps the stored history bounded and the new game
    identifiable: the file holds at most 50 games afterwards; the saved game
    is the last one, with the caller's moves and result and the given
    timestamp; the games before it are the most recent ones of the old
    history, in order; and its id is larger than the id of every game that
    was stored. *)
Theorem x20_saved_history_is_bounded_with_fresh_id :
  forall (file : option (list Persistence.GameRecord))
         (game : Persistence.GameRecord) (now : string),
    let history := Persistence.loadGameHistory file in
    let saved := Persistence.saveGameToHistory file game now in
    List.length saved = Nat.min 50 (S (List.length history)) /\
    exists dropped older newGame,
      saved = older ++ [newGame] /\ history = dropped ++ older /\
      Persistence.moves newGame = Persistence.moves game /\
      Persistence.result newGame = Persistence.result game /\
      Persistence.timestamp newGame = now /\
      forall g, In g history ->
                (Persistence.id g < Persistence.id newGame)%Z.
Proof.
  intros file game now history saved.
  unfold saved, Persistence.saveGameToHistory. fold history.
  set (newId := match map Persistence.id history with
                | [] => 1%Z
                | first :: rest => (Persistence.maxId first rest + 1)%Z
                end).
  set (newGame := Persistence.mkGameRecord newId now _ _ _ _ _ _ _).
  split.
  - rewrite sliceLast_length, length_app. cbn [List.length].
    unfold Persistence.MAX_GAMES_STORED. lia.
  - unfold Benchmark.sliceLast, Persistence.MAX_GAMES_STORED.
    rewrite length_app. simpl List.length.
    set (k := (List.length history + 1 - 50)%nat).
    assert (Hk : (k <= List.length history)%nat) by (unfold k; lia).
    exists (firstn k history), (skipn k history), newGame.
    split; [|split; [|repeat split]].
    + rewrite skipn_app.
      replace (k - List.length history)%nat with 0%nat by lia.
      reflexivity.
    + now rewrite firstn_skipn.
    + intros g Hg. simpl. unfold newId.
      assert (I : In (Persistence.id g) (map Persistence.id history))
        by now apply in_map.
      destruct (map Persistence.id history) as [|first rest]; [destruct I|].
      pose proof (maxId_ge rest first (Persistence.id g)) as M.
      assert (Persistence.id g <= Persistence.maxId first rest)%Z.
      { apply M. destruct I as [->|I]; auto. }
      lia.
Qed.

(* ================================================================== *)
(** ** The orchestrator: scheduling and settled games *)
(* ================================================================== *)

Section ManagerFacts.
Context {Chess : Type} {CO : ChessOracle Chess} {SO : SearchOracle}.
Implicit Types (g : @GameManager Chess) (s : @Sys Chess) (w : World).

Lemma settle_schedule (winner : Winner) g w :
  isRunning (fst (settle winner g w)) = isRunning g /\
  timer (fst (settle winner g w)) = timer g /\
  chess (fst (settle winner g w)) = chess g.
Proof.
  unfold settle. destruct winner;
    repeat match goal with
           | |- context [updateStats ?r ?a ?w] => destruct (updateStats r a w)
           end; repeat split; reflexivity.
Qed.

Lemma playGame_schedule (fuel : nat) :
  forall g g' w w',
    playGame fuel g w = Ok (g', w') ->
    isRunning g' = isRunning g /\ timer g' = timer g.
Proof.
  induction fuel as [|fuel IH]; intros g g' w w' H; simpl in H.
  - destruct (chess_isGameOver (chess g)); [|discriminate].
    inversion H; subst. auto.
  - destruct (chess_isGameOver (chess g)); [inversion H; subst; auto|].
    destruct (decideMoveAuto _ _ w) as [[[mv ai] w1]| |]; simpl in H;
      try discriminate.
    destruct (truthyMove mv) as [m|].
    + destruct (chess_turn (chess g)); simpl in H;
        (destruct (chess_move (chess g) m) as [c'|];
         [apply IH in H; exact H | inversion H; subst; auto]).
    + inversion H. destruct (chess_turn (chess g)); auto.
Qed.

Lemma quickTrainGame_schedule (fuel : nat) (numGames : Q) (game : Z)
      (t t' : Tally) s s' :
  quickTrainGame fuel numGames game t s = Ok (t', s') ->
  isRunning (gm s') = isRunning (gm s) /\ timer (gm s') = timer (gm s).
Proof.
  unfold quickTrainGame. intros H.
  destruct (playGame fuel _ (world s)) as [[g w]| |] eqn:P; simpl in H;
    try discriminate.
  apply playGame_schedule in P. simpl in P.
  destruct (settle_schedule (winnerOf (chess g)) g w) as (R & T & _).
  destruct (settle (winnerOf (chess g)) g w) as [g2 w2]. simpl in R, T.
  match type of H with
  | context [if ?b then _ else _] => destruct b
  end; inversion H; subst; simpl; destruct P; split; congruence.
Qed.

Lemma quickTrainLoop_schedule (fuel : nat) (numGames : Q) (passes : nat) :
  forall game t s t' s',
    quickTrainLoop fuel numGames passes game t s = Ok (t', s') ->
    isRunning (gm s') = isRunning (gm s) /\ timer (gm s') = timer (gm s).
Proof.
  induction passes as [|k IH]; intros game t s t' s' H;
    cbn [quickTrainLoop] in H;
    destruct (Js.ltb (inject_Z game) numGames);
    try discriminate;
    try (inversion H; subst; auto; fail).
  destruct (quickTrainGame fuel numGames game t s) as [[t1 s1]| |] eqn:G;
    simpl in H; try discriminate.
  apply quickTrainGame_schedule in G. apply IH in H.
  destruct G, H. split; congruence.
Qed.

Lemma pause_schedule s :
  isRunning (gm (pause s)) = false /\ timer (gm (pause s)) = None.
Proof.
  unfold pause. destruct s as [g w e]. simpl.
  destruct (timer g) eqn:T; simpl; auto.
Qed.

Lemma on_quick_train_schedule (fuel : nat) (n : option Q) s s' :
  on_quick_train fuel n s = Ok s' ->
  isRunning (gm s') = false /\
  chess (gm s') = chess_reset /\
  timer (gm s') = (if isRunning (gm s) then None else timer (gm s)).
Proof.
  unfold on_quick_train, quickTrain. intros H.
  set (s0 := emit (quick_train_started (clampGames n)) s) in H.
  set (s1 := if isRunning (gm s0) then pause s0 else s0) in H.
  assert (E1 : isRunning (gm s1) = false /\
               timer (gm s1) = if isRunning (gm s) then None
                               else timer (gm s)).
  { unfold s1. change (isRunning (gm s0)) with (isRunning (gm s)).
    destruct (isRunning (gm s)) eqn:R.
    - apply pause_schedule.
    - split; [exact R|reflexivity]. }
  destruct (quickTrainLoop _ _ _ _ _ s1) as [[t s2]| |] eqn:L;
    cbn [bind] in H; try discriminate.
  apply quickTrainLoop_schedule in L. destruct L as [L1 L2].
  inversion H; subst s'. simpl.
  destruct E1 as [E1 E2]. repeat split; congruence.
Qed.

Lemma gameLoop_schedule s s' :
  gameLoop s = Ok s' ->
  (isRunning (gm s) = false /\ s' = s) \/
  (isRunning (gm s) = true /\ isRunning (gm s') = true /\
   timer (gm s') <> None).
Proof.
  unfold gameLoop. destruct (isRunning (gm s)) eqn:R; simpl.
  2:{ intros H. inversion H. left. auto. }
  intros H. right. split; [reflexivity|].
  destruct (chess_isGameOver (chess (gm s))).
  - inversion H; subst s'. simpl.
    unfold handleGameOver. 
    destruct (settle_schedule (winnerOf (chess (gm s))) (gm s) (world s))
      as (A & _ & _).
    destruct (settle _ (gm s) (world s)) as [g w]. simpl in *.
    split; [congruence|discriminate].
  - destruct (decideMoveAuto _ _ _) as [[[mv ai] w]| |]; cbn [bind] in H;
      try discriminate.
    destruct (truthyMove mv) as [m|].
    + destruct (chess_move _ m) as [c'|]; inversion H; subst s'; simpl;
        (split; [|discriminate]);
        unfold putCurrentAI; destruct (currentSeat _); simpl; exact R.
    + inversion H; subst s'. simpl. split; [|discriminate].
      unfold putCurrentAI; destruct (currentSeat _); simpl; exact R.
Qed.

Lemma step_keeps_schedule_invariant (fuel : nat) s (i : @Input Chess) s' :
  step fuel s i = Ok s' ->
  scheduled_iff_running s -> scheduled_iff_running s'.
Proof.
  unfold scheduled_iff_running. intros H I.
  destruct i; simpl in H.
  - (* training_start *)
    unfold on_training_start, start in H.
    destruct (isRunning (gm s)) eqn:R.
    + inversion H; subst s'. simpl. rewrite R. exact I.
    + cbn [bind] in H.
      match type of H with
      | context [gameLoop ?x] => destruct (gameLoop x) as [s1| |] eqn:G
      end; cbn [bind] in H; try discriminate.
      inversion H; subst s'. simpl.
      apply gameLoop_schedule in G. simpl in G.
      destruct G as [[G _]|(_ & G1 & G2)]; [discriminate|].
      rewrite G1. tauto.
  - (* training_pause *)
    inversion H; subst s'.
    change (isRunning (gm (on_training_pause s)))
      with (isRunning (gm (pause s))).
    change (timer (gm (on_training_pause s))) with (timer (gm (pause s))).
    destruct (pause_schedule s) as [A B]. rewrite A, B.
    split; [discriminate|congruence].
  - (* training_stop *)
    inversion H; subst s'.
    change (isRunning (gm (on_training_stop s)))
      with (isRunning (gm (pause s))).
    change (timer (gm (on_training_stop s))) with (timer (gm (pause s))).
    destruct (pause_schedule s) as [A B]. rewrite A, B.
    split; [discriminate|congruence].
  - (* quick_train *)
    apply on_quick_train_schedule in H. destruct H as (A & _ & B).
    rewrite A, B. destruct (isRunning (gm s)) eqn:R.
    + split; [discriminate|congruence].
    + split; [discriminate|]. intros T. apply I in T. congruence.
  - (* run_benchmark *)
    inversion H; subst s'. unfold on_run_benchmark.
    destruct (isBenchmarking (gm s)); simpl; [exact I|].
    destruct (stockfish (gm s)); simpl; exact I.
  - (* set_speed *)
    inversion H; subst s'. simpl. exact I.
  - (* set_ai_mode *)
    inversion H; subst s'. simpl. exact I.
  - (* timer_fires *)
    unfold timerFired in H.
    destruct (timer (gm s)) as [[|]|] eqn:T.
    + apply gameLoop_schedule in H. simpl in H.
      destruct H as [[R _]|(_ & A & B)].
      * exfalso. assert (isRunning (gm s) = true) by (apply I; discriminate).
        congruence.
      * rewrite A. tauto.
    + apply gameLoop_schedule in H. simpl in H.
      destruct H as [[R _]|(_ & A & B)].
      * exfalso. assert (isRunning (gm s) = true) by (apply I; discriminate).
        congruence.
      * rewrite A. tauto.
    + inversion H; subst s'. rewrite T. exact I.
  - (* benchmark_init_failed *)
    destruct (isBenchmarking (gm s)); inversion H; subst s'; simpl; exact I.
  - (* benchmark_agent_move *)
    destruct (isBenchmarking (gm s)); [|inversion H; subst s'; exact I].
    unfold benchmarkAgentMove in H.
    destruct (decideMoveAuto _ _ _) as [[[mv ai] w]| |]; cbn [bind] in H;
      try discriminate.
    inversion H; subst s'. simpl. exact I.
  - (* benchmark_finished *)
    destruct (isBenchmarking (gm s)); inversion H; subst s'; [|exact I].
    unfold benchmarkFinished. destruct ok; simpl; exact I.
Qed.

(** X21. Training runs exactly when a move cycle is scheduled: in every
    state the process reaches from its start, whatever commands arrive and
    whenever the timer fires, [isRunning] is true if and only if a timer is
    pending. *)
Theorem x21_running_iff_cycle_scheduled :
  forall (fuel : nat) (w : World) (inputs : list (@Input Chess)) s,
    run fuel (initialSys w) inputs = Ok s ->
    (isRunning (gm s) = true <-> timer (gm s) <> None).
Proof.
  intros fuel w inputs.
  assert (G : forall s0 s, scheduled_iff_running s0 ->
                           run fuel s0 inputs = Ok s ->
                           scheduled_iff_running s).
  { induction inputs as [|i rest IH]; intros s0 s I H; simpl in H.
    - inversion H; subst. exact I.
    - destruct (step fuel s0 i) as [s1| |] eqn:St; cbn [bind] in H;
        try discriminate.
      eapply IH; [|exact H].
      eapply step_keeps_schedule_invariant; eauto. }
  intros s H. apply (G (initialSys w) s); [|exact H].
  unfold scheduled_iff_running. simpl. split; [discriminate|congruence].
Qed.

(** X22. Quick training does not resume live training: when the
    [quick_train] handler has finished, training is paused, whether or not
    it was running before, and the board is back at the initial position. *)
Theorem x22_quick_train_leaves_training_paused :
  forall (fuel : nat) (n : option Q) s s',
    on_quick_train fuel n s = Ok s' ->
    isRunning (gm s') = false /\ chess (gm s') = chess_reset /\
    (isRunning (gm s) = true -> timer (gm s') = None).
Proof.
  intros fuel n s s' H.
  destruct (on_quick_train_schedule fuel n s s' H) as (A & B & C).
  split; [exact A|]. split; [exact B|].
  intros R. now rewrite R in C.
Qed.

(** X23. A settled game is recorded once on each side: after [settle] both
    agents have played one more game and their traces are empty, and if their
    records mirrored each other before (one's wins the other's losses, the
    same draws and games) they still do. *)
Theorem x23_settle_records_the_game_on_both_sides :
  forall (winner : Winner) g w,
    mirrored (whiteAI g) (blackAI g) ->
    let g' := fst (settle winner g w) in
    mirrored (whiteAI g') (blackAI g') /\
    gamesPlayed (whiteAI g') = (gamesPlayed (whiteAI g) + 1)%Z /\
    gamesPlayed (blackAI g') = (gamesPlayed (blackAI g) + 1)%Z /\
    gameHistory (whiteAI g') = [] /\ gameHistory (blackAI g') = [].
Proof.
  intros winner g w (M1 & M2 & M3 & M4) g'. unfold g', mirrored.
  destruct (settle_agents winner g w)
    as (rw & rb & w1 & w2 & -> & -> & [(_ & -> & ->)|[(_ & -> & ->)|(_ & -> & ->)]]);
    unfold updateStats, Math_random; simpl; repeat split; lia.
Qed.

End ManagerFacts.

Lemma x21_running_iff_cycle_scheduled_witness :
  exists s : @Sys Toy.Chess,
    run 10 (initialSys Toy.world) [training_start; timer_fires] = Ok s /\
    (isRunning (gm s) = true <-> timer (gm s) <> None).
Proof.
  destruct (run 10 (initialSys Toy.world) [training_start; timer_fires])
    as [s| |] eqn:E.
  - exists s. split; [reflexivity|].
    exact (x21_running_iff_cycle_scheduled 10 Toy.world
             [training_start; timer_fires] s E).
  - exfalso. vm_compute in E. discriminate E.
  - exfalso. vm_compute in E. discriminate E.
Defined.

Lemma x22_quick_train_leaves_training_paused_witness :
  exists s' : @Sys Toy.Chess,
    on_quick_train 4 (Some 2) (initialSys Toy.world) = Ok s' /\
    isRunning (gm s') = false /\ chess (gm s') = chess_reset.
Proof.
  destruct (on_quick_train 4 (Some 2) (initialSys Toy.world))
    as [s'| |] eqn:E.
  - exists s'. split; [reflexivity|].
    destruct (x22_quick_train_leaves_training_paused
                4 (Some 2) (initialSys Toy.world) s' E) as (A & B & _).
    split; [exact A|exact B].
  - exfalso. vm_compute in E. discriminate E.
  - exfalso. vm_compute in E. discriminate E.
Defined.

Lemma x23_settle_records_the_game_on_both_sides_witness :
  mirrored (whiteAI (@newGameManager Toy.Chess _))
           (blackAI (@newGameManager Toy.Chess _)) /\
  mirrored
    (whiteAI (fst (settle winner_black (@newGameManager Toy.Chess _)
                          Toy.world)))
    (blackAI (fst (settle winner_black (@newGameManager Toy.Chess _)
                          Toy.world))) /\
  losses (whiteAI (fst (settle winner_black (@newGameManager Toy.Chess _)
                               Toy.world))) = 1%Z.
Proof.
  assert (M : mirrored (whiteAI (@newGameManager Toy.Chess _))
                       (blackAI (@newGameManager Toy.Chess _)))
    by (repeat split; reflexivity).
  split; [exact M|]. split; [|reflexivity].
  exact (proj1 (x23_settle_records_the_game_on_both_sides
                  winner_black (@newGameManager Toy.Chess _) Toy.world M)).
Defined.
(* ================================================================== *)
(** ** Quick training: the games that are played *)
(* ================================================================== *)

(** The loop test [game < numGames] on a whole counter: the loop goes on
    while the counter is below [numGames] rounded up. *)
Lemma loop_test_ceiling (game : Z) (numGames : Q) :
  Js.ltb (inject_Z game) numGames = true <-> (game < Qceiling numGames)%Z.
Proof.
  rewrite ltb_true. split; intros H.
  - rewrite Zlt_Qlt.
    eapply Qlt_le_trans; [exact H|apply Qle_ceiling].
  - eapply Qle_lt_trans; [|apply Qceiling_lt].
    rewrite <- Zle_Qle. lia.
Qed.

Lemma Qceiling_clamp (q : Q) :
  Qceiling (Js.Math_min (Js.Math_max 1 q) 50) =
    Z.min (Z.max 1 (Qceiling q)) 50.
Proof.
  unfold Js.Math_min, Js.Math_max.
  assert (C1 : Qceiling 1 = 1%Z) by reflexivity.
  assert (C50 : Qceiling 50 = 50%Z) by reflexivity.
  assert (M : Qceiling (Qmax 1 q) = Z.max 1 (Qceiling q)).
  { destruct (Q.max_spec 1 q) as [[L E]|[L E]]; rewrite E.
    - apply Qlt_le_weak, Qceiling_resp_le in L. lia.
    - apply Qceiling_resp_le in L. lia. }
  destruct (Q.min_spec (Qmax 1 q) 50) as [[L E]|[L E]]; rewrite E.
  - apply Qlt_le_weak, Qceiling_resp_le in L. lia.
  - apply Qceiling_resp_le in L. lia.
Qed.

Lemma clampGames_range (n : option Q) :
  (1 <= Qceiling (clampGames n) <= 50)%Z.
Proof. unfold clampGames. rewrite Qceiling_clamp. lia. Qed.

Lemma savedGames_emit {Chess : Type} (e : Event) (s : @Sys Chess) :
  savedGames (emitted (emit e s)) =
    savedGames (emitted s) ++ savedGames [e].
Proof. unfold savedGames, emit. simpl emitted. apply flat_map_app. Qed.

Section QuickTrainGames.
Context {Chess : Type} {CO : ChessOracle Chess} {SO : SearchOracle}.
Context {RO : RulesOk CO} {SK : SearchOk SO} {PO : PlayOk (CO := CO)}.
Implicit Types (nn : NeuralNetwork) (w : World)
         (g : @GameManager Chess) (s : @Sys Chess).

Lemma truthy_Some (o : option string) (m : string) :
  MCTS.truthy o = Some m -> o = Some m.
Proof. destruct o as [[|a r]|]; simpl; congruence. Qed.

Lemma decideMove_listed nn (chess : Chess) w mv nn' w' :
  chess_moves chess <> [] ->
  decideMove nn chess w = (mv, nn', w') ->
  exists mo, In mo (chess_moves chess) /\ mv = Some (san mo).
Proof.
  intros Hne D.
  destruct (decideMove_cases nn chess w mv nn' w' D)
    as [(E & _)|[(m & I & _ & R & _)|(m & I & R & _)]];
    [contradiction|eauto|eauto].
Qed.

(** In a position with a legal move, the tree-search policy answers with
    one of the legal moves. *)
Lemma decideMoveWithMCTS_listed nn (chess : Chess) w mv nn' w' :
  chess_moves chess <> [] ->
  decideMoveWithMCTS nn chess w = Ok (mv, nn', w') ->
  exists mo, In mo (chess_moves chess) /\ mv = Some (san mo).
Proof.
  intros Hne H. unfold decideMoveWithMCTS in H.
  destruct (chess_moves chess) as [|first others] eqn:Hm; [congruence|].
  cbv zeta in H.
  assert (Search :
            forall w0 bias,
              (mctsMove <- MCTS.result
                 (MCTS.mcts (chess_fen chess) (mctsSimulations nn) bias w0) ;;
               match MCTS.truthy mctsMove with
               | Some m =>
                   Ok (Some m,
                       pushHistory nn
                         (mkHistory (hashPosition (chess_fen chess)) m
                            match find (fun mo => String.eqb (san mo) m)
                                       (first :: others) with
                            | Some moveObj => evaluateMove moveObj
                            | None => 0
                            end),
                       MCTS.world
                         (MCTS.mcts (chess_fen chess) (mctsSimulations nn)
                                    bias w0))
               | None =>
                   Ok (decideMove nn chess
                         (MCTS.world
                            (MCTS.mcts (chess_fen chess)
                                       (mctsSimulations nn) bias w0)))
               end) = Ok (mv, nn', w') ->
              exists mo, In mo (first :: others) /\ mv = Some (san mo)).
  { intros w0 bias X.
    destruct (MCTS.result
                (MCTS.mcts (chess_fen chess) (mctsSimulations nn) bias w0))
      as [o| |] eqn:R; cbn [bind] in X; try discriminate.
    destruct (MCTS.truthy o) as [m|] eqn:T.
    - apply truthy_Some in T. subst o.
      apply mcts_result_legal in R.
      rewrite fen_keeps_moves, Hm in R.
      apply in_map_iff in R. destruct R as (mo & E & I).
      exists mo. split; [exact I|]. inversion X. congruence.
    - injection X as X.
      rewrite <- Hm. eapply decideMove_listed; [congruence|exact X]. }
  destruct (isInBook (chess_fen chess)).
  - destruct (getBookMove (chess_fen chess) w) as [bookMove w1].
    destruct (legalBookMove bookMove (first :: others)) as [b|] eqn:L.
    + destruct (legalBookMove_listed _ _ _ L) as (mo & I & E).
      exists mo. split; [exact I|]. inversion H. congruence.
    + exact (Search _ _ H).
  - exact (Search _ _ H).
Qed.

Lemma decideMoveAuto_listed nn (chess : Chess) w mv nn' w' :
  chess_moves chess <> [] ->
  decideMoveAuto nn chess w = Ok (mv, nn', w') ->
  exists mo, In mo (chess_moves chess) /\ mv = Some (san mo).
Proof.
  intros Hne. unfold decideMoveAuto.
  destruct (mode nn); try now apply decideMoveWithMCTS_listed.
  intros H. injection H as H. eapply decideMove_listed; eauto.
Qed.

(** The inner loop of [quickTrain] plays the game on the board to its end:
    it returns with a finished game, reached by legal moves. *)
Lemma playGame_completes (fuel : nat) :
  forall g w,
    (gameLength (chess g) < fuel)%nat -> World_ok w ->
    (1 <= mctsSimulations (whiteAI g))%Z ->
    (1 <= mctsSimulations (blackAI g))%Z ->
    exists g' w',
      playGame fuel g w = Ok (g', w') /\
      chess_isGameOver (chess g') = true /\
      playedTo (chess g) (chess g') /\
      sameAgentStats (whiteAI g) (whiteAI g') /\
      sameAgentStats (blackAI g) (blackAI g') /\
      randoms w' = randoms w.
Proof.
  induction fuel as [|fuel IH]; intros g w Hf W Hw Hb; [lia|].
  cbn [playGame].
  destruct (chess_isGameOver (chess g)) eqn:Over.
  { exists g, w. split; [reflexivity|]. split; [exact Over|].
    split; [apply played_none|].
    split; [apply sameAgentStats_refl|].
    split; [apply sameAgentStats_refl|reflexivity]. }
  remember (match chess_turn (chess g) with
            | white => true | black => false end) as isWhite eqn:Tw.
  clear Tw.
  destruct (decideMoveAuto_returns (if isWhite then whiteAI g else blackAI g)
                                   (chess g) w W)
    as (mv & ai & w1 & D & F & R).
  { destruct isWhite; assumption. }
  destruct (decideMoveAuto_listed _ _ _ _ _ _
              (unfinished_has_move _ Over) D) as (mo & I & ->).
  rewrite D. cbn [bind].
  set (g1 := if isWhite then set_whiteAI ai g else set_blackAI ai g).
  assert (Fw : sameAgentStats (whiteAI g) (whiteAI g1)).
  { unfold g1. destruct isWhite; [exact F|apply sameAgentStats_refl]. }
  assert (Fb : sameAgentStats (blackAI g) (blackAI g1)).
  { unfold g1. destruct isWhite; [apply sameAgentStats_refl|exact F]. }
  assert (Cg : chess g1 = chess g).
  { unfold g1. destruct isWhite; reflexivity. }
  assert (T : truthyMove (Some (san mo)) = Some (san mo)).
  { pose proof (san_not_empty _ _ I) as N.
    unfold truthyMove, MCTS.truthy. destruct (san mo); congruence. }
  rewrite T, Cg.
  destruct (chess_move (chess g) (san mo)) as [c'|] eqn:M;
    [|exfalso; exact (legal_moves_apply _ _ I M)].
  pose proof (game_progress _ _ Over M) as P.
  destruct (IH (set_chess c' g1) w1)
    as (g' & w' & X & O' & Pl & Fw' & Fb' & R').
  - simpl. lia.
  - eapply World_ok_randoms; eauto.
  - simpl. destruct Fw as [_ ->]. exact Hw.
  - simpl. destruct Fb as [_ ->]. exact Hb.
  - exists g', w'. split; [exact X|]. split; [exact O'|].
    split; [eapply played_move; [exact Over|exact I|exact M|exact Pl]|].
    split; [eapply sameAgentStats_trans; [exact Fw|exact Fw']|].
    split; [eapply sameAgentStats_trans; [exact Fb|exact Fb']|].
    congruence.
Qed.

(** One pass of the quick-training loop plays one game to its end, settles
    it for both agents and stores it. *)
Lemma quickTrainGame_returns (fuel : nat) (numGames : Q) (game : Z)
      (t : Tally) s :
  (gameLength chess_reset < fuel)%nat -> World_ok (world s) ->
  (1 <= mctsSimulations (whiteAI (gm s)))%Z ->
  (1 <= mctsSimulations (blackAI (gm s)))%Z ->
  exists t' s' played,
    quickTrainGame fuel numGames game t s = Ok (t', s') /\
    savedGames (emitted s') = savedGames (emitted s) ++ [played] /\
    completeGame played /\
    tallyTotal t' = (tallyTotal t + 1)%Z /\
    gamesPlayed (whiteAI (gm s')) = (gamesPlayed (whiteAI (gm s)) + 1)%Z /\
    gamesPlayed (blackAI (gm s')) = (gamesPlayed (blackAI (gm s)) + 1)%Z /\
    mctsSimulations (whiteAI (gm s')) = mctsSimulations (whiteAI (gm s)) /\
    mctsSimulations (blackAI (gm s')) = mctsSimulations (blackAI (gm s)) /\
    randoms (world s') = randoms (world s).
Proof.
  intros Hf W Hw Hb. unfold quickTrainGame.
  destruct (playGame_completes fuel (set_chess chess_reset (gm s)) (world s))
    as (g1 & w1 & P & Over & Pl & [Fw1 Fw2] & [Fb1 Fb2] & R1); auto.
  rewrite P. cbn [bind].
  destruct (settle (winnerOf (chess g1)) g1 w1) as [g2 w2] eqn:St.
  apply settle_frame in St.
  destruct St as (Gw & Gb & Mw & Mb & R2 & C2).
  simpl in Fw1, Fw2, Fb1, Fb2, Pl.
  exists (tallyUp (winnerOf (chess g1)) t).
  eexists. exists (chess_history (chess g1), winnerOf (chess g1)).
  split; [reflexivity|].
  split.
  { rewrite C2.
    match goal with
    | |- context [if ?c then _ else _] => destruct c
    end; rewrite ?savedGames_emit; simpl; rewrite ?app_nil_r; reflexivity. }
  split; [exists (chess g1); auto|].
  split; [apply tallyUp_total|].
  match goal with
  | |- context [if ?c then _ else _] => destruct c
  end; simpl; repeat split; congruence.
Qed.

(** The [for] loop plays a game for every whole number from [game] up to,
    and not including, [numGames] rounded up. *)
Lemma quickTrainLoop_returns (fuel : nat) (numGames : Q) (passes : nat) :
  forall (game : Z) (t : Tally) s,
    (Qceiling numGames - game <= Z.of_nat passes)%Z ->
    (gameLength chess_reset < fuel)%nat -> World_ok (world s) ->
    (1 <= mctsSimulations (whiteAI (gm s)))%Z ->
    (1 <= mctsSimulations (blackAI (gm s)))%Z ->
    exists t' s' games,
      quickTrainLoop fuel numGames passes game t s = Ok (t', s') /\
      savedGames (emitted s') = savedGames (emitted s) ++ games /\
      Forall completeGame games /\
      Z.of_nat (List.length games) = Z.max 0 (Qceiling numGames - game) /\
      tallyTotal t' = (tallyTotal t + Z.max 0 (Qceiling numGames - game))%Z /\
      gamesPlayed (whiteAI (gm s')) =
        (gamesPlayed (whiteAI (gm s))
         + Z.max 0 (Qceiling numGames - game))%Z /\
      gamesPlayed (blackAI (gm s')) =
        (gamesPlayed (blackAI (gm s))
         + Z.max 0 (Qceiling numGames - game))%Z.
Proof.
  induction passes as [|k IH]; intros game t s Hp Hf W Hw Hb;
    cbn [quickTrainLoop];
    destruct (Js.ltb (inject_Z game) numGames) eqn:Test.
  - apply loop_test_ceiling in Test. lia.
  - assert (~ (game < Qceiling numGames)%Z) as N.
    { rewrite <- loop_test_ceiling. congruence. }
    exists t, s, []. rewrite app_nil_r. simpl List.length.
    repeat split; try constructor; lia.
  - apply loop_test_ceiling in Test.
    destruct (quickTrainGame_returns fuel numGames game t s Hf W Hw Hb)
      as (t1 & s1 & played & G & Sv & Cp & T1 & Gw & Gb & Mw & Mb & R).
    rewrite G. cbn [bind fst snd].
    destruct (IH (game + 1)%Z t1 s1)
      as (t2 & s2 & games & L & Sv2 & Cg & Len & T2 & Gw2 & Gb2).
    + lia.
    + exact Hf.
    + eapply World_ok_randoms; eauto.
    + now rewrite Mw.
    + now rewrite Mb.
    + exists t2, s2, (played :: games). split; [exact L|].
      split; [rewrite Sv2, Sv, <- app_assoc; reflexivity|].
      split; [constructor; assumption|].
      simpl List.length. repeat split; lia.
  - assert (~ (game < Qceiling numGames)%Z) as N.
    { rewrite <- loop_test_ceiling. congruence. }
    exists t, s, []. rewrite app_nil_r. simpl List.length.
    repeat split; try constructor; lia.
Qed.

(** C10, amended. The [quick_train] handler plays the clamped request,
    rounded up to a whole number of games.  Provided chess.js keeps its
    contract (listed moves are accepted, a position that is not over has a
    legal move, a position rebuilt from its FEN has the same moves, games
    end within the moves the model follows), random draws lie in [0, 1) and
    both agents run at least one simulation, the handler completes, and the
    games it hands to the history store are exactly that many, each played
    from the initial position by legal moves to the end of the game and
    stored with the moves and the result of its last board; each agent has
    finished that many more games, and the white wins, black wins and draws
    reported add up to it.  The number of games is
    [min(max(1, n), 50)] for a positive whole [n],
    [min(max(1, ceil n), 50)] for any [n] other than zero, [5] when [n] is
    missing or zero, and never more than 50. *)
Theorem c10_quick_train_games_clamped :
  forall (fuel : nat) (n : option Q) s,
    World_ok (world s) ->
    (1 <= mctsSimulations (whiteAI (gm s)))%Z ->
    (1 <= mctsSimulations (blackAI (gm s)))%Z ->
    (gameLength chess_reset < fuel)%nat ->
    exists s' results games,
      on_quick_train fuel n s = Ok s' /\
      savedGames (emitted s') = savedGames (emitted s) ++ games /\
      Forall completeGame games /\
      Z.of_nat (List.length games) = Qceiling (clampGames n) /\
      gamesPlayed (whiteAI (gm s')) =
        (gamesPlayed (whiteAI (gm s)) + Qceiling (clampGames n))%Z /\
      gamesPlayed (blackAI (gm s')) =
        (gamesPlayed (blackAI (gm s)) + Qceiling (clampGames n))%Z /\
      In (quick_train_complete results) (emitted s') /\
      res_gamesPlayed results = clampGames n /\
      (res_whiteWins results + res_blackWins results + res_draws results)%Z =
        Qceiling (clampGames n) /\
      (forall k : Z, n = Some (inject_Z k) -> (0 < k)%Z ->
                     Qceiling (clampGames n) = Z.min (Z.max 1 k) 50) /\
      (forall q : Q, n = Some q -> ~ q == 0 ->
                     Qceiling (clampGames n) =
                       Z.min (Z.max 1 (Qceiling q)) 50) /\
      (n = None \/ (exists q : Q, n = Some q /\ q == 0) ->
       Qceiling (clampGames n) = 5%Z) /\
      (1 <= Qceiling (clampGames n) <= 50)%Z.
Proof.
  intros fuel n s W Hw Hb Hf.
  pose proof (clampGames_range n) as Hr.
  unfold on_quick_train, quickTrain.
  set (s0 := emit (quick_train_started (clampGames n)) s).
  set (s1 := if isRunning (gm s0) then pause s0 else s0).
  assert (E1 : whiteAI (gm s1) = whiteAI (gm s) /\
               blackAI (gm s1) = blackAI (gm s) /\ world s1 = world s /\
               savedGames (emitted s1) = savedGames (emitted s)).
  { assert (E0 : savedGames (emitted s0) = savedGames (emitted s)).
    { unfold s0. rewrite savedGames_emit. simpl. apply app_nil_r. }
    unfold s1. destruct (isRunning (gm s0)); [|simpl; auto].
    unfold pause. cbv zeta. rewrite savedGames_emit. simpl.
    rewrite app_nil_r.
    destruct (timer (gm s)); simpl; auto. }
  destruct E1 as (Ew & Eb & Ewd & Es).
  destruct (quickTrainLoop_returns fuel (clampGames n)
              (Z.to_nat (Qceiling (clampGames n))) 0%Z (mkTally 0 0 0) s1)
    as (t & s2 & games & L & Sv & Cg & Len & T & Gw & Gb).
  { lia. }
  { exact Hf. }
  { now rewrite Ewd. }
  { now rewrite Ew. }
  { now rewrite Eb. }
  rewrite L. cbn [bind].
  replace (Z.max 0 (Qceiling (clampGames n) - 0))
    with (Qceiling (clampGames n)) in * by lia.
  eexists _, _, games. split; [reflexivity|].
  split.
  { rewrite <- Es, <- Sv.
    unfold broadcastState, emit, withGM. cbn [emitted].
    unfold savedGames. rewrite !flat_map_app. cbn [flat_map app].
    rewrite !app_nil_r. reflexivity. }
  split; [exact Cg|]. split; [exact Len|].
  unfold tallyTotal in T. simpl in T.
  simpl. rewrite Gw, Gb, Ew, Eb.
  split; [reflexivity|]. split; [reflexivity|].
  split.
  { apply in_or_app. left. apply in_or_app. right. now left. }
  split; [reflexivity|]. split; [exact T|].
  split.
  { intros k -> Hk. unfold clampGames.
    assert (Qeq_bool (inject_Z k) 0 = false) as ->.
    { apply not_true_is_false. intros X. apply Qeq_bool_iff in X.
      unfold Qeq in X. simpl in X. lia. }
    rewrite Qceiling_clamp, Qceiling_Z. reflexivity. }
  split.
  { intros q -> Hq. unfold clampGames.
    assert (Qeq_bool q 0 = false) as ->.
    { apply not_true_is_false. intros X. apply Qeq_bool_iff in X. tauto. }
    apply Qceiling_clamp. }
  split; [|exact Hr].
  intros [->|(q & -> & Hq)]; unfold clampGames.
  - reflexivity.
  - apply Qeq_bool_iff in Hq. rewrite Hq. reflexivity.
Qed.

End QuickTrainGames.

(** The three-ply game keeps the rest of the contract as well. *)
Lemma toy_play_ok : PlayOk (CO := Toy.oracle).
Proof.
  constructor.
  - intros c. simpl. unfold Toy.isGameOver, Toy.moves, Toy.ply.
    destruct c as [|a [|b [|d r]]]; simpl; discriminate.
  - intros c. simpl.
    destruct c as [|a [|b [|d r]]]; reflexivity.
  - intros c m. simpl. unfold Toy.moves, Toy.ply.
    destruct c as [|a [|b [|d r]]]; simpl; intros H;
      repeat (destruct H as [<-|H]; [discriminate|]); destruct H.
Qed.

Lemma c10_quick_train_games_clamped_witness :
  World_ok Toy.world /\
  (@gameLength _ _ toy_rules_ok chess_reset < 4)%nat /\
  exists (s' : @Sys Toy.Chess) results games,
    on_quick_train 4 (Some 70) (initialSys Toy.world) = Ok s' /\
    savedGames (emitted s') = games /\
    Forall completeGame games /\
    List.length games = 50%nat /\
    gamesPlayed (whiteAI (gm s')) = 50%Z /\
    In (quick_train_complete results) (emitted s').
Proof.
  assert (Hf : (@gameLength _ _ toy_rules_ok chess_reset < 4)%nat)
    by (cbv; lia).
  assert (Hs : (1 <= 30)%Z) by lia.
  split; [exact toy_world_ok|]. split; [exact Hf|].
  destruct (c10_quick_train_games_clamped
              (RO := toy_rules_ok) (SK := toy_search_ok) (PO := toy_play_ok)
              4 (Some 70) (initialSys Toy.world) toy_world_ok Hs Hs Hf)
    as (s' & results & games & R & Sv & Cg & Len & Gw & _ & I & _).
  exists s', results, games. split; [exact R|].
  split; [exact Sv|]. split; [exact Cg|].
  split; [|split; [exact Gw|exact I]].
  apply Nat2Z.inj. rewrite Len. reflexivity.
Defined.

(** C10 as stated fails for a request that is not a whole number: asked for
    2.5 games, the handler clamps to 2.5, its loop runs for the game numbers
    0, 1 and 2, and three games are played and stored, which is not
    [min(max(1, 2.5), 50)]. *)
Lemma c10_counterexample :
  exists (s' : @Sys Toy.Chess) results,
    on_quick_train 4 (Some (5 # 2)) (initialSys Toy.world) = Ok s' /\
    List.length (savedGames (emitted s')) = 3%nat /\
    gamesPlayed (whiteAI (gm s')) = 3%Z /\
    gamesPlayed (blackAI (gm s')) = 3%Z /\
    In (quick_train_complete results) (emitted s') /\
    res_gamesPlayed results = 5 # 2 /\
    Qmin (Qmax 1 (5 # 2)) 50 == 5 # 2 /\
    ~ inject_Z 3 == Qmin (Qmax 1 (5 # 2)) 50.
Proof.
  eexists. eexists.
  split; [vm_compute; reflexivity|].
  split; [reflexivity|]. split; [reflexivity|]. split; [reflexivity|].
  split; [simpl; right; right; right; right; right; left; reflexivity|].
  split; [reflexivity|].
  split; [reflexivity|].
  intros H. vm_compute in H. discriminate H.
Qed.
